(** * Video composition API: job coordinator and render pipeline

    A shallow embedding of
      - [models/api.py], [models/database.py]  (enumerations and records),
      - [services/job_service.py]              (the job store operations),
      - [services/video_service.py]            (resolver, compositor, pipeline),
      - [api/endpoints/jobs.py]                (the job endpoints),
    followed by the properties of the job life cycle and of the pipeline.

    Conventions.  Python [float] values are modelled as exact rationals
    [Q]; equalities between them are stated with [==].  Python exceptions
    are modelled by the [Result] type; code that mutates the database, the
    temporary directory, the set of open clips or calls the progress
    callback runs in the state-and-exception monad [M] over [World].
    Third-party libraries (aiohttp, moviepy, PIL, hashlib, mimetypes, the
    pydantic/ORM layer) are collected in the record [Platform]. *)

From Stdlib Require Import QArith Qminmax Lqa.
From stdpp Require Import gmap strings list fin_maps pretty sorting.

Open Scope string_scope.
Open Scope list_scope.

(** ** Enumerations of [models/api.py] *)

Module JobStatus.
Inductive t := PENDING | QUEUED | PROCESSING | COMPLETED | FAILED | CANCELLED.
Definition value (s : t) : string :=
  match s with
  | PENDING => "pending" | QUEUED => "queued" | PROCESSING => "processing"
  | COMPLETED => "completed" | FAILED => "failed" | CANCELLED => "cancelled"
  end.
#[global] Instance eq_dec : EqDecision t.
Proof. solve_decision. Defined.
End JobStatus.

Module JobPriority.
Inductive t := NORMAL | HIGH | URGENT.
#[global] Instance eq_dec : EqDecision t.
Proof. solve_decision. Defined.
End JobPriority.

Module MediaType.
Inductive t := IMAGE | VIDEO | IMAGE_VIDEO.
#[global] Instance eq_dec : EqDecision t.
Proof. solve_decision. Defined.
End MediaType.

Module TransitionType.
Inductive t :=
| FADE | CROSSFADE | SLIDE_LEFT | SLIDE_RIGHT | SLIDE_UP | SLIDE_DOWN
| ZOOM_IN | ZOOM_OUT | NONE.
#[global] Instance eq_dec : EqDecision t.
Proof. solve_decision. Defined.
End TransitionType.

Module VideoQuality.
Inductive t := LOW | MEDIUM | HIGH | ULTRA | SD | HD | FHD | QHD | UHD.
End VideoQuality.

Module VideoFormat.
Inductive t := MP4 | WEBM | AVI | MOV | GIF.
#[global] Instance eq_dec : EqDecision t.
Proof. solve_decision. Defined.
Definition value (f : t) : string :=
  match f with
  | MP4 => "mp4" | WEBM => "webm" | AVI => "avi" | MOV => "mov" | GIF => "gif"
  end.
End VideoFormat.

(** ** Request records of [models/api.py] *)

Module SceneData.
Record t := mk {
  source : string;
  media_type : MediaType.t;
  duration : Q;
  transition : TransitionType.t }.
End SceneData.

Module CompositionSettings.
Record t := mk {
  background_color : string;
  crossfade_audio : bool;
  watermark_url : option string;
  watermark_position : string;
  watermark_opacity : Q }.
End CompositionSettings.

(** [scenes] is a Python [dict]: insertion ordered, so an association list
    in insertion order. *)
Module VideoCompositionRequest.
Record t := mk {
  scenes : list (string * SceneData.t);
  output_format : VideoFormat.t;
  quality : VideoQuality.t;
  fps : nat;
  priority : JobPriority.t;
  composition_settings : CompositionSettings.t;
  webhook_url : option string }.
End VideoCompositionRequest.

Module JobListQuery.
Record t := mk {
  status : option JobStatus.t;
  priority : option JobPriority.t;
  page : nat;
  per_page : nat;
  sort_by : string;
  sort_order : string }.
End JobListQuery.

(** ** The [jobs] table row of [models/database.py].  [composition_config]
    holds the request that [json.dumps] serialised.  The columns
    [error_details] and [webhook_attempts], which no code reads or writes,
    are left out. *)

Module Job.
Record t := mk {
  id : string;
  api_key : string;
  status : JobStatus.t;
  priority : JobPriority.t;
  composition_config : VideoCompositionRequest.t;
  title : option string;
  description : option string;
  progress : Q;
  current_step : option string;
  total_steps : option nat;
  output_file : option string;
  output_format : option string;
  output_size : option nat;
  duration : option Q;
  error_message : option string;
  retry_count : nat;
  max_retries : nat;
  webhook_url : option string;
  webhook_sent : bool;
  created_at : N;
  updated_at : N;
  started_at : option N;
  completed_at : option N;
  expires_at : option N }.

Definition is_finished (j : t) : bool :=
  match status j with
  | JobStatus.COMPLETED | JobStatus.FAILED | JobStatus.CANCELLED => true
  | _ => false
  end.

(** The properties [is_processing] and [can_retry] of the model class. *)
Definition is_processing (j : t) : bool :=
  match status j with
  | JobStatus.QUEUED | JobStatus.PROCESSING => true
  | _ => false
  end.
Definition can_retry (j : t) : bool :=
  match status j with
  | JobStatus.FAILED => Nat.ltb (retry_count j) (max_retries j)
  | _ => false
  end.

(** The three assignments of [update_job_status]. *)
Definition set_status (s : JobStatus.t) (j : t) : t :=
  mk (id j) (api_key j) s (priority j) (composition_config j) (title j)
     (description j) (progress j) (current_step j) (total_steps j)
     (output_file j) (output_format j) (output_size j) (duration j)
     (error_message j) (retry_count j) (max_retries j) (webhook_url j)
     (webhook_sent j) (created_at j) (updated_at j) (started_at j)
     (completed_at j) (expires_at j).
Definition set_updated_at (now : N) (j : t) : t :=
  mk (id j) (api_key j) (status j) (priority j) (composition_config j)
     (title j) (description j) (progress j) (current_step j) (total_steps j)
     (output_file j) (output_format j) (output_size j) (duration j)
     (error_message j) (retry_count j) (max_retries j) (webhook_url j)
     (webhook_sent j) (created_at j) now (started_at j)
     (completed_at j) (expires_at j).
Definition set_completed_at (now : N) (j : t) : t :=
  mk (id j) (api_key j) (status j) (priority j) (composition_config j)
     (title j) (description j) (progress j) (current_step j) (total_steps j)
     (output_file j) (output_format j) (output_size j) (duration j)
     (error_message j) (retry_count j) (max_retries j) (webhook_url j)
     (webhook_sent j) (created_at j) (updated_at j) (started_at j)
     (Some now) (expires_at j).
End Job.

(** [JobResponse] of [models/api.py]; it declares neither [api_key] nor
    [composition_config]. *)
Module JobResponse.
Record t := mk {
  id : string;
  status : JobStatus.t;
  priority : JobPriority.t;
  title : option string;
  description : option string;
  progress : Q;
  current_step : option string;
  total_steps : option nat;
  output_file : option string;
  output_format : option string;
  output_size : option nat;
  duration : option Q;
  error_message : option string;
  retry_count : nat;
  max_retries : nat;
  created_at : N;
  updated_at : N;
  started_at : option N;
  completed_at : option N;
  expires_at : option N;
  webhook_url : option string;
  webhook_sent : bool }.
End JobResponse.

(** ** Exceptions *)

Inductive Exception :=
| ValueError (msg : string)
| IndexError (msg : string)
| AttributeError (msg : string)
| TypeError (msg : string)
| IntegrityError (msg : string)
| LibraryError (msg : string)
| HTTPException (status_code : nat) (detail : string).

(** [str(e)] *)
Definition str (e : Exception) : string :=
  match e with
  | ValueError m | IndexError m | AttributeError m | TypeError m
  | IntegrityError m | LibraryError m => m
  | HTTPException c d => pretty c +:+ ": " +:+ d
  end.

Inductive Result (A : Type) :=
| Ok (a : A)
| Raise (e : Exception).
Arguments Ok {A} a.
Arguments Raise {A} e.

Definition is_ok {A} (r : Result A) : bool :=
  match r with Ok _ => true | Raise _ => false end.

(** ** Clips (moviepy objects)

    A clip is the expression that built it; [h] is the identity of the
    object handed out by [create_clip_from_scene]. *)

#[warnings="-register-all"] Inductive Clip :=
| ImageClip (h : nat) (path : string) (duration : Q)
| VideoFileClip (h : nat) (path : string) (duration fps : Q)
| subclip (c : Clip) (t_start t_end : Q)
| resize (c : Clip) (newsize : nat * nat)
| set_fps (c : Clip) (fps : Q)
| fadeout (c : Clip) (d : Q)
| fadein (c : Clip) (d : Q)
| set_start (c : Clip) (t : Q)
| set_duration (c : Clip) (d : Q)
| set_position_slide (c : Clip) (d : Q)
| concatenate_videoclips (compose : bool) (cs : list Clip)
| CompositeVideoClip (cs : list Clip).

(** ** The mutable world *)

Record World := mkWorld {
  db : gmap string Job.t;
  files : gmap string string;
  open_clips : list nat;
  next_handle : nat;
  progress_log : list (string * Q);
  clock : N;
  rng : nat }.

Definition with_db (f : gmap string Job.t → gmap string Job.t) (w : World) : World :=
  mkWorld (f (db w)) (files w) (open_clips w) (next_handle w) (progress_log w)
          (clock w) (rng w).
Definition with_files (f : gmap string string → gmap string string) (w : World) : World :=
  mkWorld (db w) (f (files w)) (open_clips w) (next_handle w) (progress_log w)
          (clock w) (rng w).
Definition with_open_clips (f : list nat → list nat) (w : World) : World :=
  mkWorld (db w) (files w) (f (open_clips w)) (next_handle w) (progress_log w)
          (clock w) (rng w).
Definition with_next_handle (f : nat → nat) (w : World) : World :=
  mkWorld (db w) (files w) (open_clips w) (f (next_handle w)) (progress_log w)
          (clock w) (rng w).
Definition with_progress_log (f : list (string * Q) → list (string * Q)) (w : World) : World :=
  mkWorld (db w) (files w) (open_clips w) (next_handle w) (f (progress_log w))
          (clock w) (rng w).
Definition with_rng (f : nat → nat) (w : World) : World :=
  mkWorld (db w) (files w) (open_clips w) (next_handle w) (progress_log w)
          (clock w) (f (rng w)).

(** ** The state-and-exception monad *)

Definition M (A : Type) : Type := World → Result A * World.

Definition ret {A} (a : A) : M A := λ w, (Ok a, w).
Definition raise {A} (e : Exception) : M A := λ w, (Raise e, w).
Definition bind {A B} (m : M A) (k : A → M B) : M B :=
  λ w, match m w with
       | (Ok a, w') => k a w'
       | (Raise e, w') => (Raise e, w')
       end.
(** [try: m except Exception as e: h e]; effects of [m] before the raise
    stay. *)
Definition try_except {A} (m : M A) (h : Exception → M A) : M A :=
  λ w, match m w with
       | (Ok a, w') => (Ok a, w')
       | (Raise e, w') => h e w'
       end.
Definition lift {A} (r : Result A) : M A := λ w, (r, w).
Definition gets {A} (f : World → A) : M A := λ w, (Ok (f w), w).
Definition modify (f : World → World) : M unit := λ w, (Ok tt, f w).

Declare Scope py_scope.
Delimit Scope py_scope with py.
Notation "x <- c1 ;; c2" := (bind c1 (λ x, c2))
  (at level 100, c1 at next level, right associativity) : py_scope.
Notation "c1 ;; c2" := (bind c1 (λ _, c2))
  (at level 100, right associativity) : py_scope.
Open Scope py_scope.

(** [for i, x in enumerate(l, start): acc = body i x acc] *)
Fixpoint for_enumerate {A St} (body : nat → A → St → M St)
    (start : nat) (l : list A) (acc : St) : M St :=
  match l with
  | [] => ret acc
  | x :: l' => acc' <- body start x acc ;; for_enumerate body (S start) l' acc'
  end.

(** [for x in l: body x] *)
Fixpoint for_each {A} (body : A → M unit) (l : list A) : M unit :=
  match l with
  | [] => ret tt
  | x :: l' => body x ;; for_each body l'
  end.

(** [datetime.utcnow()] *)
Definition utcnow : M N := gets clock.

(** ** Third-party capabilities *)

Module HTTPResponse.
(** What [session.get(url)] delivers: the status line, the
    [content-type] header if present, the chunks that
    [iter_chunked] yields and, if the transfer breaks or times out
    after them, the exception raised then. *)
Record t := mk {
  status : nat;
  content_type : option string;
  chunks : list string;
  stream_error : option Exception }.
End HTTPResponse.

Module CodecSettings.
Record t := mk {
  codec : string;
  audio_codec : string;
  preset : option string }.
End CodecSettings.

Record Platform := mkPlatform {
  (** [urllib.parse.urlparse]: the [scheme] and [netloc] of the result *)
  urlparse : string → Result (string * string);
  (** [aiohttp]: the outcome of [session.get(url)] *)
  http_get : string → Result HTTPResponse.t;
  (** [hashlib.md5(s.encode()).hexdigest()] *)
  md5_hexdigest : string → string;
  (** [mimetypes.guess_extension] *)
  guess_extension : string → option string;
  (** [self.temp_dir], [settings.output_dir] *)
  temp_dir : string;
  output_dir : string;
  (** PIL [Image.open(path)] followed by [verify()], on the bytes at
      [path] if the model holds them *)
  image_verify : string → option string → Result unit;
  (** moviepy [VideoFileClip(path)]: duration and fps of the stream *)
  video_probe : string → option string → Result (Q * Q);
  (** moviepy [write_videofile] and [write_gif]: the encoded bytes *)
  write_videofile : Clip → nat → CodecSettings.t → Result string;
  write_gif : Clip → nat → string → Result string;
  (** [os.urandom(6).hex()] and [str(uuid.uuid4())], by draw number *)
  urandom_hex : nat → string;
  uuid4 : nat → string;
  (** the format specification [:.1f], and a [JobStatus] member inside an
      f-string *)
  format_1f : Q → string;
  format_status : JobStatus.t → string;
  (** the store's order on the column named by [sort_by]; [None] when
      [Job] has no such attribute *)
  column_le : string → option (Job.t → Job.t → bool);
  (** [a + b] on two floats, rounded as the machine rounds it *)
  float_add : Q → Q → Q }.

(** [pathlib]: [dir / name] *)
Definition path_join (dir name : string) : string := dir +:+ "/" +:+ name.

(** ** [services/job_service.py] *)

Module JobService.
Section WithPlatform.
Context (P : Platform).

Definition _to_job_response (job : Job.t) : JobResponse.t :=
  JobResponse.mk (Job.id job) (Job.status job) (Job.priority job)
    (Job.title job) (Job.description job) (Job.progress job)
    (Job.current_step job) (Job.total_steps job) (Job.output_file job)
    (Job.output_format job) (Job.output_size job) (Job.duration job)
    (Job.error_message job) (Job.retry_count job) (Job.max_retries job)
    (Job.created_at job) (Job.updated_at job) (Job.started_at job)
    (Job.completed_at job) (Job.expires_at job) (Job.webhook_url job)
    (Job.webhook_sent job).

(** [select(Job).where(Job.id == job_id, Job.api_key == api_key)] with
    [scalar_one_or_none()]; [id] is the primary key. *)
Definition select_job (job_id api_key : string) : M (option Job.t) :=
  gets (λ w, match db w !! job_id with
             | Some job => if decide (Job.api_key job = api_key)
                           then Some job else None
             | None => None
             end).

(** [db.add(job); await db.commit()] *)
Definition db_add (job : Job.t) : M unit :=
  λ w, match db w !! Job.id job with
       | Some _ => (Raise (IntegrityError "UNIQUE constraint failed: jobs.id"), w)
       | None => (Ok tt, with_db (insert (Job.id job) job) w)
       end.

(** the row of a loaded job written back by [await db.commit()] *)
Definition db_commit (job_id : string) (job : Job.t) : M unit :=
  modify (with_db (insert job_id job)).

(** [await db.delete(job); await db.commit()] *)
Definition db_delete (job_id : string) : M unit :=
  modify (with_db (delete job_id)).

Definition new_uuid : M string :=
  n <- gets rng ;; modify (with_rng S) ;; ret (uuid4 P n).

Definition seven_days : N := 7 * 24 * 60 * 60.

(** [json.dumps(composition_config)] on the [dict()] of the request:
    every field serialises but [webhook_url], which, when given, is a
    pydantic [Url] object and makes [json.dumps] raise.  The stored
    column keeps the request as it is. *)
Definition json_dumps (composition_config : VideoCompositionRequest.t)
    : Result VideoCompositionRequest.t :=
  match VideoCompositionRequest.webhook_url composition_config with
  | Some _ => Raise (TypeError "Object of type Url is not JSON serializable")
  | None => Ok composition_config
  end.

(** The arguments of [Job(...)] are evaluated in order, [json.dumps]
    before the clock is read; [created_at] and [expires_at] come from
    two readings of the clock; [updated_at] has the server default
    [now()]; [max_retries] and [webhook_sent] have their column
    defaults. *)
Definition create_job (api_key : string) (title description : option string)
    (composition_config : VideoCompositionRequest.t)
    (priority : JobPriority.t) (webhook_url : option string) : M JobResponse.t :=
  composition_config <- lift (json_dumps composition_config) ;;
  created <- utcnow ;;
  now <- utcnow ;;
  new_id <- new_uuid ;;
  let job :=
    Job.mk new_id api_key JobStatus.PENDING priority composition_config
      (Some (match title with
             | Some s => if decide (s = "") then "Untitled Composition" else s
             | None => "Untitled Composition"
             end))
      description 0%Q None None None None None None None 0 3 webhook_url false
      created created None None (Some (now + seven_days)%N) in
  db_add job ;;
  ret (_to_job_response job).

Definition get_job (job_id api_key : string) : M (option JobResponse.t) :=
  job <- select_job job_id api_key ;;
  ret (_to_job_response <$> job).

Definition list_jobs (api_key : string) (query : JobListQuery.t)
    : M (list JobResponse.t) :=
  rows <- gets (λ w, (map_to_list (db w)).*2) ;;
  let stmt := filter (λ job, Job.api_key job = api_key) rows in
  let stmt := match JobListQuery.status query with
              | Some s => filter (λ job, Job.status job = s) stmt
              | None => stmt
              end in
  let stmt := match JobListQuery.priority query with
              | Some p => filter (λ job, Job.priority job = p) stmt
              | None => stmt
              end in
  le <- lift (match column_le P (JobListQuery.sort_by query) with
              | Some le => Ok le
              | None => Raise (AttributeError (JobListQuery.sort_by query))
              end) ;;
  let stmt := if decide (JobListQuery.sort_order query = "asc")
              then merge_sort (λ a b, Is_true (le a b)) stmt
              else merge_sort (λ a b, Is_true (le b a)) stmt in
  let jobs := take (JobListQuery.per_page query)
                (drop ((JobListQuery.page query - 1) * JobListQuery.per_page query)
                   stmt) in
  ret (_to_job_response <$> jobs).

(** The [except] clause answers [False] to any exception of the store;
    the store modelled here raises none. *)
Definition update_job_status (job_id api_key : string) (status : JobStatus.t)
    : M bool :=
  try_except
    (job <- select_job job_id api_key ;;
     match job with
     | None => ret false
     | Some job =>
         now <- utcnow ;;
         let job := Job.set_updated_at now (Job.set_status status job) in
         job <- (if decide (status ∈ [JobStatus.COMPLETED; JobStatus.FAILED;
                                      JobStatus.CANCELLED])
                 then now <- utcnow ;; ret (Job.set_completed_at now job)
                 else ret job) ;;
         db_commit job_id job ;;
         ret true
     end)
    (λ e, ret false).

Definition delete_job (job_id api_key : string) : M bool :=
  try_except
    (job <- select_job job_id api_key ;;
     match job with
     | None => ret false
     | Some job => db_delete job_id ;; ret true
     end)
    (λ e, ret false).

(** [Job.expires_at < datetime.utcnow()] as the store evaluates it: a row
    without expiry time is not selected. *)
Definition expired (now : N) (job : Job.t) : bool :=
  match Job.expires_at job with
  | Some t => (t <? now)%N
  | None => false
  end.

(** Every selected row is deleted inside its own [try]; one [commit]
    ends the sweep. *)
Definition cleanup_expired_jobs : M unit :=
  now <- utcnow ;;
  expired_jobs <- gets (λ w, filter (λ row, expired now row.2 = true)
                               (map_to_list (db w))) ;;
  for_each (λ row, try_except (modify (with_db (delete row.1))) (λ e, ret tt))
    expired_jobs.

End WithPlatform.
End JobService.

(** ** moviepy attributes of a clip

    [clip_times c] is [(c.start, c.duration)]: effects keep both,
    [subclip] and [set_duration] fix the duration, [set_start] moves the
    start, a concatenation lasts the sum of its parts and a composite
    clip lasts until the latest [end] of its layers. *)

Definition clip_end_of (sd : Q * Q) : Q := (sd.1 + sd.2)%Q.

Definition max_of (l : list Q) : Q :=
  match l with
  | [] => 0%Q
  | x :: l' => fold_left Qmax l' x
  end.

Definition sum_of (l : list Q) : Q := fold_left Qplus l 0%Q.

Fixpoint clip_times (c : Clip) : Q * Q :=
  match c with
  | ImageClip _ _ d => (0%Q, d)
  | VideoFileClip _ _ d _ => (0%Q, d)
  | subclip c t_start t_end => ((clip_times c).1, (t_end - t_start)%Q)
  | resize c _ | set_fps c _ | fadeout c _ | fadein c _
  | set_position_slide c _ => clip_times c
  | set_start c t => (t, (clip_times c).2)
  | set_duration c d => ((clip_times c).1, d)
  | concatenate_videoclips _ cs =>
      (0%Q, sum_of (List.map (λ c, (clip_times c).2) cs))
  | CompositeVideoClip cs =>
      (0%Q, max_of (List.map (λ c, clip_end_of (clip_times c)) cs))
  end.

Definition clip_start (c : Clip) : Q := (clip_times c).1.
Definition clip_duration (c : Clip) : Q := (clip_times c).2.
Definition clip_end (c : Clip) : Q := clip_end_of (clip_times c).

(** The object that [close()] releases: effects return copies that share
    the reader of their source; concatenations and composites own none
    of their parts. *)
Fixpoint root_handle (c : Clip) : option nat :=
  match c with
  | ImageClip h _ _ | VideoFileClip h _ _ _ => Some h
  | subclip c _ _ | resize c _ | set_fps c _ | fadeout c _ | fadein c _
  | set_start c _ | set_duration c _ | set_position_slide c _ => root_handle c
  | concatenate_videoclips _ _ | CompositeVideoClip _ => None
  end.

(** [clip.close()] *)
Definition close (c : Clip) : M unit :=
  match root_handle c with
  | Some h => modify (with_open_clips (filter (λ h', h' ≠ h)))
  | None => ret tt
  end.

(** A clip object comes to life: it gets the next handle and is open. *)
Definition new_clip_handle : M nat :=
  h <- gets next_handle ;;
  modify (with_next_handle S) ;;
  modify (with_open_clips (λ l, (l ++ [h])%list)) ;;
  ret h.

(** [for i, x in enumerate(l, start)] over a body without side effects *)
Fixpoint fold_enumerate {A St} (body : nat → A → St → Result St)
    (start : nat) (l : list A) (acc : St) : Result St :=
  match l with
  | [] => Ok acc
  | x :: l' =>
      match body start x acc with
      | Ok acc' => fold_enumerate body (S start) l' acc'
      | Raise e => Raise e
      end
  end.

(** ** [services/video_service.py] *)

Definition Qnat (n : nat) : Q := inject_Z (Z.of_nat n).

Module VideoCompositionService.
Section WithPlatform.
Context (P : Platform).

(** [QUALITY_RESOLUTIONS.get(quality, (1920, 1080))]: every member of
    [VideoQuality] is a key. *)
Definition QUALITY_RESOLUTIONS (quality : VideoQuality.t) : nat * nat :=
  match quality with
  | VideoQuality.SD => (640, 480)
  | VideoQuality.HD => (1280, 720)
  | VideoQuality.FHD => (1920, 1080)
  | VideoQuality.QHD => (2560, 1440)
  | VideoQuality.UHD => (3840, 2160)
  | VideoQuality.LOW => (640, 480)
  | VideoQuality.MEDIUM => (1280, 720)
  | VideoQuality.HIGH => (1920, 1080)
  | VideoQuality.ULTRA => (3840, 2160)
  end.

(** [aiofiles.open(path, 'wb')] and [f.write(chunk)] *)
Definition open_wb (path : string) : M unit :=
  modify (with_files (insert path "")).
Definition write (path chunk : string) : M unit :=
  modify (with_files (λ fs, <[path := default "" (fs !! path) +:+ chunk]> fs)).

(** The [ValueError] for a status other than 200 is raised inside the
    [try] and so wrapped once more by the [except] clause, like every
    other exception of the request or of the transfer. *)
Definition download_media_from_url (url : string) : M string :=
  try_except
    (response <- lift (http_get P url) ;;
     if decide (HTTPResponse.status response ≠ 200)
     then raise (ValueError ("Failed to download from " +:+ url +:+ ": HTTP "
                             +:+ pretty (HTTPResponse.status response)))
     else
       let content_type := default "" (HTTPResponse.content_type response) in
       let extension := match guess_extension P content_type with
                        | Some ext => if decide (ext = "") then ".tmp" else ext
                        | None => ".tmp"
                        end in
       let url_hash := String.substring 0 8 (md5_hexdigest P url) in
       let temp_file :=
         path_join (temp_dir P) ("download_" +:+ url_hash +:+ extension) in
       open_wb temp_file ;;
       for_each (write temp_file) (HTTPResponse.chunks response) ;;
       match HTTPResponse.stream_error response with
       | Some e => raise e
       | None => ret temp_file
       end)
    (λ e, raise (ValueError ("Failed to download media from " +:+ url +:+ ": "
                             +:+ str e))).

(** [all([result.scheme, result.netloc])], [False] on any exception *)
Definition is_url (source : string) : bool :=
  match urlparse P source with
  | Ok (scheme, netloc) =>
      negb (bool_decide (scheme = "")) && negb (bool_decide (netloc = ""))
  | Raise _ => false
  end.

(** A source that is no URL is returned as a path, as it is. *)
Definition get_media_path (source : string) : M string :=
  if is_url source then download_media_from_url source
  else ret source.

(** The image branch: [Image.open], [verify], [ImageClip], [resize],
    [set_fps]. *)
Definition load_image (media_path : string) (duration : Q)
    (target_resolution : nat * nat) (target_fps : nat) : M Clip :=
  content <- gets (λ w, files w !! media_path) ;;
  lift (image_verify P media_path content) ;;
  h <- new_clip_handle ;;
  let clip := ImageClip h media_path duration in
  let clip := resize clip target_resolution in
  ret (set_fps clip (Qnat target_fps)).

(** The video branch: [VideoFileClip], [subclip], [resize] and, when the
    rates differ, [set_fps]; [subclip] and [resize] keep [fps]. *)
Definition load_video (media_path : string) (duration : Q)
    (target_resolution : nat * nat) (target_fps : nat) : M Clip :=
  content <- gets (λ w, files w !! media_path) ;;
  probe <- lift (video_probe P media_path content) ;;
  h <- new_clip_handle ;;
  let clip := VideoFileClip h media_path probe.1 probe.2 in
  let clip := subclip clip 0 (Qmin duration (clip_duration clip)) in
  let clip := resize clip target_resolution in
  ret (if Qeq_bool probe.2 (Qnat target_fps) then clip
       else set_fps clip (Qnat target_fps)).

(** The final [else] of the source (unsupported media type) has no
    member of [MediaType] left to reach it. *)
Definition create_clip_from_scene (scene_name : string)
    (scene_data : SceneData.t) (target_resolution : nat * nat)
    (target_fps : nat) : M Clip :=
  media_path <- get_media_path (SceneData.source scene_data) ;;
  try_except
    (match SceneData.media_type scene_data with
     | MediaType.IMAGE | MediaType.IMAGE_VIDEO =>
         try_except
           (load_image media_path (SceneData.duration scene_data)
              target_resolution target_fps)
           (λ e, if decide (SceneData.media_type scene_data = MediaType.IMAGE_VIDEO)
                 then load_video media_path (SceneData.duration scene_data)
                        target_resolution target_fps
                 else raise e)
     | MediaType.VIDEO =>
         load_video media_path (SceneData.duration scene_data)
           target_resolution target_fps
     end)
    (λ e, raise (ValueError ("Failed to create clip from " +:+ scene_name
                             +:+ ": " +:+ str e))).

(** The value of the local [duration] after the guard of the crossfade
    branch. *)
Definition crossfade_duration (clip1 clip2 : Clip) (duration : Q) : Q :=
  if Qlt_le_dec (Qmin (clip_duration clip1) (clip_duration clip2)) duration
  then (Qmin (clip_duration clip1) (clip_duration clip2) * (1 # 2))%Q
  else duration.

Definition apply_transition (clip1 clip2 : Clip)
    (transition : TransitionType.t) (duration : Q) : Clip :=
  match transition with
  | TransitionType.NONE => concatenate_videoclips false [clip1; clip2]
  | TransitionType.FADE =>
      let clip1_faded := fadeout clip1 duration in
      let clip2_faded := fadein clip2 duration in
      concatenate_videoclips false [clip1_faded; clip2_faded]
  | TransitionType.CROSSFADE =>
      let duration := crossfade_duration clip1 clip2 duration in
      let clip1_fade := fadeout clip1 duration in
      let clip2_fade :=
        set_start (fadein clip2 duration) (clip_duration clip1 - duration)%Q in
      CompositeVideoClip [clip1_fade; clip2_fade]
  | TransitionType.SLIDE_LEFT =>
      let clip2_slide := set_position_slide clip2 duration in
      let clip2_positioned :=
        set_duration (set_start clip2_slide (clip_duration clip1)) duration in
      set_duration (CompositeVideoClip [clip1; clip2_positioned])
        (clip_duration clip1 + duration)%Q
  | _ => concatenate_videoclips false [clip1; clip2]
  end.

(** The body of the loop "Apply transitions between clips". *)
Definition transition_step (i : nat) (item : Clip * TransitionType.t)
    (final_clips : list Clip) : Result (list Clip) :=
  let '(clip, transition) := item in
  if decide (i = 0) then Ok (final_clips ++ [clip])%list
  else
    match last final_clips with
    | None => Raise (IndexError "list index out of range")
    | Some prev_clip =>
        if decide (transition ≠ TransitionType.NONE)
        then
          let transitioned :=
            apply_transition prev_clip clip transition (1 # 2) in
          Ok (<[length final_clips - 1 := transitioned]> final_clips)
        else Ok (final_clips ++ [clip])%list
    end.

Definition apply_transitions (clips : list (Clip * TransitionType.t))
    : Result (list Clip) :=
  fold_enumerate transition_step 0 clips [].

(** [progress_callback], when given *)
Definition report (progress_callback : option (string → Q → M unit))
    (message : string) (progress : Q) : M unit :=
  match progress_callback with
  | Some callback => callback message progress
  | None => ret tt
  end.

(** The body of the loop "Create clips for each scene". *)
Definition scene_step (progress_callback : option (string → Q → M unit))
    (n : nat) (target_resolution : nat * nat) (fps : nat)
    (i : nat) (item : string * SceneData.t)
    (clips : list (Clip * TransitionType.t))
    : M (list (Clip * TransitionType.t)) :=
  let '(scene_name, scene_data) := item in
  report progress_callback ("Processing scene: " +:+ scene_name)
    (10 + (Qnat i / Qnat n) * 50)%Q ;;
  clip <- create_clip_from_scene scene_name scene_data target_resolution fps ;;
  ret (clips ++ [(clip, SceneData.transition scene_data)])%list.

(** [codec_settings.get(output_format, codec_settings[MP4])] for the
    formats written by [write_videofile] *)
Definition codec_settings (output_format : VideoFormat.t) : CodecSettings.t :=
  match output_format with
  | VideoFormat.WEBM => CodecSettings.mk "libvpx-vp9" "libvorbis" None
  | VideoFormat.AVI => CodecSettings.mk "libxvid" "mp3" None
  | VideoFormat.MOV => CodecSettings.mk "libx264" "aac" None
  | _ => CodecSettings.mk "libx264" "aac" (Some "medium")
  end.

Definition random_hex : M string :=
  n <- gets rng ;; modify (with_rng S) ;; ret (urandom_hex P n).

(** The [try] body of [compose_video], statement by statement.  The
    branch on [background_color] has an empty body and is left out;
    [concatenate_videoclips] of an empty list raises inside moviepy; the
    output file holds what the encoder returns. *)
Definition compose_video (scenes : list (string * SceneData.t))
    (output_format : VideoFormat.t) (quality : VideoQuality.t) (fps : nat)
    (composition_settings : CompositionSettings.t)
    (progress_callback : option (string → Q → M unit)) : M string :=
  try_except
    (let target_resolution := QUALITY_RESOLUTIONS quality in
     report progress_callback "Creating clips from scenes" 10 ;;
     let scene_items := scenes in
     clips <- for_enumerate
                (scene_step progress_callback (length scene_items)
                   target_resolution fps) 0 scene_items [] ;;
     report progress_callback "Applying transitions" 70 ;;
     final_clips <- lift (apply_transitions clips) ;;
     report progress_callback "Concatenating video" 80 ;;
     final_video <-
       match final_clips with
       | [final_video] => ret final_video
       | [] => raise (ValueError "max() arg is an empty sequence")
       | _ => ret (concatenate_videoclips true final_clips)
       end ;;
     report progress_callback "Rendering final video" 90 ;;
     hex <- random_hex ;;
     let output_filename :=
       "composition_" +:+ hex +:+ "." +:+ VideoFormat.value output_format in
     let output_path := path_join (output_dir P) output_filename in
     encoded <-
       lift (if decide (output_format = VideoFormat.GIF)
             then write_gif P final_video (Nat.min fps 15) "ffmpeg"
             else write_videofile P final_video fps
                    (codec_settings output_format)) ;;
     modify (with_files (insert output_path encoded)) ;;
     report progress_callback "Video composition complete" 100 ;;
     for_each (λ item, close item.1) clips ;;
     close final_video ;;
     ret output_path)
    (λ e, raise (ValueError ("Video composition failed: " +:+ str e))).

End WithPlatform.
End VideoCompositionService.

(** ** [VideoCompositionRequest.validate_scenes] and [get_total_duration] *)

Definition validate_scenes (v : list (string * SceneData.t))
    : Result (list (string * SceneData.t)) :=
  match v with
  | [] => Raise (ValueError "At least one scene is required")
  | _ => Ok v
  end.

(** [sum(scene.duration for scene in self.scenes.values())]: the
    durations are added to 0 one after the other, in floating point. *)
Definition get_total_duration (P : Platform) (r : VideoCompositionRequest.t)
    : Q :=
  fold_left (float_add P)
    (List.map (λ scene, SceneData.duration scene.2)
       (VideoCompositionRequest.scenes r)) 0%Q.

(** ** [api/endpoints/jobs.py] *)

Module JobSubmissionResponse.
Record t := mk { success : bool; job : JobResponse.t; message : string }.
End JobSubmissionResponse.

Module ProcessReply.
Record t := mk { success : bool; message : string; output_file : string }.
End ProcessReply.

Module DownloadReply.
Record t := mk {
  download_url : string;
  filename : string;
  size : option nat;
  format : option string }.
End DownloadReply.

(** [JobListResponse]; the [message] and [timestamp] of [BaseResponse]
    are left out. *)
Module JobListResponse.
Record t := mk {
  success : bool;
  jobs : list JobResponse.t;
  total : nat;
  page : nat;
  per_page : nat }.
End JobListResponse.

(** A request to one of the job endpoints. *)
Inductive Call :=
| Compose (composition_request : VideoCompositionRequest.t) (api_key : string)
| GetJobStatus (job_id api_key : string)
| ListJobs (query : JobListQuery.t) (api_key : string)
| DeleteJob (job_id api_key : string)
| DownloadJobResult (job_id api_key : string)
| ProcessJob (job_id api_key : string).

Module Endpoints.
Section WithPlatform.
Context (P : Platform).

Definition submit_composition_job
    (composition_request : VideoCompositionRequest.t) (api_key : string)
    : M JobSubmissionResponse.t :=
  match VideoCompositionRequest.scenes composition_request with
  | [] => raise (HTTPException 400 "At least one scene is required")
  | _ =>
      let scene_names := (VideoCompositionRequest.scenes composition_request).*1 in
      let title := "Composition: " +:+ String.concat ", " (take 3 scene_names) in
      let title := if decide (3 < length scene_names)
                   then title +:+ " and " +:+ pretty (length scene_names - 3)
                        +:+ " more scenes"
                   else title in
      let total_duration := get_total_duration P composition_request in
      let description :=
        "Video composition with "
        +:+ pretty (length (VideoCompositionRequest.scenes composition_request))
        +:+ " scenes, total duration: " +:+ format_1f P total_duration +:+ "s" in
      job <- JobService.create_job P api_key (Some title) (Some description)
               composition_request
               (VideoCompositionRequest.priority composition_request)
               (VideoCompositionRequest.webhook_url composition_request) ;;
      ret (JobSubmissionResponse.mk true job
             ("Video composition job submitted successfully. Total duration: "
              +:+ format_1f P total_duration +:+ "s"))
  end.

Definition get_job_status (job_id api_key : string) : M JobResponse.t :=
  job <- JobService.get_job job_id api_key ;;
  match job with
  | None => raise (HTTPException 404 "Job not found")
  | Some job => ret job
  end.

Definition list_jobs (query : JobListQuery.t) (api_key : string)
    : M (list JobResponse.t) :=
  JobService.list_jobs P api_key query.

(** The whole answer of the endpoint [list_jobs]: [total] is the length
    of the page ("TODO: Get total count for pagination"). *)
Definition list_jobs_response (query : JobListQuery.t) (api_key : string)
    : M JobListResponse.t :=
  jobs <- JobService.list_jobs P api_key query ;;
  let total := length jobs in
  ret (JobListResponse.mk true jobs total (JobListQuery.page query)
         (JobListQuery.per_page query)).

Definition delete_job (job_id api_key : string) : M unit :=
  success <- JobService.delete_job job_id api_key ;;
  if success then ret tt else raise (HTTPException 404 "Job not found").

Definition not_pending_detail (status : JobStatus.t) : string :=
  "Job cannot be processed. Current status: " +:+ format_status P status.

(** [job.composition_config] on the [JobResponse] that [get_job]
    returned: the class declares no such field, so the attribute access
    raises, whatever the job. *)
Definition composition_config_of (job : JobResponse.t)
    : Result VideoCompositionRequest.t :=
  Raise (AttributeError
           "'JobResponse' object has no attribute 'composition_config'").

(** The statements of [process_job] after the first status update, up to
    the [return]. *)
Definition process_job_render (job_id api_key : string) (job : JobResponse.t)
    : M ProcessReply.t :=
  composition_config <- lift (composition_config_of job) ;;
  let progress_callback : string → Q → M unit := λ message progress, ret tt in
  output_path <-
    VideoCompositionService.compose_video P
      (VideoCompositionRequest.scenes composition_config)
      (VideoCompositionRequest.output_format composition_config)
      (VideoCompositionRequest.quality composition_config)
      (VideoCompositionRequest.fps composition_config)
      (VideoCompositionRequest.composition_settings composition_config)
      (Some progress_callback) ;;
  JobService.update_job_status job_id api_key JobStatus.COMPLETED ;;
  ret (ProcessReply.mk true "Job processed successfully" output_path).

(** The [except Exception as e] clause of [process_job]. *)
Definition process_job_failed (job_id api_key : string) (e : Exception)
    : M ProcessReply.t :=
  JobService.update_job_status job_id api_key JobStatus.FAILED ;;
  raise (HTTPException 500 ("Job processing failed: " +:+ str e)).

Definition process_job (job_id api_key : string) : M ProcessReply.t :=
  job <- JobService.get_job job_id api_key ;;
  match job with
  | None => raise (HTTPException 404 "Job not found")
  | Some job =>
      if decide (JobResponse.status job ≠ JobStatus.PENDING)
      then raise (HTTPException 400 (not_pending_detail (JobResponse.status job)))
      else
        try_except
          (JobService.update_job_status job_id api_key JobStatus.PROCESSING ;;
           process_job_render job_id api_key job)
          (process_job_failed job_id api_key)
  end.

(** The opening of [process_job] on its own: the lookup, the two guards
    and the first status update, after which rendering starts. *)
Definition process_job_begin (job_id api_key : string) : M JobResponse.t :=
  job <- JobService.get_job job_id api_key ;;
  match job with
  | None => raise (HTTPException 404 "Job not found")
  | Some job =>
      if decide (JobResponse.status job ≠ JobStatus.PENDING)
      then raise (HTTPException 400 (not_pending_detail (JobResponse.status job)))
      else
        JobService.update_job_status job_id api_key JobStatus.PROCESSING ;;
        ret job
  end.

Definition download_job_result (job_id api_key : string) : M DownloadReply.t :=
  job <- JobService.get_job job_id api_key ;;
  match job with
  | None => raise (HTTPException 404 "Job not found")
  | Some job =>
      if decide (JobResponse.status job ≠ JobStatus.COMPLETED)
      then raise (HTTPException 400
                    ("Job is not completed. Current status: "
                     +:+ format_status P (JobResponse.status job)))
      else
        match JobResponse.output_file job with
        | Some output_file =>
            if decide (output_file = "")
            then raise (HTTPException 404 "Job output file not found")
            else ret (DownloadReply.mk
                        ("/files/download/" +:+ output_file)
                        ("composition_" +:+ job_id +:+ "."
                         +:+ default "None" (JobResponse.output_format job))
                        (JobResponse.output_size job)
                        (JobResponse.output_format job))
        | None => raise (HTTPException 404 "Job output file not found")
        end
  end.

(** The world that a request leaves behind, whatever it answers. *)
Definition world_after (c : Call) (w : World) : World :=
  match c with
  | Compose composition_request api_key =>
      (submit_composition_job composition_request api_key w).2
  | GetJobStatus job_id api_key => (get_job_status job_id api_key w).2
  | ListJobs query api_key => (list_jobs query api_key w).2
  | DeleteJob job_id api_key => (delete_job job_id api_key w).2
  | DownloadJobResult job_id api_key => (download_job_result job_id api_key w).2
  | ProcessJob job_id api_key => (process_job job_id api_key w).2
  end.

End WithPlatform.
End Endpoints.

(** ** [services/auth.py]

    The counters live in Redis: a key holds an integer and, once [EXPIRE]
    has been called on it, the time at which it vanishes.  A connection
    that is absent or down makes every command raise. *)

Module Redis.
Definition t := gmap string (Z * option Z).

(** [GET key] at time [now] *)
Definition get (now : Z) (key : string) (r : t) : option Z :=
  match r !! key with
  | Some (v, Some deadline) => if (now <? deadline)%Z then Some v else None
  | Some (v, None) => Some v
  | None => None
  end.

(** [INCR key]: a missing or expired key counts from 0 and has no
    deadline; a live key keeps its deadline. *)
Definition incr (now : Z) (key : string) (r : t) : t :=
  match r !! key with
  | Some (v, Some deadline) =>
      if (now <? deadline)%Z then <[key := ((v + 1)%Z, Some deadline)]> r
      else <[key := (1%Z, None)]> r
  | Some (v, None) => <[key := ((v + 1)%Z, None)]> r
  | None => <[key := (1%Z, None)]> r
  end.

(** [EXPIRE key seconds]: a timeout that is not positive deletes the
    key. *)
Definition expire (now : Z) (key : string) (seconds : Z) (r : t) : t :=
  match get now key r with
  | Some v =>
      if (0 <? seconds)%Z then <[key := (v, Some (now + seconds)%Z)]> r
      else delete key r
  | None => r
  end.
End Redis.

Module Settings.
Record t := mk {
  api_keys : list string;
  rate_limit_requests : Z;
  rate_limit_window : Z }.
End Settings.

Module RateLimitInfo.
Record t := mk {
  requests_remaining : Z;
  requests_limit : Z;
  window_reset_time : Z;
  window_duration : Z }.
End RateLimitInfo.

Module Auth.

(** What the two dependencies raise: [HTTPException] with its headers,
    and the division by a window of zero seconds. *)
Inductive Error :=
| ZeroDivisionError
| HTTPError (status_code : nat) (detail : string)
    (headers : list (string * string)).

Section WithSettings.
Context (settings : Settings.t).

(** [AuthService.validate_api_key] *)
Definition validate_api_key (api_key : string) : bool :=
  bool_decide (api_key ∈ Settings.api_keys settings).

Definition rate_limit_key (api_key : string) (window_start : Z) : string :=
  "rate_limit:" +:+ api_key +:+ ":" +:+ pretty window_start.

(** [AuthService.check_rate_limit] at time [now], the value of both
    [int(time.time())] and [datetime.utcnow()]; [redis] is [None] when
    the connection is absent or down.  The division comes before the
    [try]. *)
Definition service_check_rate_limit (now : Z) (api_key : string)
    (redis : option Redis.t)
    : Error + (bool * RateLimitInfo.t * option Redis.t) :=
  let limit := Settings.rate_limit_requests settings in
  let window := Settings.rate_limit_window settings in
  if decide (window = 0%Z) then inl ZeroDivisionError
  else
    let window_start := (now / window)%Z in
    let key := rate_limit_key api_key window_start in
    match redis with
    | Some r =>
        let current_count := default 0%Z (Redis.get now key r) in
        let reset_time := ((window_start + 1) * window)%Z in
        let rate_limit_info :=
          RateLimitInfo.mk (Z.max 0 (limit - current_count)) limit reset_time
            window in
        if decide (limit ≤ current_count)%Z
        then inr (false, rate_limit_info, Some r)
        else
          let r := Redis.expire now key window (Redis.incr now key r) in
          inr (true,
               RateLimitInfo.mk
                 (RateLimitInfo.requests_remaining rate_limit_info - 1)%Z
                 limit reset_time window,
               Some r)
    | None =>
        inr (true, RateLimitInfo.mk limit limit (now + window)%Z window, None)
    end.

Definition unauthorized (detail : string) : Error :=
  HTTPError 401 detail [("WWW-Authenticate", "Bearer")].

(** [auth_header[7:]] *)
Definition after_bearer (auth_header : string) : string :=
  String.substring 7 (String.length auth_header - 7) auth_header.

(** The dependency [get_api_key] on the [authorization] header of the
    request. *)
Definition get_api_key (authorization : option string) : Error + string :=
  match authorization with
  | None => inl (unauthorized "Missing authorization header")
  | Some auth_header =>
      if decide (auth_header = "")
      then inl (unauthorized "Missing authorization header")
      else if negb (String.prefix "Bearer " auth_header)
      then inl (unauthorized "Invalid authorization header format")
      else
        let api_key := after_bearer auth_header in
        if decide (api_key = "") then inl (unauthorized "Missing API key")
        else if negb (validate_api_key api_key)
        then inl (unauthorized "Invalid API key")
        else inr api_key
  end.

(** The dependency [check_rate_limit]: [api_key] is the optional
    argument, [redis] is [request.app.state.redis]. *)
Definition check_rate_limit (now : Z) (authorization : option string)
    (api_key : option string) (redis : option Redis.t)
    : Error + (RateLimitInfo.t * option Redis.t) :=
  let resolved :=
    match api_key with
    | Some k => if decide (k = "") then get_api_key authorization else inr k
    | None => get_api_key authorization
    end in
  match resolved with
  | inl e => inl e
  | inr api_key =>
      match service_check_rate_limit now api_key redis with
      | inl e => inl e
      | inr (is_allowed, rate_limit_info, redis) =>
          if is_allowed then inr (rate_limit_info, redis)
          else
            inl (HTTPError 429 "Rate limit exceeded"
                   [("X-RateLimit-Limit",
                     pretty (RateLimitInfo.requests_limit rate_limit_info));
                    ("X-RateLimit-Remaining",
                     pretty (RateLimitInfo.requests_remaining rate_limit_info));
                    ("X-RateLimit-Reset",
                     pretty (RateLimitInfo.window_reset_time rate_limit_info));
                    ("Retry-After",
                     pretty (RateLimitInfo.window_duration rate_limit_info))])
      end
  end.

End WithSettings.
End Auth.

(** ** Vocabulary of the statements *)

(** The row [job] is stored under [job_id] and belongs to [api_key]. *)
Definition owned_by (w : World) (job_id api_key : string) (job : Job.t) : Prop :=
  db w !! job_id = Some job ∧ Job.api_key job = api_key.

(** What [update_job_status] leaves in the row. *)
Definition status_written (status : JobStatus.t) (now : N) (job : Job.t) : Job.t :=
  let job := Job.set_updated_at now (Job.set_status status job) in
  if decide (status ∈ [JobStatus.COMPLETED; JobStatus.FAILED; JobStatus.CANCELLED])
  then Job.set_completed_at now job else job.

(** Whatever [m] returns or raises, the world it leaves is related by
    [R] to the world it started in. *)
Definition preserves {A} (R : relation World) (m : M A) : Prop :=
  ∀ w, R w (m w).2.

(** Same job table, same clock and same record of progress calls; same
    row under the key [k]. *)
Definition same_store : relation World :=
  λ w w', db w' = db w ∧ clock w' = clock w ∧ progress_log w' = progress_log w.
Definition same_row (k : string) : relation World :=
  λ w w', db w' !! k = db w !! k.

(** No clip object is created or closed between [w] and [w']. *)
Definition same_clips : relation World :=
  λ w w', next_handle w' = next_handle w ∧ open_clips w' = open_clips w.

(** Between [w] and [w'] clip objects are created and none is closed:
    every handle given out since [w] is still open at [w']. *)
Definition only_opens : relation World :=
  λ w w', (next_handle w ≤ next_handle w')%nat ∧
          open_clips w' =
            open_clips w ++ seq (next_handle w) (next_handle w' - next_handle w).

(** The scratch file that a download of [url] answered by [response]
    goes to, and the bytes of the body in the order received. *)
Definition scratch_file (P : Platform) (url : string) (response : HTTPResponse.t)
    : string :=
  path_join (temp_dir P)
    ("download_" +:+ String.substring 0 8 (md5_hexdigest P url)
     +:+ match guess_extension P (default "" (HTTPResponse.content_type response)) with
         | Some ext => if decide (ext = "") then ".tmp" else ext
         | None => ".tmp"
         end).
Definition body_of (response : HTTPResponse.t) : string :=
  fold_left String.append (HTTPResponse.chunks response) "".

(** A progress callback that records, in order, what it is given. *)
Definition record_progress (message : string) (progress : Q) : M unit :=
  modify (with_progress_log (λ l, (l ++ [(message, progress)])%list)).

(** A progress callback that records the call and hands it on to
    [inner]. *)
Definition recording (inner : string → Q → M unit) : string → Q → M unit :=
  λ message progress,
    record_progress message progress ;; inner message progress.

(** The progress value reported before scene [i] of [n]. *)
Definition scene_progress (n i : nat) : Q := (10 + (Qnat i / Qnat n) * 50)%Q.

(** Between [w] and [w'] the progress callback was called with values
    below [bound] only. *)
Definition reports_below (bound : Q) : relation World :=
  λ w w', ∃ l, progress_log w' = (progress_log w ++ l)%list ∧
               Forall (λ entry : string * Q, (entry.2 < bound)%Q) l.

(** The answers to successive rate-limit checks of one key at the times
    [times], each on the Redis state that the one before left. *)
Fixpoint successive_checks (settings : Settings.t) (times : list Z)
    (api_key : string) (redis : Redis.t) : list bool :=
  match times with
  | [] => []
  | now :: times =>
      match Auth.service_check_rate_limit settings now api_key (Some redis) with
      | inr (is_allowed, _, Some redis) =>
          is_allowed :: successive_checks settings times api_key redis
      | _ => []
      end
  end.

(** ** Concrete collaborators and inputs used by the examples *)

Module Demo.

Definition settings : CompositionSettings.t :=
  CompositionSettings.mk "black" true None "bottom-right" (1 # 2).

Definition scene (source : string) (duration : Q)
    (transition : TransitionType.t) : SceneData.t :=
  SceneData.mk source MediaType.IMAGE_VIDEO duration transition.

Definition request (scenes : list (string * SceneData.t))
    : VideoCompositionRequest.t :=
  VideoCompositionRequest.mk scenes VideoFormat.MP4 VideoQuality.FHD 30
    JobPriority.NORMAL settings None.

(** Two images that download, as in [tests/test_new_compose_format.py]. *)
Definition two_scenes : list (string * SceneData.t) :=
  [("Scene 1", scene "https://example.com/a.jpg" 3 TransitionType.FADE);
   ("Scene 2", scene "https://example.com/bb.jpg" 5 TransitionType.SLIDE_LEFT)].

(** A video that downloads, followed by a source that cannot be
    reached. *)
Definition broken_scenes : list (string * SceneData.t) :=
  [("Scene 1", SceneData.mk "https://example.com/intro.mp4" MediaType.VIDEO 3
                 TransitionType.FADE);
   ("Scene 2", scene "https://example.com/gone.jpg" 5 TransitionType.SLIDE_LEFT)].

Definition jpeg : HTTPResponse.t :=
  HTTPResponse.mk 200 (Some "image/jpeg") ["JFIF"; "......"] None.
Definition mp4 : HTTPResponse.t :=
  HTTPResponse.mk 200 (Some "video/mp4") ["ftyp"; "mdat"] None.

(** The collaborators: a network on which three of the sources can be
    fetched ([gone.jpg] cannot), and floats that add exactly, as the
    durations used here do. *)
Definition broken : Platform :=
  mkPlatform
    (λ s, if String.prefix "https://" s then Ok ("https", "example.com")
          else Ok ("", ""))
    (λ url,
       if decide (url = "https://example.com/a.jpg") then Ok jpeg
       else if decide (url = "https://example.com/bb.jpg") then Ok jpeg
       else if decide (url = "https://example.com/intro.mp4") then Ok mp4
       else if decide (url = "https://example.com/range.jpg")
       then Ok (HTTPResponse.mk 206 (Some "image/jpeg") ["JFIF"] None)
       else Raise (LibraryError "Cannot connect to host example.com:443"))
    (λ s, pretty (String.length s) +:+ "c0ffee00c0ffee00")
    (λ t, if decide (t = "image/jpeg") then Some ".jpg"
          else if decide (t = "video/mp4") then Some ".mp4" else None)
    "/tmp/video_composition"
    "/srv/output"
    (λ path content, if decide (content = Some "JFIF......") then Ok tt
                     else Raise (LibraryError "cannot identify image file"))
    (λ path content, if decide (content = Some "ftypmdat") then Ok (8, 25)%Q
                     else Raise (LibraryError "MoviePy error: failed to read the duration"))
    (λ clip fps codec, Ok "mp4-bytes")
    (λ clip fps program, Ok "gif-bytes")
    (λ n, "0a1b2c3d4e5f")
    (λ n, "job-" +:+ pretty n)
    (λ q, pretty (Z.to_nat (Qnum q / Z.pos (Qden q))) +:+ ".0")
    JobStatus.value
    (λ column, if decide (column = "created_at")
               then Some (λ a b, N.leb (Job.created_at a) (Job.created_at b))
               else None)
    Qplus.

Definition job (id api_key : string) (status : JobStatus.t) : Job.t :=
  Job.mk id api_key status JobPriority.NORMAL (request broken_scenes)
    (Some "Composition: Scene 1, Scene 2") None 0 None None None None None
    None None 0 3 None false 900%N 900%N None None (Some 605700%N).

Definition world (jobs : list (string * Job.t)) : World :=
  mkWorld (list_to_map jobs) ∅ [] 0 [] 1000%N 7.

Definition world0 : World := world [].


Definition job1 (status : JobStatus.t) : Job.t := job "job-1" "key-A" status.
Definition world1 (status : JobStatus.t) : World := world [("job-1", job1 status)].

(** The first page of the jobs of a caller, oldest first. *)
Definition oldest_first : JobListQuery.t :=
  JobListQuery.mk None None 1 50 "created_at" "asc".

(** A progress callback that raises when it is told of completion. *)
Definition fails_at_completion (message : string) (progress : Q) : M unit :=
  if Qeq_bool progress 100 then raise (LibraryError "callback failed")
  else ret tt.

(** The request [two_scenes] with a webhook. *)
Definition hooked : VideoCompositionRequest.t :=
  VideoCompositionRequest.mk two_scenes VideoFormat.MP4 VideoQuality.FHD 30
    JobPriority.NORMAL settings (Some "https://example.com/hook").

(** Two keys, two requests a minute. *)
Definition limits : Settings.t := Settings.mk ["key-A"; "key-B"] 2 60.

(** Two stills, of half a second and of three seconds. *)
Definition short_clip : Clip := ImageClip 0 "a.jpg" (1 # 2).
Definition long_clip : Clip := ImageClip 1 "b.jpg" 3.

End Demo.

(** * Properties *)

(** ** Elementary facts about the monad *)

Lemma bind_ok {A B} (m : M A) (k : A → M B) w a w' :
  m w = (Ok a, w') → bind m k w = k a w'.
Proof. unfold bind. by intros ->. Qed.

Lemma bind_raise {A B} (m : M A) (k : A → M B) w e w' :
  m w = (Raise e, w') → bind m k w = (Raise e, w').
Proof. unfold bind. by intros ->. Qed.

Lemma try_except_ok {A} (m : M A) h w a w' :
  m w = (Ok a, w') → try_except m h w = (Ok a, w').
Proof. unfold try_except. by intros ->. Qed.

Lemma try_except_raise {A} (m : M A) h w e w' :
  m w = (Raise e, w') → try_except m h w = h e w'.
Proof. unfold try_except. by intros ->. Qed.

(** ** The job store *)

Section JobStore.
Context (P : Platform).

Lemma select_job_run w job_id api_key :
  JobService.select_job job_id api_key w =
    (Ok (match db w !! job_id with
         | Some job => if decide (Job.api_key job = api_key) then Some job else None
         | None => None
         end), w).
Proof. reflexivity. Qed.

Lemma select_job_owned w job_id api_key job :
  owned_by w job_id api_key job →
  JobService.select_job job_id api_key w = (Ok (Some job), w).
Proof.
  intros [Hj Hk]. rewrite select_job_run, Hj. by rewrite decide_True.
Qed.

Lemma select_job_foreign w job_id api_key :
  (∀ job, ¬ owned_by w job_id api_key job) →
  JobService.select_job job_id api_key w = (Ok None, w).
Proof.
  intros Hno. rewrite select_job_run.
  destruct (db w !! job_id) as [job|] eqn:Hj; [|done].
  case_decide; [|done]. by destruct (Hno job).
Qed.

Lemma owned_by_dec w job_id api_key :
  (∃ job, owned_by w job_id api_key job) ∨ (∀ job, ¬ owned_by w job_id api_key job).
Proof.
  unfold owned_by. destruct (db w !! job_id) as [job|] eqn:Hj.
  - destruct (decide (Job.api_key job = api_key)) as [Hk|Hk]; [left; eauto|].
    right. intros job' [[= <-] ?]. done.
  - right. intros job' [[=] _].
Qed.

Lemma update_job_status_owned w job_id api_key status job :
  owned_by w job_id api_key job →
  JobService.update_job_status job_id api_key status w =
    (Ok true, with_db (insert job_id (status_written status (clock w) job)) w).
Proof.
  intros Ho. unfold JobService.update_job_status, try_except.
  rewrite (bind_ok _ _ _ _ _ (select_job_owned _ _ _ _ Ho)).
  unfold status_written, bind, utcnow, gets, JobService.db_commit, modify, ret.
  by case_decide.
Qed.

Lemma update_job_status_foreign w job_id api_key status :
  (∀ job, ¬ owned_by w job_id api_key job) →
  JobService.update_job_status job_id api_key status w = (Ok false, w).
Proof.
  intros Hno. unfold JobService.update_job_status, try_except.
  by rewrite (bind_ok _ _ _ _ _ (select_job_foreign _ _ _ Hno)).
Qed.

End JobStore.

Section OwnerScope.
Context (P : Platform).

Lemma get_job_run w job_id api_key :
  ∃ found, JobService.get_job job_id api_key w = (Ok found, w) ∧
    ∀ r, found = Some r ↔
         ∃ job, owned_by w job_id api_key job ∧ r = JobService._to_job_response job.
Proof.
  unfold JobService.get_job.
  destruct (owned_by_dec w job_id api_key) as [[job Ho]|Hno].
  - exists (Some (JobService._to_job_response job)). split.
    + by rewrite (bind_ok _ _ _ _ _ (select_job_owned _ _ _ _ Ho)).
    + intros r. split.
      * intros [= <-]. eauto.
      * intros (job' & [Hj' _] & ->). destruct Ho as [Hj _]. congruence.
  - exists None. split.
    + by rewrite (bind_ok _ _ _ _ _ (select_job_foreign _ _ _ Hno)).
    + intros r. split; [done|]. intros (job & Ho & _). by destruct (Hno job).
Qed.

Lemma delete_job_run w job_id api_key :
  ∃ deleted w', JobService.delete_job job_id api_key w = (Ok deleted, w') ∧
    (deleted = true ↔ ∃ job, owned_by w job_id api_key job) ∧
    (deleted = false → w' = w) ∧
    (deleted = true → w' = with_db (delete job_id) w) ∧
    (∀ k job, db w !! k = Some job → Job.api_key job ≠ api_key →
              db w' !! k = Some job).
Proof.
  unfold JobService.delete_job, try_except.
  destruct (owned_by_dec w job_id api_key) as [[job Ho]|Hno].
  - exists true, (with_db (delete job_id) w).
    rewrite (bind_ok _ _ _ _ _ (select_job_owned _ _ _ _ Ho)).
    split; [done|]. split; [split; eauto|]. split; [done|]. split; [done|].
    intros k job' Hk Hne. cbn. destruct Ho as [Hj Hkey].
    rewrite lookup_delete_ne; [done|]. intros <-. congruence.
  - exists false, w.
    rewrite (bind_ok _ _ _ _ _ (select_job_foreign _ _ _ Hno)).
    split; [done|]. split.
    + split; [done|]. intros [job Ho]. by destruct (Hno job).
    + done.
Qed.

Lemma list_jobs_run w api_key query :
  match column_le P (JobListQuery.sort_by query) with
  | Some _ =>
      ∃ rs, JobService.list_jobs P api_key query w = (Ok rs, w) ∧
        ∀ r, r ∈ rs →
             ∃ k job, owned_by w k api_key job ∧ r = JobService._to_job_response job
  | None =>
      JobService.list_jobs P api_key query w =
        (Raise (AttributeError (JobListQuery.sort_by query)), w)
  end.
Proof.
  unfold JobService.list_jobs, bind, gets, lift, ret.
  destruct (column_le P (JobListQuery.sort_by query)) as [le|]; [|done].
  eexists. split; [reflexivity|].
  intros r Hr. apply list_elem_of_fmap in Hr as (job & -> & Hjob).
  apply subseteq_take, subseteq_drop in Hjob.
  assert (∀ l : list Job.t,
    job ∈ (if decide (JobListQuery.sort_order query = "asc")
           then merge_sort (λ a b, Is_true (le a b)) l
           else merge_sort (λ a b, Is_true (le b a)) l) → job ∈ l) as Hsort.
  { intros l. case_decide; by rewrite merge_sort_Permutation. }
  apply Hsort in Hjob.
  assert (job ∈ filter (λ job, Job.api_key job = api_key) (map_to_list (db w)).*2)
    as Hin.
  { destruct (JobListQuery.priority query), (JobListQuery.status query);
      [ do 2 (apply list_elem_of_filter in Hjob as [_ Hjob])
      | apply list_elem_of_filter in Hjob as [_ Hjob]
      | apply list_elem_of_filter in Hjob as [_ Hjob]
      | ]; done. }
  apply list_elem_of_filter in Hin as [Hkey Hin].
  apply list_elem_of_fmap in Hin as ([k job'] & -> & Hin).
  apply elem_of_map_to_list in Hin. by exists k, job'.
Qed.

(** C10.  With credential [api_key]: [get_job] returns a job exactly when
    a row with that id and that owner exists, and then that row;
    [delete_job] answers [True] exactly in that case and then removes
    that row only, and otherwise answers [False] and changes nothing;
    [list_jobs] returns only rows of that owner.  Rows of other owners
    are never returned and never removed. *)
Theorem owner_scoped_get_delete_list (w : World) (job_id api_key : string)
    (query : JobListQuery.t) :
  (∃ found, JobService.get_job job_id api_key w = (Ok found, w) ∧
     ∀ r, found = Some r ↔
          ∃ job, owned_by w job_id api_key job ∧ r = JobService._to_job_response job) ∧
  (∃ deleted w', JobService.delete_job job_id api_key w = (Ok deleted, w') ∧
     (deleted = true ↔ ∃ job, owned_by w job_id api_key job) ∧
     (deleted = false → w' = w) ∧
     (deleted = true → w' = with_db (delete job_id) w) ∧
     (∀ k job, db w !! k = Some job → Job.api_key job ≠ api_key →
               db w' !! k = Some job)) ∧
  match column_le P (JobListQuery.sort_by query) with
  | Some _ =>
      ∃ rs, JobService.list_jobs P api_key query w = (Ok rs, w) ∧
        ∀ r, r ∈ rs →
             ∃ k job, owned_by w k api_key job ∧ r = JobService._to_job_response job
  | None =>
      JobService.list_jobs P api_key query w =
        (Raise (AttributeError (JobListQuery.sort_by query)), w)
  end.
Proof.
  split; [apply get_job_run|]. split; [apply delete_job_run|].
  apply list_jobs_run.
Qed.

End OwnerScope.

(** ** Rendering never touches the job table or the clock *)

#[local] Instance same_store_preorder : PreOrder same_store.
Proof.
  split; [by intros w|].
  intros w1 w2 w3 (H1 & H2 & H3) (H4 & H5 & H6). repeat split; congruence.
Qed.

#[local] Instance same_row_preorder k : PreOrder (same_row k).
Proof. split; [by intros w|]. intros w1 w2 w3 H1 H2. unfold same_row in *. congruence. Qed.

Section Preserves.
Context (R : relation World) `{!PreOrder R}.

Lemma preserves_ret {A} (a : A) : preserves R (ret a).
Proof. by intros w. Qed.

Lemma preserves_raise {A} e : preserves R (@raise A e).
Proof. by intros w. Qed.

Lemma preserves_lift {A} (r : Result A) : preserves R (lift r).
Proof. by intros w. Qed.

Lemma preserves_gets {A} (f : World → A) : preserves R (gets f).
Proof. by intros w. Qed.

Lemma preserves_modify f : (∀ w, R w (f w)) → preserves R (modify f).
Proof. intros Hf w. apply Hf. Qed.

Lemma preserves_bind {A B} (m : M A) (k : A → M B) :
  preserves R m → (∀ a, preserves R (k a)) → preserves R (bind m k).
Proof.
  intros Hm Hk w. unfold bind. specialize (Hm w).
  destruct (m w) as [[a|e] w1]; cbn in *; [|done].
  by etrans; [|apply Hk].
Qed.

Lemma preserves_try_except {A} (m : M A) h :
  preserves R m → (∀ e, preserves R (h e)) → preserves R (try_except m h).
Proof.
  intros Hm Hh w. unfold try_except. specialize (Hm w).
  destruct (m w) as [[a|e] w1]; cbn in *; [done|].
  by etrans; [|apply Hh].
Qed.

Lemma preserves_for_each {A} (body : A → M unit) l :
  (∀ x, preserves R (body x)) → preserves R (for_each body l).
Proof.
  intros Hb. induction l as [|x l IH]; cbn; [apply preserves_ret|].
  apply preserves_bind; [apply Hb|]. intros _. apply IH.
Qed.

Lemma preserves_for_enumerate {A St} (body : nat → A → St → M St) l :
  (∀ i x acc, preserves R (body i x acc)) →
  ∀ start acc, preserves R (for_enumerate body start l acc).
Proof.
  intros Hb. induction l as [|x l IH]; intros start acc; cbn;
    [apply preserves_ret|].
  apply preserves_bind; [apply Hb|]. intros acc'. apply IH.
Qed.

End Preserves.

Lemma preserves_same_row {A} (m : M A) k :
  preserves same_store m → preserves (same_row k) m.
Proof. intros Hm w. destruct (Hm w) as [Hdb _]. unfold same_row. by rewrite Hdb. Qed.

Create HintDb keeps.
#[local] Hint Resolve preserves_ret preserves_raise preserves_lift
  preserves_gets : keeps.

Ltac keeps_step :=
  lazymatch goal with
  | |- preserves _ (bind _ _) => apply preserves_bind; [apply _| |intros ?]
  | |- preserves _ (try_except _ _) =>
      apply preserves_try_except; [apply _| |intros ?]
  | |- preserves _ (for_each _ _) => apply preserves_for_each; [apply _|intros ?]
  | |- preserves _ (for_enumerate _ _ _ _) =>
      apply preserves_for_enumerate; [apply _|intros ? ? ?]
  | |- preserves _ (modify _) =>
      apply preserves_modify; first [by intros ? | solve [auto with keeps]]
  | |- _ => solve [auto with keeps typeclass_instances]
  end.

(** The steps of a render up to the encoding keep every relation that
    writing a file, drawing random bytes and creating a clip object
    keep. *)
Section RenderPreserves.
Context (P : Platform) (R : relation World) `{!PreOrder R}.
Hypothesis R_files : ∀ f w, R w (with_files f w).
Hypothesis R_rng : ∀ f w, R w (with_rng f w).
Hypothesis R_new_clip : preserves R new_clip_handle.

#[local] Hint Resolve R_files R_rng R_new_clip : keeps.

Lemma preserves_download url :
  preserves R (VideoCompositionService.download_media_from_url P url).
Proof.
  unfold VideoCompositionService.download_media_from_url,
    VideoCompositionService.open_wb.
  keeps_step; [|keeps_step].
  keeps_step; [keeps_step|].
  case_decide; [keeps_step|].
  keeps_step; [keeps_step|]. keeps_step.
  - keeps_step. unfold VideoCompositionService.write. keeps_step.
  - destruct (HTTPResponse.stream_error _); keeps_step.
Qed.

Lemma preserves_get_media_path source :
  preserves R (VideoCompositionService.get_media_path P source).
Proof.
  unfold VideoCompositionService.get_media_path.
  destruct (VideoCompositionService.is_url P source);
    [apply preserves_download|keeps_step].
Qed.

Lemma preserves_load_image path d res fps :
  preserves R (VideoCompositionService.load_image P path d res fps).
Proof. unfold VideoCompositionService.load_image. repeat keeps_step. Qed.

Lemma preserves_load_video path d res fps :
  preserves R (VideoCompositionService.load_video P path d res fps).
Proof. unfold VideoCompositionService.load_video. repeat keeps_step. Qed.

Lemma preserves_create_clip name data res fps :
  preserves R (VideoCompositionService.create_clip_from_scene P name data res fps).
Proof.
  unfold VideoCompositionService.create_clip_from_scene.
  keeps_step; [apply preserves_get_media_path|].
  keeps_step; [|keeps_step].
  destruct (SceneData.media_type data).
  - keeps_step; [apply preserves_load_image|].
    case_decide; [apply preserves_load_video|keeps_step].
  - apply preserves_load_video.
  - keeps_step; [apply preserves_load_image|].
    case_decide; [apply preserves_load_video|keeps_step].
Qed.

Lemma preserves_report cb msg p :
  (∀ callback, cb = Some callback → ∀ m q, preserves R (callback m q)) →
  preserves R (VideoCompositionService.report cb msg p).
Proof.
  intros Hcb. unfold VideoCompositionService.report.
  destruct cb as [callback|]; [by apply (Hcb callback)|keeps_step].
Qed.

Lemma preserves_scene_loop cb n res fps start items acc :
  (∀ callback, cb = Some callback → ∀ m q, preserves R (callback m q)) →
  preserves R
    (for_enumerate (VideoCompositionService.scene_step P cb n res fps)
       start items acc).
Proof.
  intros Hcb. keeps_step. unfold VideoCompositionService.scene_step.
  destruct x as [name data].
  keeps_step; [by apply preserves_report|].
  keeps_step; [apply preserves_create_clip|keeps_step].
Qed.

Lemma preserves_random_hex :
  preserves R (VideoCompositionService.random_hex P).
Proof. unfold VideoCompositionService.random_hex. repeat keeps_step. Qed.

End RenderPreserves.

Lemma keeps_close c : preserves same_store (close c).
Proof. unfold close. destruct (root_handle c); keeps_step. Qed.

Lemma keeps_new_clip_handle : preserves same_store new_clip_handle.
Proof. unfold new_clip_handle. repeat keeps_step. Qed.

#[local] Hint Resolve keeps_close keeps_new_clip_handle : keeps.

Section RenderKeepsStore.
Context (P : Platform).

Lemma keeps_create_clip name data res fps :
  preserves same_store
    (VideoCompositionService.create_clip_from_scene P name data res fps).
Proof.
  apply preserves_create_clip;
    first [apply _ | apply keeps_new_clip_handle | done].
Qed.

Lemma keeps_compose_video scenes fmt quality fps settings cb :
  (∀ callback, cb = Some callback → ∀ m q, preserves same_store (callback m q)) →
  preserves same_store
    (VideoCompositionService.compose_video P scenes fmt quality fps settings cb).
Proof.
  intros Hcb.
  assert (∀ msg p, preserves same_store (VideoCompositionService.report cb msg p))
    as Hrep by (intros; apply preserves_report; first [apply _ | done]).
  unfold VideoCompositionService.compose_video.
  keeps_step; [|keeps_step].
  keeps_step; [by apply Hrep|].
  keeps_step.
  { apply preserves_scene_loop;
      first [apply _ | apply keeps_new_clip_handle | done]. }
  keeps_step; [by apply Hrep|].
  keeps_step; [keeps_step|].
  keeps_step; [by apply Hrep|].
  keeps_step.
  { match goal with
    | |- preserves _ (match ?l with [] => _ | _ => _ end) =>
        destruct l as [|? [|? ?]]
    end; keeps_step. }
  keeps_step; [by apply Hrep|].
  keeps_step.
  { apply preserves_random_hex; first [apply _ | done]. }
  keeps_step; [keeps_step|].
  keeps_step; [keeps_step|].
  keeps_step; [by apply Hrep|].
  repeat keeps_step.
Qed.

End RenderKeepsStore.

(** ** The job life cycle *)

Section LifeCycle.
Context (P : Platform).

Lemma get_job_owned w job_id api_key job :
  owned_by w job_id api_key job →
  JobService.get_job job_id api_key w =
    (Ok (Some (JobService._to_job_response job)), w).
Proof.
  intros Ho. unfold JobService.get_job.
  by rewrite (bind_ok _ _ _ _ _ (select_job_owned _ _ _ _ Ho)).
Qed.

Lemma get_job_foreign w job_id api_key :
  (∀ job, ¬ owned_by w job_id api_key job) →
  JobService.get_job job_id api_key w = (Ok None, w).
Proof.
  intros Hno. unfold JobService.get_job.
  by rewrite (bind_ok _ _ _ _ _ (select_job_foreign _ _ _ Hno)).
Qed.

Lemma status_written_fields status now job :
  Job.status (status_written status now job) = status ∧
  Job.updated_at (status_written status now job) = now ∧
  Job.api_key (status_written status now job) = Job.api_key job ∧
  Job.started_at (status_written status now job) = Job.started_at job ∧
  Job.error_message (status_written status now job) = Job.error_message job ∧
  Job.completed_at (status_written status now job) =
    (if decide (status ∈ [JobStatus.COMPLETED; JobStatus.FAILED; JobStatus.CANCELLED])
     then Some now else Job.completed_at job).
Proof. unfold status_written. by case_decide. Qed.

Lemma owned_by_after_update w job_id api_key job status now :
  Job.api_key job = api_key →
  owned_by (with_db (insert job_id (status_written status now job)) w)
    job_id api_key (status_written status now job).
Proof.
  intros Hk. split; [apply lookup_insert_eq|].
  by destruct (status_written_fields status now job) as (_ & _ & -> & _).
Qed.

Lemma owned_by_same_store w w' job_id api_key job :
  same_store w w' → owned_by w job_id api_key job → owned_by w' job_id api_key job.
Proof. intros [Hdb _] [Hj Hk]. split; [by rewrite Hdb|done]. Qed.

(** [update_job_status] writes the row under [job_id] and no other. *)
Lemma update_job_status_same_row job_id api_key status k :
  k ≠ job_id →
  preserves (same_row k) (JobService.update_job_status job_id api_key status).
Proof.
  intros Hne w. unfold same_row.
  destruct (owned_by_dec w job_id api_key) as [[job Ho]|Hno].
  - rewrite (update_job_status_owned _ _ _ _ _ Ho). cbn.
    by rewrite lookup_insert_ne.
  - by rewrite (update_job_status_foreign _ _ _ _ Hno).
Qed.

(** [process_job] is its opening followed by the guarded rendering. *)
Lemma process_job_from_begin w job_id api_key :
  Endpoints.process_job P job_id api_key w =
    match Endpoints.process_job_begin P job_id api_key w with
    | (Ok job, w1) =>
        try_except (Endpoints.process_job_render P job_id api_key job)
          (Endpoints.process_job_failed job_id api_key) w1
    | (Raise e, w1) => (Raise e, w1)
    end.
Proof.
  unfold Endpoints.process_job, Endpoints.process_job_begin, bind at 1 3.
  destruct (JobService.get_job job_id api_key w) as [[[job|]|e] w0]; try done.
  case_decide; [done|].
  unfold try_except, bind.
  destruct (owned_by_dec w0 job_id api_key) as [[row Ho]|Hno].
  - by rewrite (update_job_status_owned _ _ _ _ _ Ho).
  - by rewrite (update_job_status_foreign _ _ _ _ Hno).
Qed.

Lemma process_job_begin_run w job_id api_key job :
  owned_by w job_id api_key job →
  Endpoints.process_job_begin P job_id api_key w =
    if decide (Job.status job = JobStatus.PENDING)
    then (Ok (JobService._to_job_response job),
          with_db (insert job_id
                     (status_written JobStatus.PROCESSING (clock w) job)) w)
    else (Raise (HTTPException 400
                   (Endpoints.not_pending_detail P (Job.status job))), w).
Proof.
  intros Ho. unfold Endpoints.process_job_begin.
  rewrite (bind_ok _ _ _ _ _ (get_job_owned _ _ _ _ Ho)). cbn.
  destruct (decide (Job.status job = JobStatus.PENDING)) as [Hs|Hs].
  - rewrite decide_False by (intros Hn; by apply Hn).
    by rewrite (bind_ok _ _ _ _ _ (update_job_status_owned _ _ _ _ _ Ho)).
  - by rewrite decide_True.
Qed.

End LifeCycle.

Section Coordinator.
Context (P : Platform).

Lemma update_job_status_returns w job_id api_key status :
  ∃ b w', JobService.update_job_status job_id api_key status w = (Ok b, w').
Proof.
  destruct (owned_by_dec w job_id api_key) as [[job Ho]|Hno].
  - rewrite (update_job_status_owned _ _ _ _ _ Ho). eauto.
  - rewrite (update_job_status_foreign _ _ _ _ Hno). eauto.
Qed.

Lemma keeps_noop_callback (cb : string → Q → M unit) :
  Some (λ (_ : string) (_ : Q), ret tt) = Some cb →
  ∀ m q, preserves same_store (cb m q).
Proof. intros [= <-] m q. apply preserves_ret, _. Qed.

(** When the statements after the first status update raise, they have
    not written to the job table. *)
Lemma process_job_render_raise job_id api_key job w1 e w2 :
  Endpoints.process_job_render P job_id api_key job w1 = (Raise e, w2) →
  same_store w1 w2.
Proof.
  unfold Endpoints.process_job_render, bind at 1, lift.
  destruct (Endpoints.composition_config_of job) as [config|e0].
  - unfold bind at 1.
    pose proof (keeps_compose_video P
      (VideoCompositionRequest.scenes config)
      (VideoCompositionRequest.output_format config)
      (VideoCompositionRequest.quality config)
      (VideoCompositionRequest.fps config)
      (VideoCompositionRequest.composition_settings config)
      _ keeps_noop_callback w1) as Hkeep.
    destruct (VideoCompositionService.compose_video _ _ _ _ _ _ _ w1)
      as [[path|e1] w1'].
    + unfold bind.
      destruct (update_job_status_returns w1' job_id api_key JobStatus.COMPLETED)
        as (b & w' & ->). done.
    + intros [= <- <-]. exact Hkeep.
  - intros [= <- <-]. reflexivity.
Qed.

Lemma process_job_same_row job_id api_key k :
  k ≠ job_id → preserves (same_row k) (Endpoints.process_job P job_id api_key).
Proof.
  intros Hne. unfold Endpoints.process_job, JobService.get_job,
    JobService.select_job.
  keeps_step; [repeat keeps_step|].
  destruct a as [job|]; [|keeps_step].
  case_decide; [keeps_step|].
  keeps_step.
  - keeps_step; [by apply update_job_status_same_row|].
    unfold Endpoints.process_job_render.
    keeps_step; [keeps_step|].
    keeps_step.
    { apply preserves_same_row, keeps_compose_video, keeps_noop_callback. }
    keeps_step; [by apply update_job_status_same_row|keeps_step].
  - unfold Endpoints.process_job_failed.
    keeps_step; [by apply update_job_status_same_row|keeps_step].
Qed.

Lemma process_job_not_pending w job_id api_key job :
  owned_by w job_id api_key job →
  Job.status job ≠ JobStatus.PENDING →
  Endpoints.process_job_begin P job_id api_key w =
    (Raise (HTTPException 400
              (Endpoints.not_pending_detail P (Job.status job))), w) ∧
  Endpoints.process_job P job_id api_key w =
    (Raise (HTTPException 400
              (Endpoints.not_pending_detail P (Job.status job))), w).
Proof.
  intros Ho Hs.
  pose proof (process_job_begin_run P w job_id api_key job Ho) as Hb.
  pose proof (process_job_from_begin P w job_id api_key) as Hp.
  rewrite decide_False in Hb by done. by rewrite Hb in Hp.
Qed.

(** C6 (as amended).  A job is taken into processing only from [pending]:
    for a pending job the opening of [process_job] succeeds, the row gets
    status [processing] and a fresh [updated_at], and rendering starts in
    that world; [started_at] is left as it was.  For a job in any other
    status [process_job] fails with HTTP 400 and changes nothing. *)
Theorem begin_only_from_pending (w : World) (job_id api_key : string)
    (job : Job.t) :
  owned_by w job_id api_key job →
  (Job.status job = JobStatus.PENDING →
   ∃ w1 row,
     Endpoints.process_job_begin P job_id api_key w =
       (Ok (JobService._to_job_response job), w1) ∧
     Endpoints.process_job P job_id api_key w =
       try_except
         (Endpoints.process_job_render P job_id api_key
            (JobService._to_job_response job))
         (Endpoints.process_job_failed job_id api_key) w1 ∧
     owned_by w1 job_id api_key row ∧
     Job.status row = JobStatus.PROCESSING ∧
     Job.updated_at row = clock w ∧
     Job.started_at row = Job.started_at job) ∧
  (Job.status job ≠ JobStatus.PENDING →
   Endpoints.process_job_begin P job_id api_key w =
     (Raise (HTTPException 400
               (Endpoints.not_pending_detail P (Job.status job))), w) ∧
   Endpoints.process_job P job_id api_key w =
     (Raise (HTTPException 400
               (Endpoints.not_pending_detail P (Job.status job))), w)).
Proof.
  intros Ho. pose proof (process_job_begin_run P w job_id api_key job Ho) as Hb.
  pose proof (process_job_from_begin P w job_id api_key) as Hp.
  split; intros Hs.
  - rewrite decide_True in Hb by done. rewrite Hb in Hp.
    eexists _, _. split; [exact Hb|]. split; [exact Hp|].
    split; [apply owned_by_after_update, Ho|].
    by destruct (status_written_fields JobStatus.PROCESSING (clock w) job)
      as (-> & -> & _ & -> & _).
  - by apply process_job_not_pending.
Qed.

(** C1.  When the rendering of a job that [process_job] has just moved to
    [processing] raises [e], the exception is caught, the row ends with
    status [failed] and a completion time, and the caller gets HTTP 500
    with the text of [e].  The row's [error_message] is what it was
    before: the text of [e] is not stored. *)
Theorem render_failure_marks_failed (w : World) (job_id api_key : string)
    (job : Job.t) (e : Exception) (w2 : World) :
  owned_by w job_id api_key job →
  Job.status job = JobStatus.PENDING →
  Endpoints.process_job_render P job_id api_key (JobService._to_job_response job)
    (Endpoints.process_job_begin P job_id api_key w).2 = (Raise e, w2) →
  ∃ w3 row,
    Endpoints.process_job P job_id api_key w =
      (Raise (HTTPException 500 ("Job processing failed: " +:+ str e)), w3) ∧
    owned_by w3 job_id api_key row ∧
    Job.status row = JobStatus.FAILED ∧
    Job.completed_at row = Some (clock w) ∧
    Job.error_message row = Job.error_message job.
Proof.
  intros Ho Hs Hrender.
  pose proof (process_job_begin_run P w job_id api_key job Ho) as Hb.
  rewrite decide_True in Hb by done.
  rewrite (process_job_from_begin P w job_id api_key), Hb.
  rewrite Hb in Hrender. cbn [snd] in Hrender.
  rewrite (try_except_raise _ _ _ _ _ Hrender).
  set (row1 := status_written JobStatus.PROCESSING (clock w) job) in *.
  assert (owned_by w2 job_id api_key row1) as Ho2.
  { eapply owned_by_same_store; [by eapply process_job_render_raise|].
    apply owned_by_after_update, Ho. }
  assert (clock w2 = clock w) as Hclock.
  { by destruct (process_job_render_raise _ _ _ _ _ _ Hrender) as (_ & -> & _). }
  unfold Endpoints.process_job_failed.
  rewrite (bind_ok _ _ _ _ _ (update_job_status_owned _ _ _ _ _ Ho2)).
  eexists _, _. split; [reflexivity|].
  split; [apply owned_by_after_update, Ho2|].
  destruct (status_written_fields JobStatus.FAILED (clock w2) row1)
    as (-> & _ & _ & _ & -> & ->).
  destruct (status_written_fields JobStatus.PROCESSING (clock w) job)
    as (_ & _ & _ & _ & Herr & _).
  rewrite decide_True by set_solver. by rewrite Hclock.
Qed.

(** C2 (as amended).  The row of a job whose status is [completed],
    [failed] or [cancelled] is never rewritten through the job
    endpoints: a [delete] of that job by its owner removes the row,
    after every other request the row is exactly as before, and
    [process_job] on it fails with HTTP 400 and changes nothing. *)
Theorem terminal_row_is_final (c : Call) (w : World) (job_id : string)
    (job : Job.t) :
  db w !! job_id = Some job →
  Job.is_finished job = true →
  (c = DeleteJob job_id (Job.api_key job) →
   db (Endpoints.world_after P c w) !! job_id = None) ∧
  (c ≠ DeleteJob job_id (Job.api_key job) →
   db (Endpoints.world_after P c w) !! job_id = Some job) ∧
  Endpoints.process_job P job_id (Job.api_key job) w =
    (Raise (HTTPException 400
              (Endpoints.not_pending_detail P (Job.status job))), w).
Proof.
  intros Hj Hfin.
  assert (owned_by w job_id (Job.api_key job) job) as Ho by done.
  assert (Job.status job ≠ JobStatus.PENDING) as Hs.
  { intros Hp. unfold Job.is_finished in Hfin. by rewrite Hp in Hfin. }
  destruct (process_job_not_pending w job_id _ job Ho Hs) as [_ Hproc].
  split; [|split; [|exact Hproc]].
  { intros ->. unfold Endpoints.world_after, Endpoints.delete_job.
    destruct (delete_job_run w job_id (Job.api_key job))
      as (deleted & w' & Hdel & Hiff & _ & Ht & _).
    rewrite (bind_ok _ _ _ _ _ Hdel).
    assert (deleted = true) as -> by (apply Hiff; eauto).
    rewrite Ht by done. cbn. apply lookup_delete_eq. }
  intros Hc.
  destruct c as [req key|id key|query key|id key|id key|id key];
    unfold Endpoints.world_after.
  - (* compose *)
    unfold Endpoints.submit_composition_job.
    destruct (VideoCompositionRequest.scenes req); [done|].
    unfold bind at 1, JobService.create_job, bind at 1, lift,
      JobService.json_dumps.
    destruct (VideoCompositionRequest.webhook_url req); [done|].
    unfold bind, utcnow, gets, JobService.new_uuid, bind, gets, modify, ret,
      JobService.db_add. cbn.
    destruct (db w !! uuid4 P (rng w)) eqn:Hfresh; cbn; [done|].
    rewrite lookup_insert_ne; [done|]. intros Heq. congruence.
  - (* get *)
    unfold Endpoints.get_job_status.
    destruct (get_job_run w id key) as (found & Hget & _).
    rewrite (bind_ok _ _ _ _ _ Hget). by destruct found.
  - (* list *)
    unfold Endpoints.list_jobs.
    pose proof (list_jobs_run P w key query) as Hlist.
    destruct (column_le P (JobListQuery.sort_by query)).
    + by destruct Hlist as (rs & -> & _).
    + by rewrite Hlist.
  - (* delete *)
    unfold Endpoints.delete_job.
    destruct (delete_job_run w id key)
      as (deleted & w' & Hdel & Hiff & Hf & Ht & _).
    rewrite (bind_ok _ _ _ _ _ Hdel). destruct deleted.
    + rewrite Ht by done. cbn.
      destruct (proj1 Hiff eq_refl) as (job' & Hj' & Hk').
      rewrite lookup_delete_ne; [done|]. intros ->.
      apply Hc. rewrite Hj in Hj'. injection Hj' as <-. by rewrite Hk'.
    + by rewrite Hf.
  - (* download *)
    unfold Endpoints.download_job_result.
    destruct (get_job_run w id key) as (found & Hget & _).
    rewrite (bind_ok _ _ _ _ _ Hget). destruct found as [r|]; [|done].
    case_decide; [done|].
    destruct (JobResponse.output_file r); [|done].
    by case_decide.
  - (* process *)
    destruct (decide (job_id = id)) as [<-|Hne].
    + destruct (decide (Job.api_key job = key)) as [<-|Hk].
      * by rewrite Hproc.
      * assert (∀ job', ¬ owned_by w job_id key job') as Hno.
        { intros job' [Hj' Hk']. congruence. }
        unfold Endpoints.process_job.
        by rewrite (bind_ok _ _ _ _ _ (get_job_foreign w job_id key Hno)).
    + rewrite <- Hj. apply (process_job_same_row id key job_id Hne w).
Qed.

End Coordinator.

Section Submission.
Context (P : Platform).

(** C9.  A request without scenes is refused, by the validator of the
    request model and by the endpoint alike, and the job table is left
    as it was.  A request with at least one scene and no webhook,
    submitted when the generated id is unused, adds exactly one row, in
    status [pending], owned by the caller and holding the request, and
    the reply carries that job; when the generated id is taken the
    store refuses the row and the table is as before.  A request with at
    least one scene that names a webhook is not stored at all:
    [json.dumps] raises [TypeError] before the row is added, although
    the endpoint prepares [webhook_url] for the row. *)
Theorem submit_creates_one_pending_job
    (composition_request : VideoCompositionRequest.t) (api_key : string)
    (w : World) :
  (VideoCompositionRequest.scenes composition_request = [] →
   validate_scenes (VideoCompositionRequest.scenes composition_request) =
     Raise (ValueError "At least one scene is required") ∧
   Endpoints.submit_composition_job P composition_request api_key w =
     (Raise (HTTPException 400 "At least one scene is required"), w)) ∧
  (VideoCompositionRequest.scenes composition_request ≠ [] →
   VideoCompositionRequest.webhook_url composition_request = None →
   db w !! uuid4 P (rng w) = None →
   ∃ reply job w',
     validate_scenes (VideoCompositionRequest.scenes composition_request) =
       Ok (VideoCompositionRequest.scenes composition_request) ∧
     Endpoints.submit_composition_job P composition_request api_key w =
       (Ok reply, w') ∧
     db w' = <[uuid4 P (rng w) := job]> (db w) ∧
     size (db w') = S (size (db w)) ∧
     Job.id job = uuid4 P (rng w) ∧
     Job.api_key job = api_key ∧
     Job.status job = JobStatus.PENDING ∧
     Job.composition_config job = composition_request ∧
     JobSubmissionResponse.success reply = true ∧
     JobSubmissionResponse.job reply = JobService._to_job_response job) ∧
  (VideoCompositionRequest.scenes composition_request ≠ [] →
   VideoCompositionRequest.webhook_url composition_request = None →
   db w !! uuid4 P (rng w) ≠ None →
   ∃ msg w',
     Endpoints.submit_composition_job P composition_request api_key w =
       (Raise (IntegrityError msg), w') ∧
     db w' = db w) ∧
  (VideoCompositionRequest.scenes composition_request ≠ [] →
   VideoCompositionRequest.webhook_url composition_request ≠ None →
   ∃ msg,
     Endpoints.submit_composition_job P composition_request api_key w =
       (Raise (TypeError msg), w)).
Proof.
  split; [|split; [|split]].
  - intros Hnil. unfold Endpoints.submit_composition_job. by rewrite Hnil.
  - intros Hscenes Hhook Hfresh. unfold Endpoints.submit_composition_job.
    destruct (VideoCompositionRequest.scenes composition_request) as [|s l] eqn:Hs;
      [done|].
    unfold bind at 1, JobService.create_job, bind at 1, lift,
      JobService.json_dumps.
    rewrite Hhook.
    unfold bind, utcnow, gets, JobService.new_uuid, bind, gets, modify, ret,
      JobService.db_add.
    cbn. rewrite Hfresh. cbn.
    eexists _, _, _. split; [done|]. split; [reflexivity|]. cbn.
    split; [reflexivity|]. split; [by apply map_size_insert_None|]. done.
  - intros Hscenes Hhook Htaken. unfold Endpoints.submit_composition_job.
    destruct (VideoCompositionRequest.scenes composition_request) as [|s l] eqn:Hs;
      [done|].
    unfold bind at 1, JobService.create_job, bind at 1, lift,
      JobService.json_dumps.
    rewrite Hhook.
    unfold bind, utcnow, gets, JobService.new_uuid, bind, gets, modify, ret,
      JobService.db_add.
    cbn. destruct (db w !! uuid4 P (rng w)); [|done]. cbn. eauto.
  - intros Hscenes Hhook. unfold Endpoints.submit_composition_job.
    destruct (VideoCompositionRequest.scenes composition_request) as [|s l] eqn:Hs;
      [done|].
    unfold bind at 1, JobService.create_job, bind at 1, lift,
      JobService.json_dumps.
    destruct (VideoCompositionRequest.webhook_url composition_request);
      [|done].
    eauto.
Qed.

End Submission.

(** ** The transition compositor *)

Section Compositor.

Lemma max_of_pair x y : max_of [x; y] = Qmax x y.
Proof. reflexivity. Qed.

(** Every clip that [apply_transition] builds starts at 0. *)
Lemma apply_transition_start clip1 clip2 transition duration :
  clip_start (VideoCompositionService.apply_transition clip1 clip2 transition
                duration) = 0%Q.
Proof. by destruct transition. Qed.

Lemma crossfade_result clip1 clip2 duration :
  VideoCompositionService.apply_transition clip1 clip2
    TransitionType.CROSSFADE duration =
  CompositeVideoClip
    [fadeout clip1 (VideoCompositionService.crossfade_duration clip1 clip2 duration);
     set_start
       (fadein clip2 (VideoCompositionService.crossfade_duration clip1 clip2 duration))
       (clip_duration clip1
        - VideoCompositionService.crossfade_duration clip1 clip2 duration)%Q].
Proof. reflexivity. Qed.

(** The length of a crossfade whose window does not exceed the second
    clip. *)
Lemma crossfade_length clip1 clip2 duration :
  (clip_start clip1 == 0)%Q →
  (VideoCompositionService.crossfade_duration clip1 clip2 duration
   <= clip_duration clip2)%Q →
  (clip_duration (VideoCompositionService.apply_transition clip1 clip2
                    TransitionType.CROSSFADE duration)
   == clip_duration clip1 + clip_duration clip2
      - VideoCompositionService.crossfade_duration clip1 clip2 duration)%Q.
Proof.
  intros Hstart Hwin. rewrite crossfade_result.
  set (overlap := VideoCompositionService.crossfade_duration clip1 clip2 duration)
    in *.
  unfold clip_duration at 1. cbn [clip_times List.map snd].
  rewrite max_of_pair. unfold clip_end_of. cbn [fst snd].
  fold (clip_start clip1) (clip_duration clip1) (clip_duration clip2).
  rewrite Q.max_r; lra.
Qed.

(** C3 (as amended).  For clips of non-negative length, the first of
    which starts at 0: when the requested window is strictly greater
    than the shorter clip, the crossfade overlaps the clips by half the
    shorter clip and the result lasts the two lengths minus that
    overlap; when the window is at most the shorter clip it is used as
    requested. *)
Theorem crossfade_overlap_halved (clip1 clip2 : Clip) (duration : Q) :
  (clip_start clip1 == 0)%Q →
  (0 <= clip_duration clip1)%Q →
  (0 <= clip_duration clip2)%Q →
  ((Qmin (clip_duration clip1) (clip_duration clip2) < duration)%Q →
   VideoCompositionService.crossfade_duration clip1 clip2 duration =
     (Qmin (clip_duration clip1) (clip_duration clip2) * (1 # 2))%Q ∧
   (clip_duration (VideoCompositionService.apply_transition clip1 clip2
                     TransitionType.CROSSFADE duration)
    == clip_duration clip1 + clip_duration clip2
       - Qmin (clip_duration clip1) (clip_duration clip2) * (1 # 2))%Q) ∧
  ((duration <= Qmin (clip_duration clip1) (clip_duration clip2))%Q →
   VideoCompositionService.crossfade_duration clip1 clip2 duration = duration ∧
   (clip_duration (VideoCompositionService.apply_transition clip1 clip2
                     TransitionType.CROSSFADE duration)
    == clip_duration clip1 + clip_duration clip2 - duration)%Q).
Proof.
  intros Hstart H1 H2.
  pose proof (Q.le_min_r (clip_duration clip1) (clip_duration clip2)) as Hr.
  assert (0 <= Qmin (clip_duration clip1) (clip_duration clip2))%Q as Hmin.
  { by apply Q.min_glb. }
  split; intros Hcmp.
  - assert (VideoCompositionService.crossfade_duration clip1 clip2 duration =
              (Qmin (clip_duration clip1) (clip_duration clip2) * (1 # 2))%Q) as Hw.
    { unfold VideoCompositionService.crossfade_duration.
      destruct (Qlt_le_dec _ _) as [_|Hle]; [done|]. lra. }
    split; [exact Hw|]. rewrite <- Hw. apply crossfade_length; [done|].
    rewrite Hw. lra.
  - assert (VideoCompositionService.crossfade_duration clip1 clip2 duration =
              duration) as Hw.
    { unfold VideoCompositionService.crossfade_duration.
      destruct (Qlt_le_dec _ _) as [Hlt|_]; [lra|done]. }
    split; [exact Hw|]. rewrite <- Hw at 2. apply crossfade_length; [done|].
    rewrite Hw. lra.
Qed.

End Compositor.

(** ** The fold over the materialised scenes *)

Section TransitionFold.

Lemma fold_enumerate_app {A St} (body : nat → A → St → Result St) l1 l2 :
  ∀ start acc,
    fold_enumerate body start (l1 ++ l2) acc =
      match fold_enumerate body start l1 acc with
      | Ok acc' => fold_enumerate body (start + length l1) l2 acc'
      | Raise e => Raise e
      end.
Proof.
  induction l1 as [|x l1 IH]; intros start acc; cbn.
  - by rewrite Nat.add_0_r.
  - destruct (body start x acc) as [acc'|e]; [|done].
    rewrite IH. by rewrite Nat.add_succ_r.
Qed.

(** A later scene joins onto the tail with its own transition. *)
Lemma transition_step_later i clip transition init tail :
  i ≠ 0 →
  VideoCompositionService.transition_step i (clip, transition) (init ++ [tail]) =
    Ok (if decide (transition = TransitionType.NONE)
        then init ++ [tail; clip]
        else init ++ [VideoCompositionService.apply_transition tail clip
                        transition (1 # 2)])%list.
Proof.
  intros Hi. unfold VideoCompositionService.transition_step.
  rewrite decide_False by done. rewrite last_snoc.
  destruct (decide (transition = TransitionType.NONE)) as [->|Hne].
  - rewrite decide_False by (intros Hn; by apply Hn).
    by rewrite <- (assoc_L (++)).
  - rewrite decide_True by done. f_equal.
    rewrite length_app, Nat.add_sub. cbn [length].
    rewrite <- (Nat.add_0_r (length init)). by rewrite insert_app_r.
Qed.

(** From the second scene on the loop never fails and keeps the
    accumulator non-empty. *)
Lemma transitions_from_tail rest :
  ∀ i init tail, i ≠ 0 →
    ∃ init' tail',
      fold_enumerate VideoCompositionService.transition_step i rest
        (init ++ [tail]) = Ok (init' ++ [tail'])%list.
Proof.
  induction rest as [|[clip transition] rest IH]; intros i init tail Hi;
    cbn [fold_enumerate].
  - eauto.
  - rewrite transition_step_later by done.
    case_decide.
    + destruct (IH (S i) (init ++ [tail]) clip ltac:(done))
        as (init' & tail' & Hfold).
      rewrite <- (assoc_L (++)) in Hfold. by exists init', tail'.
    + by apply IH.
Qed.

(** The loop on a list of clips and on the list with one more scene. *)
Lemma apply_transitions_snoc (clip0 : Clip) (t0 : TransitionType.t)
    (rest : list (Clip * TransitionType.t)) (clip : Clip)
    (transition : TransitionType.t) :
  VideoCompositionService.apply_transitions [(clip0, t0)] = Ok [clip0] ∧
  (∀ t0', VideoCompositionService.apply_transitions ((clip0, t0') :: rest) =
          VideoCompositionService.apply_transitions ((clip0, t0) :: rest)) ∧
  ∃ init tail,
    VideoCompositionService.apply_transitions ((clip0, t0) :: rest) =
      Ok (init ++ [tail])%list ∧
    VideoCompositionService.apply_transitions
      (((clip0, t0) :: rest) ++ [(clip, transition)]) =
      Ok (if decide (transition = TransitionType.NONE)
          then init ++ [tail; clip]
          else init ++ [VideoCompositionService.apply_transition tail clip
                          transition (1 # 2)])%list.
Proof.
  split; [done|]. split; [done|].
  destruct (transitions_from_tail rest 1 [] clip0 ltac:(done))
    as (init & tail & Hfold).
  exists init, tail.
  assert (VideoCompositionService.apply_transitions ((clip0, t0) :: rest) =
            Ok (init ++ [tail])%list) as Hacc by exact Hfold.
  split; [exact Hacc|].
  unfold VideoCompositionService.apply_transitions in *.
  rewrite fold_enumerate_app, Hacc. cbn [fold_enumerate].
  rewrite transition_step_later by (cbn; lia). done.
Qed.

End TransitionFold.

(** ** Progress reports of a render *)

Lemma bind_inv_ok {A B} (m : M A) (k : A → M B) w b w' :
  bind m k w = (Ok b, w') → ∃ a w1, m w = (Ok a, w1) ∧ k a w1 = (Ok b, w').
Proof.
  unfold bind. destruct (m w) as [[a|e] w1]; [|done]. intros Hk. eauto.
Qed.

Lemma try_except_reraise_inv {A} (m : M A) (f : Exception → Exception) w a w' :
  try_except m (λ e, raise (f e)) w = (Ok a, w') → m w = (Ok a, w').
Proof. unfold try_except. by destruct (m w) as [[a0|e] w1]. Qed.

Lemma same_store_log {A} (m : M A) w r w' :
  preserves same_store m → m w = (r, w') → progress_log w' = progress_log w.
Proof. intros Hm Hrun. destruct (Hm w) as (_ & _ & Hlog). by rewrite Hrun in Hlog. Qed.

Lemma Qnat_le (i j : nat) : (i ≤ j)%nat → (Qnat i <= Qnat j)%Q.
Proof. intros Hij. unfold Qnat. rewrite <- Zle_Qle. lia. Qed.

Lemma Qnat_pos (n : nat) : (0 < n)%nat → (0 < Qnat n)%Q.
Proof. intros Hn. unfold Qnat. change 0%Q with (inject_Z 0). rewrite <- Zlt_Qlt. lia. Qed.

Lemma scene_progress_mono (n i j : nat) :
  (0 < n)%nat → (i ≤ j)%nat → (scene_progress n i <= scene_progress n j)%Q.
Proof.
  intros Hn Hij. unfold scene_progress.
  apply Qplus_le_r, Qmult_le_compat_r; [|done].
  unfold Qdiv. apply Qmult_le_compat_r; [by apply Qnat_le|].
  apply Qlt_le_weak, Qinv_lt_0_compat, Qnat_pos, Hn.
Qed.

Lemma scene_progress_first (n : nat) : (0 < n)%nat → (scene_progress n 0 == 10)%Q.
Proof.
  intros Hn. unfold scene_progress, Qdiv. change (Qnat 0) with 0%Q. ring.
Qed.

Lemma scene_progress_below (n i : nat) : (i < n)%nat → (scene_progress n i <= 60)%Q.
Proof.
  intros Hi. unfold scene_progress.
  assert (0 < Qnat n)%Q as Hn by (apply Qnat_pos; lia).
  assert (Qnat i / Qnat n <= 1)%Q as Hfrac.
  { apply Qle_shift_div_r; [done|]. rewrite Qmult_1_l. apply Qnat_le. lia. }
  lra.
Qed.

Lemma checkpoints_sorted : Sorted Qle [70; 80; 90; 100]%Q.
Proof. repeat constructor; done. Qed.

Lemma scene_progress_sorted (n k : nat) :
  ∀ i : nat, (i + k ≤ n)%nat →
    Sorted Qle (List.map (scene_progress n) (seq i k) ++ [70; 80; 90; 100]%Q).
Proof.
  induction k as [|k IH]; intros i Hik; cbn [seq List.map app].
  - apply checkpoints_sorted.
  - constructor; [apply IH; lia|].
    destruct k as [|k]; cbn [seq List.map app]; constructor.
    + pose proof (scene_progress_below n i ltac:(lia)). lra.
    + apply scene_progress_mono; lia.
Qed.

Section Progress.
Context (P : Platform).

Lemma report_recorded message progress w :
  VideoCompositionService.report (Some record_progress) message progress w =
    (Ok tt, with_progress_log (λ l, l ++ [(message, progress)]) w).
Proof. reflexivity. Qed.

Lemma keeps_close_all (clips : list (Clip * TransitionType.t)) :
  preserves same_store (for_each (λ item, close item.1) clips).
Proof. repeat keeps_step. Qed.

(** The loop over the scenes reports [scene_progress n i] before scene
    [i], in order, and nothing else. *)
Lemma scene_loop_log n res fps items :
  ∀ start acc w clips w',
    for_enumerate
      (VideoCompositionService.scene_step P (Some record_progress) n res fps)
      start items acc w = (Ok clips, w') →
    (progress_log w').*2 =
      (progress_log w).*2 ++ List.map (scene_progress n) (seq start (length items)).
Proof.
  induction items as [|[name data] items IH]; intros start acc w clips w' Hrun.
  - cbn in Hrun. injection Hrun as _ <-. cbn. by rewrite app_nil_r.
  - cbn [for_enumerate] in Hrun.
    apply bind_inv_ok in Hrun as (acc1 & w1 & Hstep & Hrest).
    unfold VideoCompositionService.scene_step in Hstep.
    apply bind_inv_ok in Hstep as ([] & w0 & Hrep & Hstep).
    rewrite report_recorded in Hrep. injection Hrep as <-.
    apply bind_inv_ok in Hstep as (clip & w0' & Hclip & Hret).
    injection Hret as _ <-.
    apply (same_store_log _ _ _ _ (keeps_create_clip P _ _ _ _)) in Hclip.
    rewrite (IH _ _ _ _ _ Hrest), Hclip. cbn.
    rewrite fmap_app. cbn. by rewrite <- (assoc_L (++)).
Qed.

Lemma compose_video_log scenes fmt quality fps settings w path w' :
  VideoCompositionService.compose_video P scenes fmt quality fps settings
    (Some record_progress) w = (Ok path, w') →
  (progress_log w').*2 =
    (progress_log w).*2 ++
      10%Q :: List.map (scene_progress (length scenes)) (seq 0 (length scenes))
      ++ [70; 80; 90; 100]%Q.
Proof.
  intros Hrun. unfold VideoCompositionService.compose_video in Hrun.
  apply try_except_reraise_inv in Hrun.
  apply bind_inv_ok in Hrun as ([] & w1 & Hrep10 & Hrun).
  rewrite report_recorded in Hrep10. injection Hrep10 as <-.
  apply bind_inv_ok in Hrun as (clips & w2 & Hloop & Hrun).
  apply scene_loop_log in Hloop. cbn in Hloop. rewrite fmap_app in Hloop.
  apply bind_inv_ok in Hrun as ([] & w3 & Hrep70 & Hrun).
  rewrite report_recorded in Hrep70. injection Hrep70 as <-.
  apply bind_inv_ok in Hrun as (final_clips & w4 & Hfold & Hrun).
  apply (same_store_log _ _ _ _ (preserves_lift _ _)) in Hfold.
  apply bind_inv_ok in Hrun as ([] & w5 & Hrep80 & Hrun).
  rewrite report_recorded in Hrep80. injection Hrep80 as <-.
  apply bind_inv_ok in Hrun as (final_video & w6 & Hfinal & Hrun).
  assert (progress_log w6 = progress_log (with_progress_log
            (λ l, l ++ [("Concatenating video", 80%Q)]) w4)) as Hw6.
  { destruct final_clips as [|? [|? ?]]; by injection Hfinal as _ <-. }
  apply bind_inv_ok in Hrun as ([] & w7 & Hrep90 & Hrun).
  rewrite report_recorded in Hrep90. injection Hrep90 as <-.
  apply bind_inv_ok in Hrun as (hex & w8 & Hhex & Hrun).
  injection Hhex as _ <-.
  apply bind_inv_ok in Hrun as (encoded & w9 & Henc & Hrun).
  apply (same_store_log _ _ _ _ (preserves_lift _ _)) in Henc.
  apply bind_inv_ok in Hrun as ([] & w10 & Hwrite & Hrun).
  injection Hwrite as <-.
  apply bind_inv_ok in Hrun as ([] & w11 & Hrep100 & Hrun).
  rewrite report_recorded in Hrep100. injection Hrep100 as <-.
  apply bind_inv_ok in Hrun as ([] & w12 & Hclose & Hrun).
  apply (same_store_log _ _ _ _ (keeps_close_all _)) in Hclose.
  apply bind_inv_ok in Hrun as ([] & w13 & Hclose' & Hrun).
  apply (same_store_log _ _ _ _ (keeps_close _)) in Hclose'.
  injection Hrun as _ <-.
  rewrite Hclose', Hclose. cbn. rewrite Henc. cbn. rewrite Hw6. cbn.
  rewrite Hfold. cbn. rewrite !fmap_app, Hloop. cbn.
  rewrite <- !(assoc_L (++)). done.
Qed.

(** C5.  A render of [N ≥ 1] scenes that succeeds calls the progress
    callback with 10, then with [10 + (i/N)·50] before scene [i] for
    [i = 0 .. N-1], then with 70, 80, 90 and 100, in this order and with
    nothing else: the values never decrease and the last one is 100. *)
Theorem progress_is_monotone (scenes : list (string * SceneData.t))
    (fmt : VideoFormat.t) (quality : VideoQuality.t) (fps : nat)
    (settings : CompositionSettings.t) (w : World) (path : string)
    (w' : World) :
  scenes ≠ [] →
  progress_log w = [] →
  VideoCompositionService.compose_video P scenes fmt quality fps settings
    (Some record_progress) w = (Ok path, w') →
  (progress_log w').*2 =
    10%Q :: List.map (scene_progress (length scenes)) (seq 0 (length scenes))
    ++ [70; 80; 90; 100]%Q ∧
  Sorted Qle (progress_log w').*2 ∧
  last (progress_log w').*2 = Some 100%Q.
Proof.
  intros Hscenes Hempty Hrun.
  apply compose_video_log in Hrun. rewrite Hempty in Hrun. cbn in Hrun.
  assert (0 < length scenes)%nat as Hn by (destruct scenes; [done|cbn; lia]).
  rewrite Hrun. split; [done|]. split.
  - constructor; [by apply scene_progress_sorted|].
    destruct (length scenes) as [|n] eqn:Hlen; [lia|].
    cbn [seq List.map app]. constructor.
    rewrite (scene_progress_first (S n)) by lia. done.
  - rewrite app_comm_cons, (assoc_L (++) _ [70; 80; 90]%Q [100%Q]).
    apply last_snoc.
Qed.

End Progress.

(** ** The media resolver *)

Section Resolver.
Context (P : Platform).

Lemma write_chunks path chunks :
  ∀ w content, files w !! path = Some content →
    ∃ w', for_each (VideoCompositionService.write path) chunks w = (Ok tt, w') ∧
          files w' !! path = Some (fold_left String.append chunks content) ∧
          same_store w w'.
Proof.
  induction chunks as [|chunk chunks IH]; intros w content Hc; cbn [for_each].
  - exists w. by rewrite Hc.
  - unfold bind, VideoCompositionService.write at 1, modify.
    set (w1 := with_files _ w).
    destruct (IH w1 (content +:+ chunk)) as (w' & -> & Hfile & Hsame).
    { cbn. rewrite Hc. cbn. apply lookup_insert_eq. }
    exists w'. by split.
Qed.

(** What a download does, by the answer of the HTTP layer. *)
Lemma download_run url w :
  match http_get P url with
  | Raise e =>
      VideoCompositionService.download_media_from_url P url w =
        (Raise (ValueError ("Failed to download media from " +:+ url +:+ ": "
                            +:+ str e)), w)
  | Ok response =>
      if decide (HTTPResponse.status response = 200)
      then
        ∃ w', same_store w w' ∧
          files w' !! scratch_file P url response = Some (body_of response) ∧
          VideoCompositionService.download_media_from_url P url w =
            (match HTTPResponse.stream_error response with
             | None => Ok (scratch_file P url response)
             | Some e =>
                 Raise (ValueError ("Failed to download media from " +:+ url
                                    +:+ ": " +:+ str e))
             end, w')
      else
        VideoCompositionService.download_media_from_url P url w =
          (Raise (ValueError
                    ("Failed to download media from " +:+ url +:+ ": "
                     +:+ "Failed to download from " +:+ url +:+ ": HTTP "
                     +:+ pretty (HTTPResponse.status response))), w)
  end.
Proof.
  destruct (http_get P url) as [response|e] eqn:Hget.
  - destruct (decide (HTTPResponse.status response = 200)) as [Hs|Hs].
    + set (w0 := with_files (insert (scratch_file P url response) "") w).
      destruct (write_chunks (scratch_file P url response)
                  (HTTPResponse.chunks response) w0 "")
        as (w' & Hw & Hfile & Hsame).
      { cbn. apply lookup_insert_eq. }
      exists w'. split; [by etrans; [|exact Hsame]|]. split; [exact Hfile|].
      unfold VideoCompositionService.download_media_from_url, try_except,
        bind at 1, lift.
      rewrite Hget, decide_False by (intros Hn; by apply Hn).
      fold (scratch_file P url response).
      unfold bind at 1, VideoCompositionService.open_wb, modify.
      fold w0. unfold bind. rewrite Hw.
      by destruct (HTTPResponse.stream_error response).
    + unfold VideoCompositionService.download_media_from_url, try_except,
        bind at 1, lift.
      by rewrite Hget, decide_True.
  - unfold VideoCompositionService.download_media_from_url, try_except,
      bind at 1, lift.
    by rewrite Hget.
Qed.

(** C7 (as amended).  For a source that parses as a URL the resolver
    succeeds exactly when the HTTP layer delivers a response, its status
    is 200 and the body arrives without an exception; every other
    outcome, a 2xx status other than 200 included, raises [ValueError].
    On success the chunks of the body, in order, are the content of the
    scratch file whose path is returned, and the job table is
    untouched. *)
Theorem url_fetch_succeeds_only_on_200 (source : string) (w : World) :
  VideoCompositionService.is_url P source = true →
  (is_ok (VideoCompositionService.get_media_path P source w).1 = true ↔
   ∃ response, http_get P source = Ok response ∧
               HTTPResponse.status response = 200 ∧
               HTTPResponse.stream_error response = None) ∧
  (∀ response, http_get P source = Ok response →
     HTTPResponse.status response = 200 →
     HTTPResponse.stream_error response = None →
     ∃ w', VideoCompositionService.get_media_path P source w =
             (Ok (scratch_file P source response), w') ∧
           files w' !! scratch_file P source response = Some (body_of response) ∧
           same_store w w') ∧
  (∀ e, (VideoCompositionService.get_media_path P source w).1 = Raise e →
        ∃ msg, e = ValueError msg).
Proof.
  intros Hurl. unfold VideoCompositionService.get_media_path. rewrite Hurl.
  pose proof (download_run source w) as Hrun.
  destruct (http_get P source) as [response|e0].
  - destruct (decide (HTTPResponse.status response = 200)) as [Hs|Hs].
    + destruct Hrun as (w' & Hsame & Hfile & ->).
      destruct (HTTPResponse.stream_error response) as [e1|] eqn:Herr.
      * split; [|split].
        -- split; [done|]. intros (r & [= <-] & _ & Hnone). congruence.
        -- intros r [= <-] _ Hnone. congruence.
        -- intros e [= <-]. eauto.
      * split; [|split].
        -- split; [|done]. intros _. by exists response.
        -- intros r [= <-] _ _. by exists w'.
        -- intros e [=].
    + rewrite Hrun. split; [|split].
      * split; [done|]. intros (r & [= <-] & H200 & _). done.
      * intros r [= <-] H200. done.
      * intros e [= <-]. eauto.
  - rewrite Hrun. split; [|split].
    + split; [done|]. intros (r & [=] & _).
    + intros r [=].
    + intros e [= <-]. eauto.
Qed.

End Resolver.

(** ** Clip objects across a render *)

#[local] Instance same_clips_preorder : PreOrder same_clips.
Proof.
  split; [by intros w|].
  intros w1 w2 w3 [H1 H2] [H3 H4]. split; congruence.
Qed.

#[local] Instance only_opens_preorder : PreOrder only_opens.
Proof.
  split.
  - intros w. split; [done|]. by rewrite Nat.sub_diag, app_nil_r.
  - intros w1 w2 w3 [Hle1 H1] [Hle2 H2]. split; [lia|].
    rewrite H2, H1, <- (assoc_L (++)). f_equal.
    replace (next_handle w3 - next_handle w1)
      with ((next_handle w2 - next_handle w1) + (next_handle w3 - next_handle w2))
      by lia.
    rewrite seq_app. do 2 f_equal. lia.
Qed.

Lemma same_clips_only_opens w w' : same_clips w w' → only_opens w w'.
Proof.
  intros [Hn Ho]. split; [lia|].
  by rewrite Hn, Ho, Nat.sub_diag, app_nil_r.
Qed.

Lemma preserves_weaken {A} (R1 R2 : relation World) (m : M A) :
  (∀ w w', R1 w w' → R2 w w') → preserves R1 m → preserves R2 m.
Proof. intros Hsub Hm w. apply Hsub, Hm. Qed.

Lemma only_opens_files f w : only_opens w (with_files f w).
Proof. by apply same_clips_only_opens. Qed.

Lemma only_opens_rng f w : only_opens w (with_rng f w).
Proof. by apply same_clips_only_opens. Qed.

#[local] Hint Resolve only_opens_files only_opens_rng : keeps.

Lemma only_opens_new_clip : preserves only_opens new_clip_handle.
Proof.
  intros w. cbn. split; cbn; [lia|].
  replace (S (next_handle w) - next_handle w) with 1 by lia. done.
Qed.

Lemma run_preserved {A} (R : relation World) (m : M A) w r w' :
  preserves R m → m w = (r, w') → R w w'.
Proof. intros Hm Hrun. specialize (Hm w). by rewrite Hrun in Hm. Qed.

(** One statement of a sequence: either it raises, or the rest runs. *)
Lemma bind_raise_step {A B} (R : relation World) `{!PreOrder R}
    (m : M A) (k : A → M B) w0 w e w' :
  preserves R m → R w0 w →
  bind m k w = (Raise e, w') →
  R w0 w' ∨ ∃ a w1, R w0 w1 ∧ k a w1 = (Raise e, w').
Proof.
  intros Hm Hacc. unfold bind. specialize (Hm w).
  destruct (m w) as [[a|e0] w1]; cbn in Hm.
  - intros Hk. right. exists a, w1. split; [by etrans|done].
  - intros [= <- <-]. left. by etrans.
Qed.

Lemma close_returns c w : ∃ w', close c w = (Ok tt, w').
Proof. unfold close. destruct (root_handle c); eauto. Qed.

Lemma close_all_returns (clips : list (Clip * TransitionType.t)) w :
  ∃ w', for_each (λ item, close item.1) clips w = (Ok tt, w').
Proof.
  revert w. induction clips as [|item clips IH]; intros w; cbn [for_each].
  - by exists w.
  - destruct (close_returns item.1 w) as (w1 & Hc).
    rewrite (bind_ok _ _ _ _ _ Hc). apply IH.
Qed.

Lemma try_except_reraise_raise_inv {A} (m : M A) (f : Exception → Exception)
    w e' w' :
  try_except m (λ e, raise (f e)) w = (Raise e', w') →
  ∃ e, m w = (Raise e, w').
Proof.
  unfold try_except. destruct (m w) as [[a|e] w1]; [done|].
  intros [= _ <-]. eauto.
Qed.

Section ClipLifetime.
Context (P : Platform).

(** When [compose_video] fails, nothing has been closed: every clip
    object created during the call is still open when the exception
    leaves the function. *)
Lemma compose_video_raise_only_opens scenes fmt quality fps settings cb w e w' :
  (∀ callback, cb = Some callback → ∀ m q, preserves same_clips (callback m q)) →
  VideoCompositionService.compose_video P scenes fmt quality fps settings cb w =
    (Raise e, w') →
  only_opens w w'.
Proof.
  intros Hcb Hrun.
  assert (∀ msg p, preserves only_opens (VideoCompositionService.report cb msg p))
    as Hrep.
  { intros. apply preserves_report; [apply _|].
    intros callback Hsome m q.
    apply (preserves_weaken same_clips); [apply same_clips_only_opens|].
    by apply Hcb. }
  unfold VideoCompositionService.compose_video in Hrun.
  apply try_except_reraise_raise_inv in Hrun as (e0 & Hrun).
  apply (bind_raise_step only_opens _ _ w) in Hrun
    as [?|([] & w1 & Hacc1 & Hrun)]; [done| |apply Hrep|reflexivity].
  apply (bind_raise_step only_opens _ _ w) in Hrun
    as [?|(clips & w2 & Hacc2 & Hrun)]; [done| |
      apply preserves_scene_loop;
        first [apply _ | apply only_opens_new_clip | done
              | intros; by apply same_clips_only_opens
              | intros callback Hsome m q;
                apply (preserves_weaken same_clips);
                  [apply same_clips_only_opens|by apply Hcb] ]
    |done].
  apply (bind_raise_step only_opens _ _ w) in Hrun
    as [?|([] & w3 & Hacc3 & Hrun)]; [done| |apply Hrep|done].
  apply (bind_raise_step only_opens _ _ w) in Hrun
    as [?|(final_clips & w4 & Hacc4 & Hrun)]; [done| |keeps_step|done].
  apply (bind_raise_step only_opens _ _ w) in Hrun
    as [?|([] & w5 & Hacc5 & Hrun)]; [done| |apply Hrep|done].
  apply (bind_raise_step only_opens _ _ w) in Hrun
    as [?|(final_video & w6 & Hacc6 & Hrun)];
    [done| |destruct final_clips as [|? [|? ?]]; keeps_step|done].
  apply (bind_raise_step only_opens _ _ w) in Hrun
    as [?|([] & w7 & Hacc7 & Hrun)]; [done| |apply Hrep|done].
  apply (bind_raise_step only_opens _ _ w) in Hrun
    as [?|(hex & w8 & Hacc8 & Hrun)];
    [done|
    |apply preserves_random_hex;
       first [apply _ | intros; by apply same_clips_only_opens]
    |done].
  apply (bind_raise_step only_opens _ _ w) in Hrun
    as [?|(encoded & w9 & Hacc9 & Hrun)]; [done| |keeps_step|done].
  apply (bind_raise_step only_opens _ _ w) in Hrun
    as [?|([] & w10 & Hacc10 & Hrun)]; [done| |keeps_step|done].
  apply (bind_raise_step only_opens _ _ w) in Hrun
    as [?|([] & w11 & Hacc11 & Hrun)]; [done| |apply Hrep|done].
  exfalso. unfold bind in Hrun.
  destruct (close_all_returns clips w11) as (w12 & Hc1). rewrite Hc1 in Hrun.
  destruct (close_returns final_video w12) as (w13 & Hc2). rewrite Hc2 in Hrun.
  done.
Qed.

End ClipLifetime.

Section ClipRelease.
Context (P : Platform).

Lemma load_image_run path d res fps w :
  VideoCompositionService.load_image P path d res fps w =
    match image_verify P path (files w !! path) with
    | Ok _ =>
        (Ok (set_fps (resize (ImageClip (next_handle w) path d) res) (Qnat fps)),
         with_open_clips (λ l, l ++ [next_handle w]) (with_next_handle S w))
    | Raise e => (Raise e, w)
    end.
Proof.
  unfold VideoCompositionService.load_image, bind, gets, lift.
  by destruct (image_verify P path (files w !! path)).
Qed.

Lemma load_video_run path d res fps w :
  VideoCompositionService.load_video P path d res fps w =
    match video_probe P path (files w !! path) with
    | Ok probe =>
        (Ok (let clip :=
               resize (subclip (VideoFileClip (next_handle w) path probe.1 probe.2)
                         0 (Qmin d probe.1)) res in
             if Qeq_bool probe.2 (Qnat fps) then clip
             else set_fps clip (Qnat fps)),
         with_open_clips (λ l, l ++ [next_handle w]) (with_next_handle S w))
    | Raise e => (Raise e, w)
    end.
Proof.
  unfold VideoCompositionService.load_video, bind, gets, lift.
  by destruct (video_probe P path (files w !! path)).
Qed.

(** A scene that materialises creates exactly one clip object, the one
    it returns; a scene that fails creates none. *)
Lemma create_clip_effect name data res fps w r w' :
  VideoCompositionService.create_clip_from_scene P name data res fps w = (r, w') →
  match r with
  | Ok clip =>
      root_handle clip = Some (next_handle w) ∧
      next_handle w' = S (next_handle w) ∧
      open_clips w' = open_clips w ++ [next_handle w]
  | Raise _ => same_clips w w'
  end.
Proof.
  unfold VideoCompositionService.create_clip_from_scene, bind at 1.
  pose proof (preserves_get_media_path P same_clips
                ltac:(done) (SceneData.source data) w) as Hsame.
  destruct (VideoCompositionService.get_media_path P (SceneData.source data) w)
    as [[path|e] w0]; cbn in Hsame; [|by intros [= <- <-]].
  destruct Hsame as [Hn Ho]. unfold try_except.
  destruct (SceneData.media_type data); cbn [decide_rel];
    rewrite ?load_image_run, ?load_video_run;
    destruct (image_verify P path (files w0 !! path)) as [[]|e1];
    rewrite ?load_video_run;
    try case_decide; try done;
    rewrite ?load_video_run;
    destruct (video_probe P path (files w0 !! path)) as [probe|e2];
    intros [= <- <-]; cbn; rewrite ?Hn, ?Ho; try done;
    by destruct (Qeq_bool _ _).
Qed.

(** The clips that the scene loop adds are the clip objects it creates,
    in order. *)
Lemma scene_loop_handles cb n res fps items :
  (∀ callback, cb = Some callback → ∀ m q, preserves same_clips (callback m q)) →
  ∀ start acc w clips w',
    for_enumerate (VideoCompositionService.scene_step P cb n res fps)
      start items acc w = (Ok clips, w') →
    ∃ new, clips = acc ++ new ∧
      (λ item : Clip * TransitionType.t, root_handle item.1) <$> new =
        Some <$> seq (next_handle w) (length items) ∧
      next_handle w' = next_handle w + length items ∧
      open_clips w' = open_clips w ++ seq (next_handle w) (length items).
Proof.
  intros Hcb.
  induction items as [|[name data] items IH]; intros start acc w clips w' Hrun.
  - injection Hrun as <- <-. exists []. cbn.
    by rewrite !app_nil_r, Nat.add_0_r.
  - cbn [for_enumerate] in Hrun.
    apply bind_inv_ok in Hrun as (acc1 & w1 & Hstep & Hrest).
    unfold VideoCompositionService.scene_step in Hstep.
    apply bind_inv_ok in Hstep as ([] & w0 & Hrep & Hstep).
    apply (run_preserved same_clips) in Hrep as [Hn0 Ho0];
      [|by apply preserves_report; [apply _|]].
    apply bind_inv_ok in Hstep as (clip & w0' & Hclip & Hret).
    injection Hret as <- <-.
    apply create_clip_effect in Hclip as (Hroot & Hn1 & Ho1).
    destruct (IH _ _ _ _ _ Hrest) as (new & -> & Hroots & Hn & Ho).
    exists ((clip, SceneData.transition data) :: new).
    rewrite <- (assoc_L (++)). split; [done|].
    rewrite Hn1, Hn0 in Hroots, Hn, Ho. rewrite Ho1, Ho0, Hn0 in Ho.
    rewrite Hn0 in Hroot. cbn [length seq fmap list_fmap fst].
    split; [by rewrite Hroot, <- Hroots|]. split; [lia|].
    by rewrite Ho, <- (assoc_L (++)).
Qed.

Lemma apply_transition_root clip1 clip2 transition duration :
  root_handle (VideoCompositionService.apply_transition clip1 clip2 transition
                 duration) = None.
Proof. by destruct transition. Qed.

(** Whatever the fold leaves in the list is a scene clip or a clip built
    by [apply_transition]. *)
Lemma transitions_roots rest :
  ∀ i acc final,
    fold_enumerate VideoCompositionService.transition_step i rest acc = Ok final →
    ∀ c, c ∈ final → root_handle c = None ∨ c ∈ acc ∨ c ∈ rest.*1.
Proof.
  induction rest as [|[clip transition] rest IH]; intros i acc final Hfold c Hc;
    cbn [fold_enumerate] in Hfold.
  - injection Hfold as <-. auto.
  - destruct (VideoCompositionService.transition_step i (clip, transition) acc)
      as [acc'|e] eqn:Hstep; [|done].
    destruct (IH _ _ _ Hfold c Hc) as [Hnone|[Hacc'|Hrest]]; [by left| |].
    + unfold VideoCompositionService.transition_step in Hstep.
      assert (c ∈ acc ++ [clip] → root_handle c = None ∨ c ∈ acc
                                   ∨ c ∈ ((clip, transition) :: rest).*1) as Happ.
      { intros [Hin|Hin%list_elem_of_singleton]%elem_of_app; [auto|].
        subst c. right. right. cbn. left. }
      case_decide; [injection Hstep as <-; auto|].
      destruct (last acc) as [prev|]; [|done].
      case_decide; injection Hstep as <-; [|auto].
      apply list_elem_of_lookup in Hacc' as [k Hk].
      destruct (decide (k = length acc - 1)) as [->|Hne].
      * rewrite list_lookup_insert_eq in Hk
          by (apply lookup_lt_Some in Hk; by rewrite length_insert in Hk).
        injection Hk as <-. left. apply apply_transition_root.
      * rewrite list_lookup_insert_ne in Hk by done.
        right. left. by eapply list_elem_of_lookup_2.
    + right. right. cbn. by right.
Qed.

Lemma close_all_effect (clips : list (Clip * TransitionType.t)) :
  ∀ hs w,
    (λ item : Clip * TransitionType.t, root_handle item.1) <$> clips = Some <$> hs →
    ∃ w', for_each (λ item, close item.1) clips w = (Ok tt, w') ∧
          open_clips w' = filter (λ h, h ∉ hs) (open_clips w).
Proof.
  induction clips as [|[clip t] clips IH]; intros hs w Hroots.
  - destruct hs; [|done]. exists w. split; [done|].
    induction (open_clips w) as [|h l IHl]; [done|].
    rewrite filter_cons_True by set_solver. by rewrite <- IHl.
  - destruct hs as [|h hs]; [done|]. injection Hroots as Hroot Hroots.
    cbn [for_each]. unfold bind, close at 1. cbn [fst]. rewrite Hroot.
    unfold modify.
    destruct (IH hs (with_open_clips (filter (λ h', h' ≠ h)) w) Hroots)
      as (w' & -> & Ho).
    exists w'. split; [done|]. rewrite Ho. cbn.
    rewrite list_filter_filter. apply list_filter_iff. intros x.
    rewrite not_elem_of_cons. tauto.
Qed.

End ClipRelease.

Lemma filter_keep_all {A} (Q : A → Prop) `{!∀ x, Decision (Q x)} (l : list A) :
  (∀ x, x ∈ l → Q x) → filter Q l = l.
Proof.
  induction l as [|x l IH]; intros Hall; [done|].
  rewrite filter_cons_True by (apply Hall; left).
  f_equal. apply IH. intros y Hy. apply Hall. by right.
Qed.

Lemma filter_drop_all {A} (Q : A → Prop) `{!∀ x, Decision (Q x)} (l : list A) :
  (∀ x, x ∈ l → ¬ Q x) → filter Q l = [].
Proof.
  induction l as [|x l IH]; intros Hnone; [done|].
  rewrite filter_cons_False by (apply Hnone; left).
  apply IH. intros y Hy. apply Hnone. by right.
Qed.

Lemma bind_ok_step {A B} (R : relation World) `{!PreOrder R}
    (m : M A) (k : A → M B) w0 w b w' :
  preserves R m → R w0 w →
  bind m k w = (Ok b, w') →
  ∃ a w1, m w = (Ok a, w1) ∧ R w0 w1 ∧ k a w1 = (Ok b, w').
Proof.
  intros Hm Hacc Hrun. apply bind_inv_ok in Hrun as (a & w1 & Hrun & Hk).
  exists a, w1. split; [done|]. split; [|done].
  etrans; [exact Hacc|]. by eapply run_preserved.
Qed.

Section RenderSuccess.
Context (P : Platform).

(** When [compose_video] returns a path, every clip object it created
    has been closed: the clips open afterwards are those open before. *)
Lemma compose_video_ok_closes_all scenes fmt quality fps settings cb w path w' :
  (∀ callback, cb = Some callback → ∀ m q, preserves same_clips (callback m q)) →
  (∀ h, h ∈ open_clips w → (h < next_handle w)%nat) →
  VideoCompositionService.compose_video P scenes fmt quality fps settings cb w =
    (Ok path, w') →
  open_clips w' = open_clips w.
Proof.
  intros Hcb Hold Hrun.
  assert (∀ msg p, preserves same_clips (VideoCompositionService.report cb msg p))
    as Hrep by (intros; apply preserves_report; first [apply _ | done]).
  unfold VideoCompositionService.compose_video in Hrun.
  apply try_except_reraise_inv in Hrun.
  apply (bind_ok_step same_clips _ _ w) in Hrun
    as ([] & w1 & _ & [Hn1 Ho1] & Hrun); [|apply Hrep|reflexivity].
  apply bind_inv_ok in Hrun as (clips & w2 & Hloop & Hrun).
  apply scene_loop_handles in Hloop as (new & Hclips & Hroots & Hn2 & Ho2);
    [|done].
  cbn in Hclips. subst new. rewrite Hn1 in Hroots, Hn2, Ho2. rewrite Ho1 in Ho2.
  set (created := seq (next_handle w) (length scenes)) in *.
  apply (bind_ok_step same_clips _ _ w2) in Hrun
    as ([] & w3 & _ & Hacc & Hrun); [|apply Hrep|reflexivity].
  apply (bind_ok_step same_clips _ _ w2) in Hrun
    as (final_clips & w4 & Hfold & Hacc4 & Hrun); [|keeps_step|done].
  clear Hacc. injection Hfold as Hfold _.
  apply (bind_ok_step same_clips _ _ w2) in Hrun
    as ([] & w5 & _ & Hacc & Hrun); [|apply Hrep|done].
  clear Hacc4.
  apply (bind_ok_step same_clips _ _ w2) in Hrun
    as (final_video & w6 & Hfinal & Hacc6 & Hrun);
    [|destruct final_clips as [|? [|? ?]]; keeps_step|done].
  clear Hacc.
  apply (bind_ok_step same_clips _ _ w2) in Hrun
    as ([] & w7 & _ & Hacc & Hrun); [|apply Hrep|done].
  clear Hacc6.
  apply (bind_ok_step same_clips _ _ w2) in Hrun
    as (hex & w8 & _ & Hacc8 & Hrun);
    [|apply preserves_random_hex; first [apply _ | done]|done].
  clear Hacc.
  apply (bind_ok_step same_clips _ _ w2) in Hrun
    as (encoded & w9 & _ & Hacc & Hrun); [|keeps_step|done].
  clear Hacc8.
  apply (bind_ok_step same_clips _ _ w2) in Hrun
    as ([] & w10 & _ & Hacc10 & Hrun); [|keeps_step|done].
  clear Hacc.
  apply (bind_ok_step same_clips _ _ w2) in Hrun
    as ([] & w11 & _ & [_ Ho11] & Hrun); [|apply Hrep|done].
  clear Hacc10.
  apply bind_inv_ok in Hrun as ([] & w12' & Hclose & Hrun).
  destruct (close_all_effect clips created w11 Hroots) as (w12 & Hclose' & Ho12).
  rewrite Hclose' in Hclose. injection Hclose as <-.
  apply bind_inv_ok in Hrun as ([] & w13 & Hlast & Hrun).
  injection Hrun as _ <-.
  assert (open_clips w12 = open_clips w) as Hback.
  { rewrite Ho12, Ho11, Ho2, filter_app.
    rewrite (filter_keep_all _ (open_clips w)), (filter_drop_all _ created).
    - apply app_nil_r.
    - intros h Hh Hnot. by apply Hnot.
    - intros h Hh Hin. apply elem_of_seq in Hin. specialize (Hold h Hh). lia. }
  unfold close in Hlast.
  destruct (root_handle final_video) as [h|] eqn:Hroot;
    injection Hlast as <-; [|done].
  cbn. rewrite Hback. apply filter_keep_all. intros h' Hh' ->.
  assert (final_video ∈ clips.*1) as Hin.
  { destruct final_clips as [|c [|c' rest]]; [done| |by injection Hfinal as <-].
    injection Hfinal as <- _.
    destruct (transitions_roots _ _ _ _ Hfold c ltac:(by left))
      as [Hnone|[Hnil|Hin]]; [congruence|by apply elem_of_nil in Hnil|done]. }
  apply list_elem_of_fmap in Hin as ([c t] & -> & Hin).
  assert (Some h ∈ (λ item : Clip * TransitionType.t, root_handle item.1) <$> clips)
    as Hsome.
  { apply list_elem_of_fmap. exists (c, t). by rewrite <- Hroot. }
  rewrite Hroots in Hsome. apply list_elem_of_fmap in Hsome as (h0 & [= <-] & Hh).
  apply elem_of_seq in Hh. specialize (Hold h Hh'). lia.
Qed.

(** C4.  When [compose_video] raises, every clip object that it created
    during the call is still open as the exception leaves the function
    (nothing is closed on that path), although on the path that returns a
    path every one of them has been closed. *)
Theorem render_failure_keeps_clips_open
    (scenes : list (string * SceneData.t)) (fmt : VideoFormat.t)
    (quality : VideoQuality.t) (fps : nat) (settings : CompositionSettings.t)
    (cb : option (string → Q → M unit)) (w : World) :
  (∀ callback, cb = Some callback → ∀ m q, preserves same_clips (callback m q)) →
  (∀ h, h ∈ open_clips w → (h < next_handle w)%nat) →
  match VideoCompositionService.compose_video P scenes fmt quality fps settings
          cb w with
  | (Ok path, w') => open_clips w' = open_clips w
  | (Raise e, w') =>
      open_clips w' =
        open_clips w ++ seq (next_handle w) (next_handle w' - next_handle w)
  end.
Proof.
  intros Hcb Hold.
  destruct (VideoCompositionService.compose_video P scenes fmt quality fps
              settings cb w) as [[path|e] w'] eqn:Hrun.
  - by eapply compose_video_ok_closes_all.
  - by destruct (compose_video_raise_only_opens P _ _ _ _ _ _ _ _ _ Hcb Hrun).
Qed.

End RenderSuccess.

(** * The services on concrete inputs *)

(** ** The coordinator *)


Lemma owned_by_single id key (job : Job.t) :
  Job.api_key job = key → owned_by (Demo.world [(id, job)]) id key job.
Proof. intros Hk. split; [|done]. cbn. apply lookup_insert_eq. Qed.

(** A pending job is taken into processing. *)
Lemma begin_only_from_pending_witness :
  owned_by (Demo.world1 JobStatus.PENDING) "job-1" "key-A"
    (Demo.job1 JobStatus.PENDING) ∧
  ∃ w1 row,
    Endpoints.process_job_begin Demo.broken "job-1" "key-A"
      (Demo.world1 JobStatus.PENDING) =
      (Ok (JobService._to_job_response (Demo.job1 JobStatus.PENDING)), w1) ∧
    owned_by w1 "job-1" "key-A" row ∧
    Job.status row = JobStatus.PROCESSING ∧
    Job.updated_at row = 1000%N.
Proof.
  assert (owned_by (Demo.world1 JobStatus.PENDING) "job-1" "key-A"
            (Demo.job1 JobStatus.PENDING)) as Ho.
  { split; vm_compute; reflexivity. }
  split; [exact Ho|].
  destruct (begin_only_from_pending Demo.broken _ _ _ _ Ho) as [Hpending _].
  destruct (Hpending eq_refl) as (w1 & row & Hb & _ & Ho1 & Hst & Hup & _).
  exists w1, row. auto.
Defined.

(** C6, the claim as stated fails: after the opening of [process_job] on
    a pending job the row is [processing] and its [started_at] is still
    unset. *)
Lemma begin_leaves_started_at_unset :
  (Endpoints.process_job_begin Demo.broken "job-1" "key-A"
     (Demo.world1 JobStatus.PENDING)).1 =
    Ok (JobService._to_job_response (Demo.job1 JobStatus.PENDING)) ∧
  Job.status <$>
    db (Endpoints.process_job_begin Demo.broken "job-1" "key-A"
          (Demo.world1 JobStatus.PENDING)).2 !! "job-1" =
    Some JobStatus.PROCESSING ∧
  Job.started_at <$>
    db (Endpoints.process_job_begin Demo.broken "job-1" "key-A"
          (Demo.world1 JobStatus.PENDING)).2 !! "job-1" =
    Some None.
Proof. repeat split; vm_compute; reflexivity. Qed.

(** C2, the claim as stated fails: [update_job_status] moves a completed
    job to [processing] and reports success. *)
Lemma update_job_status_overwrites_terminal :
  (JobService.update_job_status "job-1" "key-A" JobStatus.PROCESSING
     (Demo.world1 JobStatus.COMPLETED)).1 = Ok true ∧
  Job.status <$>
    db (JobService.update_job_status "job-1" "key-A" JobStatus.PROCESSING
          (Demo.world1 JobStatus.COMPLETED)).2 !! "job-1" =
    Some JobStatus.PROCESSING.
Proof. split; vm_compute; reflexivity. Qed.

(** A completed job is refused by [process_job], survives a delete
    under another key and is removed by a delete of its owner. *)
Lemma terminal_row_is_final_witness :
  db (Demo.world1 JobStatus.COMPLETED) !! "job-1" =
    Some (Demo.job1 JobStatus.COMPLETED) ∧
  Job.is_finished (Demo.job1 JobStatus.COMPLETED) = true ∧
  Endpoints.process_job Demo.broken "job-1" "key-A"
    (Demo.world1 JobStatus.COMPLETED) =
    (Raise (HTTPException 400 "Job cannot be processed. Current status: completed"),
     Demo.world1 JobStatus.COMPLETED) ∧
  db (Endpoints.world_after Demo.broken (DeleteJob "job-1" "key-B")
        (Demo.world1 JobStatus.COMPLETED)) !! "job-1" =
    Some (Demo.job1 JobStatus.COMPLETED) ∧
  db (Endpoints.world_after Demo.broken (DeleteJob "job-1" "key-A")
        (Demo.world1 JobStatus.COMPLETED)) !! "job-1" = None.
Proof.
  assert (db (Demo.world1 JobStatus.COMPLETED) !! "job-1" =
            Some (Demo.job1 JobStatus.COMPLETED)) as Hj.
  { vm_compute; reflexivity. }
  split; [exact Hj|]. split; [reflexivity|].
  destruct (terminal_row_is_final Demo.broken (DeleteJob "job-1" "key-B") _ _ _
              Hj eq_refl) as (_ & Hkept & Hproc).
  destruct (terminal_row_is_final Demo.broken (DeleteJob "job-1" "key-A") _ _ _
              Hj eq_refl) as (Hgone & _ & _).
  split; [exact Hproc|]. split.
  - apply Hkept. discriminate.
  - apply Hgone. reflexivity.
Defined.

(** C1 at a concrete job: the read of [composition_config] raises; the
    job ends [failed], the cause goes to the HTTP reply and the row's
    [error_message] stays empty. *)
Lemma failed_job_has_no_error_message :
  (Endpoints.process_job Demo.broken "job-1" "key-A"
     (Demo.world1 JobStatus.PENDING)).1 =
    Raise (HTTPException 500
      "Job processing failed: 'JobResponse' object has no attribute 'composition_config'") ∧
  Job.status <$>
    db (Endpoints.process_job Demo.broken "job-1" "key-A"
          (Demo.world1 JobStatus.PENDING)).2 !! "job-1" =
    Some JobStatus.FAILED ∧
  Job.error_message <$>
    db (Endpoints.process_job Demo.broken "job-1" "key-A"
          (Demo.world1 JobStatus.PENDING)).2 !! "job-1" =
    Some None.
Proof. repeat split; vm_compute; reflexivity. Qed.

(** ** The resolver, the compositor and the pipeline *)


Lemma render_failure_marks_failed_witness :
  owned_by (Demo.world1 JobStatus.PENDING) "job-1" "key-A"
    (Demo.job1 JobStatus.PENDING) ∧
  ∃ w3 row,
    Endpoints.process_job Demo.broken "job-1" "key-A"
      (Demo.world1 JobStatus.PENDING) =
      (Raise (HTTPException 500
         "Job processing failed: 'JobResponse' object has no attribute 'composition_config'"),
       w3) ∧
    owned_by w3 "job-1" "key-A" row ∧
    Job.status row = JobStatus.FAILED ∧
    Job.completed_at row = Some 1000%N ∧
    Job.error_message row = None.
Proof.
  assert (owned_by (Demo.world1 JobStatus.PENDING) "job-1" "key-A"
            (Demo.job1 JobStatus.PENDING)) as Ho.
  { split; vm_compute; reflexivity. }
  split; [exact Ho|].
  refine (render_failure_marks_failed Demo.broken _ _ _ _
            (AttributeError
               "'JobResponse' object has no attribute 'composition_config'")
            _ Ho eq_refl _).
  vm_compute. reflexivity.
Defined.

Lemma submit_creates_one_pending_job_witness :
  VideoCompositionRequest.scenes (Demo.request Demo.two_scenes) ≠ [] ∧
  VideoCompositionRequest.webhook_url (Demo.request Demo.two_scenes) = None ∧
  db Demo.world0 !! uuid4 Demo.broken (rng Demo.world0) = None ∧
  (∃ reply job w',
     Endpoints.submit_composition_job Demo.broken (Demo.request Demo.two_scenes)
       "key-A" Demo.world0 = (Ok reply, w') ∧
     size (db w') = S (size (db Demo.world0)) ∧
     Job.status job = JobStatus.PENDING ∧
     JobSubmissionResponse.job reply = JobService._to_job_response job) ∧
  ∃ msg,
    Endpoints.submit_composition_job Demo.broken Demo.hooked "key-A"
      Demo.world0 = (Raise (TypeError msg), Demo.world0).
Proof.
  assert (VideoCompositionRequest.scenes (Demo.request Demo.two_scenes) ≠ [])
    as Hscenes by done.
  assert (db Demo.world0 !! uuid4 Demo.broken (rng Demo.world0) = None)
    as Hfresh by (vm_compute; reflexivity).
  split; [exact Hscenes|]. split; [reflexivity|]. split; [exact Hfresh|].
  destruct (submit_creates_one_pending_job Demo.broken
              (Demo.request Demo.two_scenes) "key-A" Demo.world0)
    as (_ & Hstored & _ & _).
  destruct (submit_creates_one_pending_job Demo.broken Demo.hooked "key-A"
              Demo.world0)
    as (_ & _ & _ & Hhook).
  split.
  - destruct (Hstored Hscenes eq_refl Hfresh)
      as (reply & job & w' & _ & Hrun & _ & Hsize & _ & _ & Hst & _ & _ & Hjob).
    exists reply, job, w'. auto.
  - apply Hhook; discriminate.
Defined.

(** C9 at a concrete request: two scenes and a webhook; the endpoint
    raises and the job table stays empty. *)
Lemma submit_with_webhook_stores_nothing :
  (Endpoints.submit_composition_job Demo.broken Demo.hooked "key-A"
     Demo.world0).1 =
    Raise (TypeError "Object of type Url is not JSON serializable") ∧
  db (Endpoints.submit_composition_job Demo.broken Demo.hooked "key-A"
        Demo.world0).2 = ∅.
Proof. split; vm_compute; reflexivity. Qed.

(** The title that [tests/test_new_compose_format.py] expects. *)
Lemma submit_two_scenes_title :
  (JobResponse.title ∘ JobSubmissionResponse.job) <$>
    match (Endpoints.submit_composition_job Demo.broken
             (Demo.request Demo.two_scenes) "key-A" Demo.world0).1 with
    | Ok reply => Some reply
    | Raise _ => None
    end = Some (Some "Composition: Scene 1, Scene 2").
Proof. vm_compute. reflexivity. Qed.

(** C3, the claim as stated fails: with a window equal to the shorter
    clip the overlap is the whole window, not half the shorter clip. *)
Lemma crossfade_window_kept_at_equality :
  (Qmin (clip_duration Demo.short_clip) (clip_duration Demo.long_clip)
   <= 1 # 2)%Q ∧
  VideoCompositionService.crossfade_duration Demo.short_clip Demo.long_clip
    (1 # 2) = (1 # 2)%Q ∧
  ¬ (VideoCompositionService.crossfade_duration Demo.short_clip Demo.long_clip
       (1 # 2)
     == Qmin (clip_duration Demo.short_clip) (clip_duration Demo.long_clip)
        * (1 # 2))%Q.
Proof.
  split; [by vm_compute|]. split; [reflexivity|]. by vm_compute.
Qed.

Lemma crossfade_overlap_halved_witness :
  (clip_start Demo.long_clip == 0)%Q ∧
  (0 <= clip_duration Demo.long_clip)%Q ∧
  (0 <= clip_duration Demo.short_clip)%Q ∧
  (Qmin (clip_duration Demo.long_clip) (clip_duration Demo.short_clip) < 1)%Q ∧
  VideoCompositionService.crossfade_duration Demo.long_clip Demo.short_clip 1 =
    (Qmin (clip_duration Demo.long_clip) (clip_duration Demo.short_clip)
     * (1 # 2))%Q ∧
  (clip_duration (VideoCompositionService.apply_transition Demo.long_clip
                    Demo.short_clip TransitionType.CROSSFADE 1)
   == clip_duration Demo.long_clip + clip_duration Demo.short_clip
      - Qmin (clip_duration Demo.long_clip) (clip_duration Demo.short_clip)
        * (1 # 2))%Q.
Proof.
  assert (clip_start Demo.long_clip == 0)%Q as Hstart by reflexivity.
  assert (0 <= clip_duration Demo.long_clip)%Q as H1 by (by vm_compute).
  assert (0 <= clip_duration Demo.short_clip)%Q as H2 by (by vm_compute).
  assert (Qmin (clip_duration Demo.long_clip) (clip_duration Demo.short_clip)
          < 1)%Q as Hlt by (by vm_compute).
  repeat (split; [assumption|]).
  exact (proj1 (crossfade_overlap_halved Demo.long_clip Demo.short_clip 1
                  Hstart H1 H2) Hlt).
Defined.

(** C7, the claim as stated fails: a response with status 206 is in the
    2xx range and the resolver raises. *)
Lemma partial_content_is_refused :
  VideoCompositionService.is_url Demo.broken "https://example.com/range.jpg"
    = true ∧
  HTTPResponse.status <$>
    match http_get Demo.broken "https://example.com/range.jpg" with
    | Ok response => Some response
    | Raise _ => None
    end = Some 206 ∧
  (VideoCompositionService.get_media_path Demo.broken
     "https://example.com/range.jpg" Demo.world0).1 =
    Raise (ValueError
      "Failed to download media from https://example.com/range.jpg: Failed to download from https://example.com/range.jpg: HTTP 206").
Proof. repeat split; vm_compute; reflexivity. Qed.

Lemma url_fetch_succeeds_only_on_200_witness :
  VideoCompositionService.is_url Demo.broken "https://example.com/a.jpg" = true ∧
  ∃ w', VideoCompositionService.get_media_path Demo.broken
          "https://example.com/a.jpg" Demo.world0 =
          (Ok "/tmp/video_composition/download_25c0ffee.jpg", w') ∧
        files w' !! "/tmp/video_composition/download_25c0ffee.jpg" =
          Some "JFIF......" ∧
        same_store Demo.world0 w'.
Proof.
  assert (VideoCompositionService.is_url Demo.broken "https://example.com/a.jpg"
          = true) as Hurl by reflexivity.
  split; [exact Hurl|].
  exact (proj1 (proj2 (url_fetch_succeeds_only_on_200 Demo.broken
                         "https://example.com/a.jpg" Demo.world0 Hurl))
           Demo.jpeg eq_refl eq_refl eq_refl).
Defined.

(** C4 at a concrete render: the second of two scenes cannot be fetched;
    [compose_video] raises while the clip of the first scene, opened
    under handle 0, has not been closed.  When both scenes load, every
    clip is closed before the path is returned. *)
Lemma failed_render_leaves_clip_open :
  (VideoCompositionService.compose_video Demo.broken Demo.broken_scenes
     VideoFormat.MP4 VideoQuality.FHD 30 Demo.settings None Demo.world0).1 =
    Raise (ValueError
      "Video composition failed: Failed to download media from https://example.com/gone.jpg: Cannot connect to host example.com:443") ∧
  open_clips
    (VideoCompositionService.compose_video Demo.broken Demo.broken_scenes
       VideoFormat.MP4 VideoQuality.FHD 30 Demo.settings None Demo.world0).2 =
    [0] ∧
  (VideoCompositionService.compose_video Demo.broken Demo.two_scenes
     VideoFormat.MP4 VideoQuality.FHD 30 Demo.settings None Demo.world0).1 =
    Ok "/srv/output/composition_0a1b2c3d4e5f.mp4" ∧
  open_clips
    (VideoCompositionService.compose_video Demo.broken Demo.two_scenes
       VideoFormat.MP4 VideoQuality.FHD 30 Demo.settings None Demo.world0).2 =
    [].
Proof. repeat split; vm_compute; reflexivity. Qed.

Lemma progress_is_monotone_witness :
  Demo.two_scenes ≠ [] ∧
  progress_log Demo.world0 = [] ∧
  ∃ w',
    VideoCompositionService.compose_video Demo.broken Demo.two_scenes
      VideoFormat.MP4 VideoQuality.FHD 30 Demo.settings (Some record_progress)
      Demo.world0 = (Ok "/srv/output/composition_0a1b2c3d4e5f.mp4", w') ∧
    (progress_log w').*2 =
      [10; scene_progress 2 0; scene_progress 2 1; 70; 80; 90; 100]%Q ∧
    Sorted Qle (progress_log w').*2 ∧
    last (progress_log w').*2 = Some 100%Q.
Proof.
  assert (Demo.two_scenes ≠ []) as Hscenes by done.
  split; [exact Hscenes|]. split; [reflexivity|].
  eexists. split; [vm_compute; reflexivity|].
  refine (progress_is_monotone Demo.broken Demo.two_scenes VideoFormat.MP4
            VideoQuality.FHD 30 Demo.settings Demo.world0 _ _ Hscenes eq_refl _).
  vm_compute. reflexivity.
Defined.

Lemma render_failure_keeps_clips_open_witness :
  (∀ h, h ∈ open_clips Demo.world0 → (h < next_handle Demo.world0)%nat) ∧
  ∃ e w',
    VideoCompositionService.compose_video Demo.broken Demo.broken_scenes
      VideoFormat.MP4 VideoQuality.FHD 30 Demo.settings None Demo.world0 =
      (Raise e, w') ∧
    next_handle w' = 1 ∧
    open_clips w' = [0].
Proof.
  assert (∀ h, h ∈ open_clips Demo.world0 → (h < next_handle Demo.world0)%nat)
    as Hold.
  { intros h Hh. by apply elem_of_nil in Hh. }
  split; [exact Hold|].
  pose proof (render_failure_keeps_clips_open Demo.broken Demo.broken_scenes
                VideoFormat.MP4 VideoQuality.FHD 30 Demo.settings None Demo.world0
                ltac:(done) Hold) as Hopen.
  destruct (VideoCompositionService.compose_video Demo.broken Demo.broken_scenes
              VideoFormat.MP4 VideoQuality.FHD 30 Demo.settings None Demo.world0)
    as [[path|e] w'] eqn:Hrun.
  - vm_compute in Hrun. discriminate Hrun.
  - exists e, w'. split; [reflexivity|].
    assert (next_handle w' = 1) as Hn.
    { vm_compute in Hrun. by injection Hrun as _ <-. }
    split; [exact Hn|]. rewrite Hopen, Hn. reflexivity.
Defined.

(** * Further properties of the services *)

(** ** What processing leaves in the job table *)

Lemma status_written_frame status now job :
  Job.id (status_written status now job) = Job.id job ∧
  Job.priority (status_written status now job) = Job.priority job ∧
  Job.composition_config (status_written status now job) =
    Job.composition_config job ∧
  Job.progress (status_written status now job) = Job.progress job ∧
  Job.current_step (status_written status now job) = Job.current_step job ∧
  Job.output_file (status_written status now job) = Job.output_file job ∧
  Job.output_size (status_written status now job) = Job.output_size job ∧
  Job.duration (status_written status now job) = Job.duration job ∧
  Job.retry_count (status_written status now job) = Job.retry_count job ∧
  Job.max_retries (status_written status now job) = Job.max_retries job ∧
  Job.created_at (status_written status now job) = Job.created_at job ∧
  Job.expires_at (status_written status now job) = Job.expires_at job.
Proof. unfold status_written. by case_decide. Qed.

Section Processing.
Context (P : Platform).

(** The two ways [process_job] ends on a pending job of the caller. *)
Lemma process_job_outcome w job_id api_key job :
  owned_by w job_id api_key job →
  Job.status job = JobStatus.PENDING →
  ∃ r w' final,
    Endpoints.process_job P job_id api_key w = (r, w') ∧
    owned_by w' job_id api_key
      (status_written final (clock w)
         (status_written JobStatus.PROCESSING (clock w) job)) ∧
    (∀ k, k ≠ job_id → db w' !! k = db w !! k) ∧
    match r with
    | Ok reply => final = JobStatus.COMPLETED
    | Raise e =>
        final = JobStatus.FAILED ∧
        ∃ cause, e = HTTPException 500 ("Job processing failed: " +:+ str cause)
    end.
Proof.
  intros Ho Hs.
  pose proof (process_job_begin_run P w job_id api_key job Ho) as Hb.
  rewrite decide_True in Hb by done.
  rewrite (process_job_from_begin P w job_id api_key), Hb.
  set (row1 := status_written JobStatus.PROCESSING (clock w) job).
  set (w1 := with_db (insert job_id row1) w).
  assert (owned_by w1 job_id api_key row1) as Ho1
    by apply owned_by_after_update, Ho.
  assert (∀ w2, same_store w1 w2 →
            owned_by w2 job_id api_key row1 ∧ clock w2 = clock w ∧
            ∀ k, k ≠ job_id → db w2 !! k = db w !! k) as Hkeep.
  { intros w2 (Hdb & Hclock & _). split; [|split].
    - destruct Ho1 as [Hrow Hkey]. split; [by rewrite Hdb|done].
    - by rewrite Hclock.
    - intros k Hk. rewrite Hdb. cbn. by rewrite lookup_insert_ne. }
  unfold try_except.
  destruct (Endpoints.process_job_render P job_id api_key
              (JobService._to_job_response job) w1) as [[reply|e] w2] eqn:Hrender.
  - unfold Endpoints.process_job_render in Hrender.
    apply bind_inv_ok in Hrender as (config & w1a & Hread & Hrender).
    injection Hread as _ <-.
    apply bind_inv_ok in Hrender as (path & w1b & Hcompose & Hrender).
    apply (run_preserved same_store) in Hcompose;
      [|apply keeps_compose_video, keeps_noop_callback].
    destruct (Hkeep _ Hcompose) as (Ho1b & Hclock & Hothers).
    apply bind_inv_ok in Hrender as (b & w1c & Hupdate & Hret).
    rewrite (update_job_status_owned _ _ _ _ _ Ho1b) in Hupdate.
    injection Hupdate as _ <-. injection Hret as _ <-.
    exists (Ok reply), (with_db (insert job_id
              (status_written JobStatus.COMPLETED (clock w1b) row1)) w1b),
      JobStatus.COMPLETED.
    rewrite Hclock. split; [done|].
    split; [apply owned_by_after_update, Ho1b|]. split; [|done].
    intros k Hk. cbn. rewrite lookup_insert_ne by done. by apply Hothers.
  - apply process_job_render_raise in Hrender.
    destruct (Hkeep _ Hrender) as (Ho2 & Hclock & Hothers).
    unfold Endpoints.process_job_failed.
    rewrite (bind_ok _ _ _ _ _ (update_job_status_owned _ _ _ _ _ Ho2)).
    eexists _, _, JobStatus.FAILED. rewrite Hclock. split; [reflexivity|].
    split; [apply owned_by_after_update, Ho2|]. split; [|by eauto].
    intros k Hk. cbn. rewrite lookup_insert_ne by done. by apply Hothers.
Qed.

(** X1.  [process_job] on a pending job of the caller ends in exactly two
    ways: it returns and the row is [completed], or it raises HTTP 500
    and the row is [failed].  Either way the row gets a completion time
    and keeps its progress, output file, output size, duration and retry
    count as they were, and no other row changes. *)
Theorem process_job_ends_completed_or_failed (w : World)
    (job_id api_key : string) (job : Job.t) :
  owned_by w job_id api_key job →
  Job.status job = JobStatus.PENDING →
  ∃ r w' row,
    Endpoints.process_job P job_id api_key w = (r, w') ∧
    owned_by w' job_id api_key row ∧
    Job.status row =
      (if is_ok r then JobStatus.COMPLETED else JobStatus.FAILED) ∧
    (∀ e, r = Raise e → ∃ detail, e = HTTPException 500 detail) ∧
    Job.completed_at row = Some (clock w) ∧
    Job.progress row = Job.progress job ∧
    Job.output_file row = Job.output_file job ∧
    Job.output_size row = Job.output_size job ∧
    Job.duration row = Job.duration job ∧
    Job.retry_count row = Job.retry_count job ∧
    (∀ k, k ≠ job_id → db w' !! k = db w !! k).
Proof.
  intros Ho Hs.
  destruct (process_job_outcome w job_id api_key job Ho Hs)
    as (r & w' & final & Hrun & Ho' & Hothers & Hfinal).
  set (row1 := status_written JobStatus.PROCESSING (clock w) job) in *.
  exists r, w', (status_written final (clock w) row1).
  split; [done|]. split; [done|].
  destruct (status_written_fields final (clock w) row1)
    as (Hst & _ & _ & _ & _ & Hdone).
  destruct (status_written_frame final (clock w) row1)
    as (_ & _ & _ & Hp & _ & Hof & Hos & Hd & Hrc & _).
  destruct (status_written_frame JobStatus.PROCESSING (clock w) job)
    as (_ & _ & _ & Hp1 & _ & Hof1 & Hos1 & Hd1 & Hrc1 & _).
  rewrite Hst, Hdone, Hp, Hof, Hos, Hd, Hrc.
  assert (final = JobStatus.COMPLETED ∨ final = JobStatus.FAILED) as Hcases.
  { destruct r; [by left|right; by destruct Hfinal]. }
  split; [destruct r; [done|by destruct Hfinal]|].
  split.
  { intros e ->. destruct Hfinal as (_ & cause & ->). eauto. }
  split; [by destruct Hcases as [-> | ->]|]. done.
Qed.

(** X2.  A job is processed at most once: after [process_job] has run on
    a pending job, whatever the outcome, a second [process_job] on it
    answers HTTP 400 and changes nothing, also when the job has failed
    and [can_retry] holds for it. *)
Theorem process_job_at_most_once (w : World) (job_id api_key : string)
    (job : Job.t) :
  owned_by w job_id api_key job →
  Job.status job = JobStatus.PENDING →
  ∃ r w' row,
    Endpoints.process_job P job_id api_key w = (r, w') ∧
    owned_by w' job_id api_key row ∧
    Endpoints.process_job P job_id api_key w' =
      (Raise (HTTPException 400
                (Endpoints.not_pending_detail P (Job.status row))), w') ∧
    (is_ok r = false →
     Job.can_retry row = Nat.ltb (Job.retry_count job) (Job.max_retries job)).
Proof.
  intros Ho Hs.
  destruct (process_job_outcome w job_id api_key job Ho Hs)
    as (r & w' & final & Hrun & Ho' & _ & Hfinal).
  set (row1 := status_written JobStatus.PROCESSING (clock w) job) in *.
  exists r, w', (status_written final (clock w) row1).
  split; [done|]. split; [done|].
  destruct (status_written_fields final (clock w) row1) as (Hst & _).
  destruct (status_written_frame final (clock w) row1)
    as (_ & _ & _ & _ & _ & _ & _ & _ & Hrc & Hmr & _).
  destruct (status_written_frame JobStatus.PROCESSING (clock w) job)
    as (_ & _ & _ & _ & _ & _ & _ & _ & Hrc1 & Hmr1 & _).
  split.
  - apply process_job_not_pending; [done|]. rewrite Hst.
    destruct r; [by rewrite Hfinal|by destruct Hfinal as [-> _]].
  - intros Hfail. destruct r as [reply|e]; [done|].
    destruct Hfinal as [-> _]. unfold Job.can_retry.
    rewrite Hst, Hrc, Hmr. unfold row1. by rewrite Hrc1, Hmr1.
Qed.

End Processing.

(** ** Submission, lookup, download and deletion together *)

Section JobRoundTrips.
Context (P : Platform).

(** What a submission that succeeds has done. *)
Lemma submit_inv composition_request api_key w reply w' :
  Endpoints.submit_composition_job P composition_request api_key w =
    (Ok reply, w') →
  ∃ job,
    JobSubmissionResponse.job reply = JobService._to_job_response job ∧
    Job.id job = uuid4 P (rng w) ∧
    db w !! Job.id job = None ∧
    w' = with_db (insert (Job.id job) job) (with_rng S w) ∧
    Job.api_key job = api_key ∧
    Job.status job = JobStatus.PENDING ∧
    Job.composition_config job = composition_request ∧
    Job.output_file job = None ∧
    Job.retry_count job = 0 ∧ Job.max_retries job = 3 ∧
    Job.created_at job = clock w ∧
    Job.expires_at job = Some (clock w + JobService.seven_days)%N.
Proof.
  unfold Endpoints.submit_composition_job.
  destruct (VideoCompositionRequest.scenes composition_request); [done|].
  unfold bind at 1, JobService.create_job, bind at 1, lift,
    JobService.json_dumps.
  destruct (VideoCompositionRequest.webhook_url composition_request); [done|].
  unfold bind, utcnow, gets, JobService.new_uuid, bind, gets, modify, ret,
    JobService.db_add.
  cbn. destruct (db w !! uuid4 P (rng w)) eqn:Hfresh; cbn; [done|].
  intros [= <- <-]. eexists. split; [reflexivity|]. cbn. by rewrite Hfresh.
Qed.

(** X3.  After a submission, the owner finds the job under the id of the
    reply, exactly as the reply shows it, through [get_job] and through
    the status endpoint; under any other credential the same id finds
    nothing and the status endpoint answers HTTP 404. *)
Theorem submitted_job_is_found_by_its_owner
    (composition_request : VideoCompositionRequest.t) (api_key other : string)
    (w : World) (reply : JobSubmissionResponse.t) (w' : World) :
  Endpoints.submit_composition_job P composition_request api_key w =
    (Ok reply, w') →
  other ≠ api_key →
  JobService.get_job (JobResponse.id (JobSubmissionResponse.job reply)) api_key w'
    = (Ok (Some (JobSubmissionResponse.job reply)), w') ∧
  Endpoints.get_job_status (JobResponse.id (JobSubmissionResponse.job reply))
    api_key w' = (Ok (JobSubmissionResponse.job reply), w') ∧
  JobService.get_job (JobResponse.id (JobSubmissionResponse.job reply)) other w'
    = (Ok None, w') ∧
  Endpoints.get_job_status (JobResponse.id (JobSubmissionResponse.job reply))
    other w' = (Raise (HTTPException 404 "Job not found"), w').
Proof.
  intros Hsubmit Hother.
  apply submit_inv in Hsubmit
    as (job & -> & _ & _ & -> & Hkey & _).
  change (JobResponse.id (JobService._to_job_response job)) with (Job.id job).
  set (w' := with_db _ _).
  assert (owned_by w' (Job.id job) api_key job) as Ho.
  { split; [apply lookup_insert_eq|done]. }
  assert (∀ row, ¬ owned_by w' (Job.id job) other row) as Hno.
  { intros row [Hrow Hk]. destruct Ho as [Hrow' Hk']. congruence. }
  unfold Endpoints.get_job_status.
  rewrite (get_job_owned _ _ _ _ Ho), (get_job_foreign _ _ _ Hno).
  rewrite (bind_ok _ _ _ _ _ (get_job_owned _ _ _ _ Ho)).
  by rewrite (bind_ok _ _ _ _ _ (get_job_foreign _ _ _ Hno)).
Qed.

(** What [download_job_result] answers for a job of the caller. *)
Lemma download_job_result_run w job_id api_key job :
  owned_by w job_id api_key job →
  Endpoints.download_job_result P job_id api_key w =
    (if decide (Job.status job = JobStatus.COMPLETED)
     then match Job.output_file job with
          | Some output_file =>
              if decide (output_file = "")
              then Raise (HTTPException 404 "Job output file not found")
              else Ok (DownloadReply.mk ("/files/download/" +:+ output_file)
                         ("composition_" +:+ job_id +:+ "."
                          +:+ default "None" (Job.output_format job))
                         (Job.output_size job) (Job.output_format job))
          | None => Raise (HTTPException 404 "Job output file not found")
          end
     else Raise (HTTPException 400
                   ("Job is not completed. Current status: "
                    +:+ format_status P (Job.status job))), w).
Proof.
  intros Ho. unfold Endpoints.download_job_result.
  rewrite (bind_ok _ _ _ _ _ (get_job_owned _ _ _ _ Ho)). cbn.
  destruct (decide (Job.status job = JobStatus.COMPLETED)) as [Hs|Hs].
  - rewrite decide_False by (intros Hn; by apply Hn).
    destruct (Job.output_file job) as [f|]; [|done]. by case_decide.
  - by rewrite decide_True.
Qed.

(** X4.  The download endpoint answers with a download URL exactly when
    the job belongs to the caller, is [completed] and has a non-empty
    [output_file]; it answers HTTP 404 when there is no such job of the
    caller or no output file, HTTP 400 when the job is not completed, and
    it never changes anything. *)
Theorem download_needs_completed_job_with_output (w : World)
    (job_id api_key : string) :
  (Endpoints.download_job_result P job_id api_key w).2 = w ∧
  (is_ok (Endpoints.download_job_result P job_id api_key w).1 = true ↔
   ∃ job output_file,
     owned_by w job_id api_key job ∧ Job.status job = JobStatus.COMPLETED ∧
     Job.output_file job = Some output_file ∧ output_file ≠ "") ∧
  (∀ e, (Endpoints.download_job_result P job_id api_key w).1 = Raise e →
     e = HTTPException 404 "Job not found" ∧
       (∀ job, ¬ owned_by w job_id api_key job)
     ∨ e = HTTPException 404 "Job output file not found" ∧
       (∃ job, owned_by w job_id api_key job ∧
               Job.status job = JobStatus.COMPLETED)
     ∨ ∃ job, owned_by w job_id api_key job ∧
              Job.status job ≠ JobStatus.COMPLETED ∧
              e = HTTPException 400
                    ("Job is not completed. Current status: "
                     +:+ format_status P (Job.status job))).
Proof.
  destruct (owned_by_dec w job_id api_key) as [[job Ho]|Hno].
  - rewrite (download_job_result_run w job_id api_key job Ho).
    assert (∀ job' f, owned_by w job_id api_key job' →
              Job.output_file job' = Some f → Job.output_file job = Some f)
      as Hsame.
    { intros job' f [Hj' _] Hf. destruct Ho as [Hj _]. congruence. }
    assert (∀ job', owned_by w job_id api_key job' → job' = job) as Huniq.
    { intros job' [Hj' _]. destruct Ho as [Hj _]. congruence. }
    split; [done|].
    destruct (decide (Job.status job = JobStatus.COMPLETED)) as [Hs|Hs].
    + destruct (Job.output_file job) as [f|] eqn:Hf.
      * destruct (decide (f = "")) as [->|Hne]; cbn.
        -- split.
           ++ split; [done|]. intros (job' & f' & Ho' & _ & Hf' & Hne').
              rewrite (Huniq _ Ho'), Hf in Hf'. congruence.
           ++ intros e [= <-]. right. left. eauto.
        -- split; [|done]. split; [|done]. intros _. by exists job, f.
      * cbn. split.
        -- split; [done|]. intros (job' & f' & Ho' & _ & Hf' & _).
           rewrite (Huniq _ Ho'), Hf in Hf'. done.
        -- intros e [= <-]. right. left. eauto.
    + cbn. split.
      * split; [done|]. intros (job' & f' & Ho' & Hs' & _).
        rewrite (Huniq _ Ho') in Hs'. done.
      * intros e [= <-]. right. right. eauto.
  - unfold Endpoints.download_job_result.
    rewrite (bind_ok _ _ _ _ _ (get_job_foreign _ _ _ Hno)). cbn.
    split; [done|]. split.
    + split; [done|]. intros (job & f & Ho & _). by destruct (Hno job).
    + intros e [= <-]. left. done.
Qed.

(** [process_job] never gets past the read of [composition_config]. *)
Lemma process_job_render_run job_id api_key job w :
  Endpoints.process_job_render P job_id api_key job w =
    (Raise (AttributeError
              "'JobResponse' object has no attribute 'composition_config'"), w).
Proof. reflexivity. Qed.

Lemma process_job_raises w job_id api_key :
  ∃ e w', Endpoints.process_job P job_id api_key w = (Raise e, w').
Proof.
  destruct (owned_by_dec w job_id api_key) as [[job Ho]|Hno].
  - destruct (decide (Job.status job = JobStatus.PENDING)) as [Hs|Hs].
    + pose proof (process_job_begin_run P w job_id api_key job Ho) as Hb.
      rewrite decide_True in Hb by done.
      rewrite (process_job_from_begin P w job_id api_key), Hb.
      rewrite (try_except_raise _ _ _ _ _ (process_job_render_run _ _ _ _)).
      unfold Endpoints.process_job_failed.
      destruct (update_job_status_returns
                  (with_db (insert job_id
                     (status_written JobStatus.PROCESSING (clock w) job)) w)
                  job_id api_key JobStatus.FAILED) as (b & w' & Hup).
      rewrite (bind_ok _ _ _ _ _ Hup). eauto.
    + destruct (process_job_not_pending P w job_id _ job Ho Hs) as [_ Hproc].
      destruct Ho as [_ <-]. rewrite Hproc. eauto.
  - unfold Endpoints.process_job.
    rewrite (bind_ok _ _ _ _ _ (get_job_foreign w job_id api_key Hno)). eauto.
Qed.

(** No request writes [output_file]: a row found after a request has
    the output file that the row under the same id had before, or is a
    new row without one. *)
Lemma world_after_output_file (c : Call) (w : World) (k : string)
    (row : Job.t) :
  db (Endpoints.world_after P c w) !! k = Some row →
  (∃ job, db w !! k = Some job ∧ Job.output_file row = Job.output_file job) ∨
  Job.output_file row = None.
Proof.
  destruct c as [req key|id key|query key|id key|id key|id key];
    unfold Endpoints.world_after.
  - (* compose *)
    unfold Endpoints.submit_composition_job.
    destruct (VideoCompositionRequest.scenes req); [by eauto|].
    unfold bind at 1, JobService.create_job, bind at 1, lift,
      JobService.json_dumps.
    destruct (VideoCompositionRequest.webhook_url req); [by eauto|].
    unfold bind, utcnow, gets, JobService.new_uuid, bind, gets, modify, ret,
      JobService.db_add. cbn.
    destruct (db w !! uuid4 P (rng w)) eqn:Hfresh; cbn; [by eauto|].
    destruct (decide (k = uuid4 P (rng w))) as [->|Hne].
    + rewrite lookup_insert_eq. intros [= <-]. by right.
    + rewrite lookup_insert_ne by done. eauto.
  - (* get *)
    unfold Endpoints.get_job_status.
    destruct (get_job_run w id key) as (found & Hget & _).
    rewrite (bind_ok _ _ _ _ _ Hget). destruct found; eauto.
  - (* list *)
    unfold Endpoints.list_jobs.
    pose proof (list_jobs_run P w key query) as Hlist.
    destruct (column_le P (JobListQuery.sort_by query)).
    + destruct Hlist as (rs & -> & _). eauto.
    + rewrite Hlist. eauto.
  - (* delete *)
    unfold Endpoints.delete_job.
    destruct (delete_job_run w id key) as (deleted & w' & Hdel & _ & Hf & Ht & _).
    rewrite (bind_ok _ _ _ _ _ Hdel). destruct deleted.
    + rewrite Ht by done. cbn. intros [_ Hk]%lookup_delete_Some. eauto.
    + rewrite Hf by done. eauto.
  - (* download *)
    unfold Endpoints.download_job_result.
    destruct (get_job_run w id key) as (found & Hget & _).
    rewrite (bind_ok _ _ _ _ _ Hget). destruct found as [r|]; [|by eauto].
    case_decide; [by eauto|].
    destruct (JobResponse.output_file r); [|by eauto].
    case_decide; eauto.
  - (* process *)
    destruct (decide (k = id)) as [->|Hne].
    + destruct (owned_by_dec w id key) as [[job Ho]|Hno].
      * destruct (decide (Job.status job = JobStatus.PENDING)) as [Hs|Hs].
        -- destruct (process_job_outcome P w id key job Ho Hs)
             as (r & w' & final & Hrun & [Hrow _] & _).
           rewrite Hrun. cbn. rewrite Hrow. intros [= <-]. left.
           exists job. split; [by destruct Ho|].
           destruct (status_written_frame final (clock w)
                       (status_written JobStatus.PROCESSING (clock w) job))
             as (_ & _ & _ & _ & _ & -> & _).
           by destruct (status_written_frame JobStatus.PROCESSING (clock w) job)
             as (_ & _ & _ & _ & _ & -> & _).
        -- destruct (process_job_not_pending P w id _ job Ho Hs) as [_ Hproc].
           destruct Ho as [_ <-]. rewrite Hproc. eauto.
      * unfold Endpoints.process_job.
        rewrite (bind_ok _ _ _ _ _ (get_job_foreign w id key Hno)). eauto.
    + rewrite (process_job_same_row P id key k Hne w). eauto.
Qed.

(** X5.  No job ever becomes downloadable.  [process_job] never returns:
    whatever the job, it raises.  No request writes an output file: when
    no row has one, then after any sequence of requests to the job
    endpoints still no row has one, and the download endpoint answers
    every request with an error. *)
Theorem no_request_makes_a_job_downloadable (calls : list Call) (w : World) :
  (∀ k job, db w !! k = Some job → Job.output_file job = None) →
  (∀ w0 job_id api_key,
     is_ok (Endpoints.process_job P job_id api_key w0).1 = false) ∧
  (∀ k job,
     db (fold_left (λ w c, Endpoints.world_after P c w) calls w) !! k =
       Some job →
     Job.output_file job = None) ∧
  (∀ job_id api_key,
     is_ok (Endpoints.download_job_result P job_id api_key
              (fold_left (λ w c, Endpoints.world_after P c w) calls w)).1 =
       false).
Proof.
  intros Hnone. split.
  { intros w0 job_id api_key.
    by destruct (process_job_raises w0 job_id api_key) as (e & w' & ->). }
  assert (∀ k job,
            db (fold_left (λ w c, Endpoints.world_after P c w) calls w) !! k =
              Some job →
            Job.output_file job = None) as Hafter.
  { revert w Hnone. induction calls as [|c calls IH]; intros w Hnone; [done|].
    cbn [fold_left]. apply IH. intros k row Hrow.
    destruct (world_after_output_file c w k row Hrow)
      as [(job & Hjob & ->)|Hnew]; [by eapply Hnone|done]. }
  split; [exact Hafter|].
  intros job_id api_key.
  set (w' := fold_left (λ w c, Endpoints.world_after P c w) calls w) in *.
  destruct (owned_by_dec w' job_id api_key) as [[job Ho]|Hno].
  - rewrite (download_job_result_run w' job_id api_key job Ho). cbn.
    rewrite (Hafter job_id job) by (by destruct Ho).
    by case_decide.
  - unfold Endpoints.download_job_result.
    by rewrite (bind_ok _ _ _ _ _ (get_job_foreign w' job_id api_key Hno)).
Qed.

(** X6.  After [delete_job] has removed a job, the owner no longer finds
    it, a second [delete_job] answers [False], the delete endpoint
    answers HTTP 404, and every other row is as before. *)
Theorem deleted_job_is_gone (w : World) (job_id api_key : string)
    (job : Job.t) :
  owned_by w job_id api_key job →
  ∃ w',
    JobService.delete_job job_id api_key w = (Ok true, w') ∧
    JobService.get_job job_id api_key w' = (Ok None, w') ∧
    JobService.delete_job job_id api_key w' = (Ok false, w') ∧
    Endpoints.delete_job job_id api_key w' =
      (Raise (HTTPException 404 "Job not found"), w') ∧
    (∀ k, k ≠ job_id → db w' !! k = db w !! k).
Proof.
  intros Ho. exists (with_db (delete job_id) w).
  set (w' := with_db (delete job_id) w).
  assert (∀ row, ¬ owned_by w' job_id api_key row) as Hno.
  { intros row [Hrow _]. cbn in Hrow. by rewrite lookup_delete_eq in Hrow. }
  assert (JobService.delete_job job_id api_key w' = (Ok false, w')) as Hagain.
  { unfold JobService.delete_job, try_except.
    by rewrite (bind_ok _ _ _ _ _ (select_job_foreign _ _ _ Hno)). }
  split.
  { unfold JobService.delete_job, try_except.
    by rewrite (bind_ok _ _ _ _ _ (select_job_owned _ _ _ _ Ho)). }
  split; [by apply get_job_foreign|]. split; [done|]. split.
  - unfold Endpoints.delete_job. by rewrite (bind_ok _ _ _ _ _ Hagain).
  - intros k Hk. cbn. by rewrite lookup_delete_ne.
Qed.

End JobRoundTrips.

(** ** Listing and sweeping the job table *)

Section Listing.
Context (P : Platform).

(** An optional filter splits a list into what it keeps and what it
    drops. *)
Lemma option_filter_split {A B} (o : option B) (R : B → A → Prop)
    {Hdec : ∀ b x, Decision (R b x)} (l : list A) :
  ∃ others,
    l ≡ₚ match o with Some b => filter (R b) l | None => l end ++ others ∧
    Forall (λ x, ∀ b, o = Some b → R b x)
      match o with Some b => filter (R b) l | None => l end ∧
    Forall (λ x, ¬ ∀ b, o = Some b → R b x) others.
Proof.
  destruct o as [b|].
  - exists (filter (λ x, ¬ R b x) l). split; [|split].
    + by rewrite filter_app_complement.
    + apply Forall_forall. intros x [Hx _]%list_elem_of_filter. by intros ? [= <-].
    + apply Forall_forall. intros x [Hx _]%list_elem_of_filter Hall.
      by apply Hx, Hall.
  - exists []. split; [by rewrite app_nil_r|]. split; [|done].
    apply Forall_forall. by intros x _ b.
Qed.

(** X7.  With a sort column that exists, [list_jobs] answers with one
    page of the rows that match.  The rows of the table split into the
    matches, which are the rows of the caller with the requested status
    and the requested priority when the query names them, and the
    others, none of which matches.  The matches are put in the store's
    order on the sort column (in reverse for any [sort_order] other than
    "asc"; sorted when that order is total), the first
    [(page - 1) * per_page] of them are skipped and the next [per_page]
    are the answer.  The endpoint reports the length of this page, not
    the number of matches, as [total]. *)
Theorem list_jobs_page (w : World) (api_key : string) (query : JobListQuery.t)
    (le : Job.t → Job.t → bool) :
  column_le P (JobListQuery.sort_by query) = Some le →
  ∃ matches others rows : list Job.t,
    (map_to_list (db w)).*2 ≡ₚ matches ++ others ∧
    Forall (λ job,
              Job.api_key job = api_key ∧
              (∀ s, JobListQuery.status query = Some s → Job.status job = s) ∧
              (∀ p, JobListQuery.priority query = Some p →
                    Job.priority job = p)) matches ∧
    Forall (λ job,
              ¬ (Job.api_key job = api_key ∧
                 (∀ s, JobListQuery.status query = Some s →
                       Job.status job = s) ∧
                 (∀ p, JobListQuery.priority query = Some p →
                       Job.priority job = p))) others ∧
    ((∀ a b, le a b = true ∨ le b a = true) →
     if decide (JobListQuery.sort_order query = "asc")
     then Sorted (λ a b, le a b = true) matches
     else Sorted (λ a b, le b a = true) matches) ∧
    rows = take (JobListQuery.per_page query)
             (drop ((JobListQuery.page query - 1) * JobListQuery.per_page query)
                matches) ∧
    JobService.list_jobs P api_key query w =
      (Ok (JobService._to_job_response <$> rows), w) ∧
    Endpoints.list_jobs_response P query api_key w =
      (Ok (JobListResponse.mk true (JobService._to_job_response <$> rows)
             (length rows) (JobListQuery.page query)
             (JobListQuery.per_page query)), w).
Proof.
  intros Hcol.
  unfold Endpoints.list_jobs_response, JobService.list_jobs, bind, gets, lift,
    ret. rewrite Hcol.
  set (all := (map_to_list (db w)).*2).
  set (by_key := filter (λ job, Job.api_key job = api_key) all).
  set (by_status := match JobListQuery.status query with
                    | Some s => filter (λ job, Job.status job = s) by_key
                    | None => by_key
                    end).
  set (by_priority := match JobListQuery.priority query with
                      | Some p => filter (λ job, Job.priority job = p) by_status
                      | None => by_status
                      end).
  set (sorted := if decide (JobListQuery.sort_order query = "asc")
                 then merge_sort (λ a b, Is_true (le a b)) by_priority
                 else merge_sort (λ a b, Is_true (le b a)) by_priority).
  assert (sorted ≡ₚ by_priority) as Hsorted.
  { unfold sorted. case_decide; by rewrite merge_sort_Permutation. }
  destruct (option_filter_split (JobListQuery.priority query)
              (λ p job, Job.priority job = p)
              (Hdec := λ p job, decide (Job.priority job = p)) by_status)
    as (o3 & Hsplit3 & Hin3 & Hout3).
  destruct (option_filter_split (JobListQuery.status query)
              (λ s job, Job.status job = s)
              (Hdec := λ s job, decide (Job.status job = s)) by_key)
    as (o2 & Hsplit2 & Hin2 & Hout2).
  change (by_status ≡ₚ by_priority ++ o3) in Hsplit3.
  change (by_key ≡ₚ by_status ++ o2) in Hsplit2.
  change (Forall (λ job, ∀ p, JobListQuery.priority query = Some p →
                              Job.priority job = p) by_priority) in Hin3.
  change (Forall (λ job, ∀ s, JobListQuery.status query = Some s →
                              Job.status job = s) by_status) in Hin2.
  assert (all ≡ₚ by_key ++ filter (λ job, ¬ Job.api_key job = api_key) all)
    as Hsplit1 by (unfold by_key; by rewrite filter_app_complement).
  exists sorted, (o3 ++ o2 ++ filter (λ job, ¬ Job.api_key job = api_key) all),
    (take (JobListQuery.per_page query)
       (drop ((JobListQuery.page query - 1) * JobListQuery.per_page query)
          sorted)).
  split.
  { rewrite Hsorted, (assoc_L (++) by_priority), <- Hsplit3,
      (assoc_L (++) by_status), <- Hsplit2. exact Hsplit1. }
  split.
  { rewrite Hsorted. apply Forall_forall. intros job Hjob.
    assert (job ∈ by_status) as Hjob2.
    { rewrite Hsplit3. apply elem_of_app. by left. }
    assert (job ∈ by_key) as Hjob1.
    { rewrite Hsplit2. apply elem_of_app. by left. }
    apply list_elem_of_filter in Hjob1 as [Hkey _].
    split; [done|]. split.
    - by apply (proj1 (Forall_forall _ _) Hin2).
    - by apply (proj1 (Forall_forall _ _) Hin3). }
  split.
  { apply Forall_app. split; [|apply Forall_app; split].
    - eapply Forall_impl; [exact Hout3|]. intros job Hno (_ & _ & Hp). by apply Hno.
    - eapply Forall_impl; [exact Hout2|]. intros job Hno (_ & Hs & _). by apply Hno.
    - apply Forall_forall. intros job [Hk _]%list_elem_of_filter (Hkey & _).
      by apply Hk. }
  split; [|by rewrite length_fmap].
  intros Htotal. unfold sorted.
  assert (Total (λ a b, Is_true (le a b))) as Hasc.
  { intros a b. destruct (Htotal a b) as [H|H]; rewrite <- Is_true_true in H;
      auto. }
  assert (Total (λ a b, Is_true (le b a))) as Hdesc.
  { intros a b. destruct (Hasc b a); auto. }
  case_decide.
  + eapply Sorted_ind with (P := Sorted (λ a b, le a b = true));
      [constructor| |by apply Sorted_merge_sort].
    intros a l _ Hl Hhd. constructor; [done|].
    destruct Hhd; constructor. by apply Is_true_true.
  + eapply Sorted_ind with (P := Sorted (λ a b, le b a = true));
      [constructor| |by apply Sorted_merge_sort].
    intros a l _ Hl Hhd. constructor; [done|].
    destruct Hhd; constructor. by apply Is_true_true.
Qed.

(** The sweep deletes the keys of the rows it selected. *)
Lemma sweep_run (rows : list (string * Job.t)) :
  ∀ w, ∃ w',
    for_each (λ row : string * Job.t,
                try_except (modify (with_db (delete row.1))) (λ e, ret tt))
      rows w = (Ok tt, w') ∧
    (∀ k, db w' !! k = if decide (k ∈ rows.*1) then None else db w !! k) ∧
    clock w' = clock w ∧ files w' = files w.
Proof.
  set (body := λ row : string * Job.t,
                 try_except (modify (with_db (delete row.1))) (λ e, ret tt)).
  induction rows as [|[k0 job0] rows IH]; intros w; cbn [for_each].
  - exists w. split; [done|]. split; [|done]. intros k.
    rewrite decide_False; [done|]. cbn. apply not_elem_of_nil.
  - unfold bind at 1. unfold body at 1. unfold try_except, modify. cbn [fst].
    destruct (IH (with_db (delete k0) w)) as (w' & -> & Hdb & Hclock & Hfiles).
    exists w'. split; [done|]. split; [|done]. intros k. rewrite Hdb. cbn.
    destruct (decide (k = k0)) as [->|Hne].
    + rewrite (decide_True (P := k0 ∈ k0 :: rows.*1)) by left.
      rewrite lookup_delete_eq. by case_decide.
    + rewrite lookup_delete_ne by done.
      destruct (decide (k ∈ rows.*1)) as [Hin|Hnin].
      * by rewrite decide_True by (by right).
      * rewrite decide_False; [done|]. by intros [?|?]%elem_of_cons.
Qed.

(** What one sweep leaves. *)
Lemma cleanup_expired_jobs_run (w : World) :
  ∃ w',
    JobService.cleanup_expired_jobs w = (Ok tt, w') ∧
    clock w' = clock w ∧
    ∀ k, db w' !! k =
         match db w !! k with
         | Some job =>
             if JobService.expired (clock w) job then None else Some job
         | None => None
         end.
Proof.
  unfold JobService.cleanup_expired_jobs, bind at 1, utcnow, gets.
  unfold bind, gets.
  set (rows := filter (λ row : string * Job.t,
                         JobService.expired (clock w) row.2 = true)
                 (map_to_list (db w))).
  destruct (sweep_run rows w) as (w' & Hrun & Hdb & Hclock & _).
  exists w'. split; [done|]. split; [done|]. intros k. rewrite Hdb.
  destruct (db w !! k) as [job|] eqn:Hk.
  - destruct (JobService.expired (clock w) job) eqn:Hexp.
    + rewrite decide_True; [done|].
      apply list_elem_of_fmap. exists (k, job). split; [done|].
      apply list_elem_of_filter. split; [done|]. by apply elem_of_map_to_list.
    + rewrite decide_False; [done|].
      intros ([k' job'] & -> & Hin)%list_elem_of_fmap.
      apply list_elem_of_filter in Hin as [Hexp' Hin].
      apply elem_of_map_to_list in Hin. cbn in *. congruence.
  - rewrite decide_False; [done|].
    intros ([k' job'] & -> & Hin)%list_elem_of_fmap.
    apply list_elem_of_filter in Hin as [_ Hin].
    apply elem_of_map_to_list in Hin. cbn in *. congruence.
Qed.

(** X8.  [cleanup_expired_jobs] removes exactly the rows whose expiry
    time lies before the current time, whoever owns them: a row that
    expires now or later, or that has no expiry time, stays as it is.
    A second sweep at the same time removes nothing more. *)
Theorem cleanup_removes_exactly_expired (w : World) :
  ∃ w',
    JobService.cleanup_expired_jobs w = (Ok tt, w') ∧
    (∀ k, db w' !! k =
          match db w !! k with
          | Some job =>
              if JobService.expired (clock w) job then None else Some job
          | None => None
          end) ∧
    db (JobService.cleanup_expired_jobs w').2 = db w'.
Proof.
  destruct (cleanup_expired_jobs_run w) as (w' & Hrun & Hclock & Hdb).
  exists w'. split; [exact Hrun|]. split; [exact Hdb|].
  destruct (cleanup_expired_jobs_run w') as (w'' & Hrun' & _ & Hdb').
  rewrite Hrun'. cbn. apply map_eq. intros k. rewrite Hdb', Hclock, Hdb.
  destruct (db w !! k) as [job|]; [|done].
  destruct (JobService.expired (clock w) job) eqn:Hexp; [done|].
  by rewrite Hexp.
Qed.

(** X9.  A submitted job is kept for seven days: a sweep at a time up to
    604800 seconds after the submission leaves its row alone, a sweep at
    any later time removes it, whatever its status. *)
Theorem submitted_job_is_kept_seven_days
    (composition_request : VideoCompositionRequest.t) (api_key : string)
    (w : World) (reply : JobSubmissionResponse.t) (w1 w2 : World) :
  Endpoints.submit_composition_job P composition_request api_key w =
    (Ok reply, w1) →
  (∃ row, db w2 !! JobResponse.id (JobSubmissionResponse.job reply) = Some row ∧
          Job.expires_at row =
            JobResponse.expires_at (JobSubmissionResponse.job reply)) →
  JobResponse.expires_at (JobSubmissionResponse.job reply) =
    Some (clock w + 604800)%N ∧
  ((clock w2 ≤ clock w + 604800)%N →
   db (JobService.cleanup_expired_jobs w2).2
     !! JobResponse.id (JobSubmissionResponse.job reply) =
   db w2 !! JobResponse.id (JobSubmissionResponse.job reply)) ∧
  ((clock w + 604800 < clock w2)%N →
   db (JobService.cleanup_expired_jobs w2).2
     !! JobResponse.id (JobSubmissionResponse.job reply) = None).
Proof.
  intros Hsubmit (row & Hrow & Hexp).
  apply submit_inv in Hsubmit
    as (job & Hreply & _ & _ & _ & _ & _ & _ & _ & _ & _ & _ & Hexpires).
  destruct (cleanup_expired_jobs_run w2) as (w3 & Hrun & _ & Hdb).
  rewrite Hrun, Hreply in *. cbn [snd]. rewrite !Hdb, Hrow.
  cbn in Hexp |- *. rewrite Hexpires in Hexp |- *.
  split; [done|].
  unfold JobService.expired. rewrite Hexp.
  change JobService.seven_days with 604800%N.
  split; intros Hcmp.
  - by rewrite (proj2 (N.ltb_ge _ _) Hcmp).
  - by rewrite (proj2 (N.ltb_lt _ _) Hcmp).
Qed.

End Listing.

(** ** Lengths of the clips that the compositor builds *)

Lemma fold_left_Qplus (l : list Q) (a : Q) :
  (fold_left Qplus l a == a + sum_of l)%Q.
Proof.
  unfold sum_of. revert a. induction l as [|x l IH]; intros a; cbn.
  - lra.
  - rewrite (IH (a + x)%Q), (IH (0 + x)%Q). lra.
Qed.

Lemma sum_of_cons (x : Q) (l : list Q) : (sum_of (x :: l) == x + sum_of l)%Q.
Proof. unfold sum_of at 1. cbn. rewrite fold_left_Qplus. lra. Qed.

Lemma sum_of_snoc (l : list Q) (x : Q) : sum_of (l ++ [x]) = (sum_of l + x)%Q.
Proof. unfold sum_of. by rewrite fold_left_app. Qed.

Section TransitionLengths.

(** X10.  A join other than a crossfade or a slide to the left plays the
    two clips one after the other, so it lasts the sum of their lengths;
    the transitions that are not implemented (slide right, up and down,
    zoom in and out) give the very clip that [none] gives.  A slide to
    the left lasts the first clip plus the window: of the second clip
    only the window is shown, whatever its own length. *)
Theorem join_lengths (clip1 clip2 : Clip) (transition : TransitionType.t)
    (duration : Q) :
  (transition ≠ TransitionType.CROSSFADE →
   transition ≠ TransitionType.SLIDE_LEFT →
   (clip_duration (VideoCompositionService.apply_transition clip1 clip2
                     transition duration)
    == clip_duration clip1 + clip_duration clip2)%Q) ∧
  (transition ∉ [TransitionType.NONE; TransitionType.FADE;
                 TransitionType.CROSSFADE; TransitionType.SLIDE_LEFT] →
   VideoCompositionService.apply_transition clip1 clip2 transition duration =
   VideoCompositionService.apply_transition clip1 clip2 TransitionType.NONE
     duration) ∧
  clip_duration (VideoCompositionService.apply_transition clip1 clip2
                   TransitionType.SLIDE_LEFT duration)
  = (clip_duration clip1 + duration)%Q.
Proof.
  split; [|split; [|done]].
  - intros Hc Hs. destruct transition; try done;
      unfold clip_duration; cbn; lra.
  - intros Hnot. destruct transition; try done;
      exfalso; apply Hnot; repeat constructor.
Qed.

Lemma join_length clip1 clip2 transition duration :
  transition ≠ TransitionType.CROSSFADE →
  transition ≠ TransitionType.SLIDE_LEFT →
  (clip_duration (VideoCompositionService.apply_transition clip1 clip2
                    transition duration)
   == clip_duration clip1 + clip_duration clip2)%Q.
Proof.
  intros Hc Hs. destruct transition; try done; unfold clip_duration; cbn; lra.
Qed.

(** The fold from the second scene on: what it adds to the running time
    and to the number of clips. *)
Lemma transitions_from_tail_lengths rest :
  ∀ i init tail finals, i ≠ 0 →
    fold_enumerate VideoCompositionService.transition_step i rest
      (init ++ [tail]) = Ok finals →
    length finals =
      (length init + 1 +
       length (filter (λ item : Clip * TransitionType.t,
                         item.2 = TransitionType.NONE) rest))%nat ∧
    ((∀ item, item ∈ rest →
        item.2 ≠ TransitionType.CROSSFADE ∧ item.2 ≠ TransitionType.SLIDE_LEFT) →
     (sum_of (List.map clip_duration finals)
      == sum_of (List.map clip_duration init) + clip_duration tail
         + sum_of (List.map clip_duration rest.*1))%Q).
Proof.
  induction rest as [|[clip transition] rest IH];
    intros i init tail finals Hi Hfold; cbn [fold_enumerate] in Hfold.
  - injection Hfold as <-. split; [rewrite length_app; cbn; lia|].
    intros _. rewrite List.map_app. cbn [List.map]. rewrite sum_of_snoc.
    change (sum_of (List.map clip_duration [].*1)) with 0%Q. lra.
  - rewrite transition_step_later in Hfold by done.
    destruct (decide (transition = TransitionType.NONE)) as [->|Hne].
    + change (init ++ [tail; clip]) with (init ++ [tail] ++ [clip]) in Hfold.
      rewrite (assoc_L (++) init [tail] [clip]) in Hfold.
      apply IH in Hfold as [Hlen Hsum]; [|done].
      split.
      * rewrite Hlen, filter_cons_True by done. rewrite length_app. cbn. lia.
      * intros Hok. rewrite Hsum by (intros item Hin; apply Hok; by right).
        rewrite List.map_app. cbn [List.map fmap list_fmap fst].
        rewrite sum_of_snoc, sum_of_cons. lra.
    + apply IH in Hfold as [Hlen Hsum]; [|done].
      split.
      * by rewrite Hlen, filter_cons_False by done.
      * intros Hok. rewrite Hsum by (intros item Hin; apply Hok; by right).
        destruct (Hok (clip, transition) ltac:(left)) as [Hc Hs].
        rewrite join_length by done.
        cbn [List.map fmap list_fmap fst]. rewrite sum_of_cons. lra.
Qed.

(** X11.  The loop over the materialised scenes leaves one clip for the
    first scene and one more for every later scene whose transition is
    [none].  When no later scene asks for a crossfade or a slide to the
    left, the clips it leaves last together exactly as long as the
    scenes' clips: nothing is shortened or overlapped. *)
Theorem transitions_keep_running_time (clip0 : Clip) (t0 : TransitionType.t)
    (rest : list (Clip * TransitionType.t)) :
  ∃ finals,
    VideoCompositionService.apply_transitions ((clip0, t0) :: rest) =
      Ok finals ∧
    length finals =
      S (length (filter (λ item : Clip * TransitionType.t,
                           item.2 = TransitionType.NONE) rest)) ∧
    ((∀ item, item ∈ rest →
        item.2 ≠ TransitionType.CROSSFADE ∧ item.2 ≠ TransitionType.SLIDE_LEFT) →
     (sum_of (List.map clip_duration finals)
      == sum_of (List.map clip_duration ((clip0, t0) :: rest).*1))%Q).
Proof.
  destruct (transitions_from_tail rest 1 [] clip0 ltac:(done))
    as (init & tail & Hfold).
  exists (init ++ [tail]). split; [exact Hfold|].
  apply transitions_from_tail_lengths in Hfold as [Hlen Hsum]; [|done].
  split; [by rewrite Hlen|]. intros Hok. rewrite (Hsum Hok).
  cbn [List.map fmap list_fmap fst]. rewrite sum_of_cons.
  unfold sum_of at 1. cbn. lra.
Qed.

End TransitionLengths.

(** ** What a scene materialises to *)

Section Materialiser.
Context (P : Platform).

(** X12.  The clip of a scene starts at 0 and never lasts longer than
    the scene asks for.  A source that passes the image check gives a
    still of exactly the requested length, for [image] and for
    [image/video] alike; the video decoder is consulted for [video], and
    for [image/video] only after the image check has failed, and then
    the clip is the file cut to the shorter of the requested length and
    its own length. *)
Theorem scene_clip_fits_scene (scene_name : string) (scene_data : SceneData.t)
    (target_resolution : nat * nat) (target_fps : nat) (w : World)
    (clip : Clip) (w' : World) :
  VideoCompositionService.create_clip_from_scene P scene_name scene_data
    target_resolution target_fps w = (Ok clip, w') →
  clip_start clip = 0%Q ∧
  (clip_duration clip <= SceneData.duration scene_data)%Q ∧
  ∃ media_path w0,
    VideoCompositionService.get_media_path P (SceneData.source scene_data) w =
      (Ok media_path, w0) ∧
    if decide (SceneData.media_type scene_data ≠ MediaType.VIDEO ∧
               is_ok (image_verify P media_path (files w0 !! media_path)) = true)
    then clip_duration clip = SceneData.duration scene_data
    else
      ∃ probe,
        video_probe P media_path (files w0 !! media_path) = Ok probe ∧
        SceneData.media_type scene_data ≠ MediaType.IMAGE ∧
        (clip_duration clip == Qmin (SceneData.duration scene_data) probe.1)%Q.
Proof.
  unfold VideoCompositionService.create_clip_from_scene, bind at 1.
  destruct (VideoCompositionService.get_media_path P
              (SceneData.source scene_data) w) as [[path|e] w0]; [|done].
  unfold try_except. intros Hrun.
  assert (∀ probe : Q * Q,
            let c := if Qeq_bool probe.2 (Qnat target_fps)
                     then resize (subclip (VideoFileClip (next_handle w0) path
                                             probe.1 probe.2)
                                    0 (Qmin (SceneData.duration scene_data) probe.1))
                            target_resolution
                     else set_fps
                            (resize (subclip (VideoFileClip (next_handle w0) path
                                                probe.1 probe.2)
                                       0 (Qmin (SceneData.duration scene_data)
                                            probe.1))
                               target_resolution) (Qnat target_fps) in
            clip_start c = 0%Q ∧
            (clip_duration c <= SceneData.duration scene_data)%Q ∧
            (clip_duration c == Qmin (SceneData.duration scene_data) probe.1)%Q)
    as Hvideo.
  { intros probe.
    pose proof (Q.le_min_l (SceneData.duration scene_data) probe.1).
    destruct (Qeq_bool _ _); unfold clip_start, clip_duration; cbn;
      (split; [done|]); split; lra. }
  cut (clip_start clip = 0%Q ∧
       (clip_duration clip <= SceneData.duration scene_data)%Q ∧
       if decide (SceneData.media_type scene_data ≠ MediaType.VIDEO ∧
                  is_ok (image_verify P path (files w0 !! path)) = true)
       then clip_duration clip = SceneData.duration scene_data
       else
         ∃ probe,
           video_probe P path (files w0 !! path) = Ok probe ∧
           SceneData.media_type scene_data ≠ MediaType.IMAGE ∧
           (clip_duration clip
            == Qmin (SceneData.duration scene_data) probe.1)%Q).
  { intros (? & ? & ?). split; [done|]. split; [done|]. by exists path, w0. }
  assert (∀ d, let c := set_fps (resize (ImageClip (next_handle w0) path d)
                                   target_resolution) (Qnat target_fps) in
               clip_start c = 0%Q ∧ clip_duration c = d) as Himage by done.
  destruct (SceneData.media_type scene_data) eqn:Hmt;
    rewrite ?load_image_run, ?load_video_run in Hrun;
    destruct (image_verify P path (files w0 !! path)) as [[]|e1]; cbn [is_ok];
    try match type of Hrun with
        | context [decide (?a = MediaType.IMAGE_VIDEO)] =>
            destruct (decide (a = MediaType.IMAGE_VIDEO)); [|done]
        end;
    rewrite ?load_video_run in Hrun;
    destruct (video_probe P path (files w0 !! path)) as [probe|e2];
    try discriminate Hrun;
    injection Hrun as <- <-;
    try (destruct (Hvideo probe) as (Hs & Hle & Heq));
    try (destruct (Himage (SceneData.duration scene_data)) as (Hs' & Heq'));
    first [ rewrite decide_True by done;
            split; [done|]; split; [rewrite Heq'; lra|done]
          | rewrite decide_False by (intros [? ?]; done);
            split; [done|]; split; [done|]; by exists probe ].
Qed.

(** X13.  A scene that fails does so in one of two ways.  A source that
    cannot be fetched or found fails with the error of the resolver, as
    it is: that call is made before the [try].  Otherwise the error is a
    [ValueError] "Failed to create clip from <scene>: <cause>", where
    the cause is the error of the image check for [image], and the error
    of the video decoder for [video] and for [image/video]: for
    [image/video] the image error is dropped. *)
Theorem scene_failure_report (scene_name : string) (scene_data : SceneData.t)
    (target_resolution : nat * nat) (target_fps : nat) (w : World)
    (e : Exception) (w' : World) :
  VideoCompositionService.create_clip_from_scene P scene_name scene_data
    target_resolution target_fps w = (Raise e, w') →
  VideoCompositionService.get_media_path P (SceneData.source scene_data) w =
    (Raise e, w') ∨
  ∃ media_path cause,
    VideoCompositionService.get_media_path P (SceneData.source scene_data) w =
      (Ok media_path, w') ∧
    e = ValueError ("Failed to create clip from " +:+ scene_name +:+ ": "
                    +:+ str cause) ∧
    match SceneData.media_type scene_data with
    | MediaType.IMAGE =>
        image_verify P media_path (files w' !! media_path) = Raise cause
    | MediaType.VIDEO =>
        video_probe P media_path (files w' !! media_path) = Raise cause
    | MediaType.IMAGE_VIDEO =>
        is_ok (image_verify P media_path (files w' !! media_path)) = false ∧
        video_probe P media_path (files w' !! media_path) = Raise cause
    end.
Proof.
  unfold VideoCompositionService.create_clip_from_scene, bind at 1.
  destruct (VideoCompositionService.get_media_path P
              (SceneData.source scene_data) w) as [[path|e0] w0];
    [|intros [= <- <-]; by left].
  unfold try_except. intros Hrun. right. exists path.
  destruct (SceneData.media_type scene_data) eqn:Hmt;
    rewrite ?load_image_run, ?load_video_run in Hrun;
    destruct (image_verify P path (files w0 !! path)) as [[]|e1] eqn:Himg;
    try match type of Hrun with
        | context [decide (?a = MediaType.IMAGE_VIDEO)] =>
            destruct (decide (a = MediaType.IMAGE_VIDEO))
        end;
    rewrite ?load_video_run in Hrun;
    try (destruct (video_probe P path (files w0 !! path))
           as [probe|e2] eqn:Hvid);
    try done;
    injection Hrun as <- <-;
    eexists; (split; [done|]); (split; [done|]); by rewrite ?Himg, ?Hvid.
Qed.

End Materialiser.

(** ** A render that succeeds *)

#[local] Instance same_rng_preorder : PreOrder (λ w w' : World, rng w' = rng w).
Proof. split; [done|]. intros w1 w2 w3 H1 H2. congruence. Qed.

#[local] Instance same_files_preorder :
  PreOrder (λ w w' : World, files w' = files w ∧ rng w' = rng w).
Proof.
  split; [done|]. intros w1 w2 w3 [H1 H1'] [H2 H2']. split; congruence.
Qed.

Section RenderResult.
Context (P : Platform).

(** The statements of a render that returns, one by one. *)
Lemma compose_video_ok_inv scenes fmt quality fps settings cb w path w' :
  VideoCompositionService.compose_video P scenes fmt quality fps settings cb w =
    (Ok path, w') →
  ∃ w1 clips w2 w3 final_clips w5 final_video w7 encoded w11 w12,
    VideoCompositionService.report cb "Creating clips from scenes" 10 w =
      (Ok tt, w1) ∧
    for_enumerate
      (VideoCompositionService.scene_step P cb (length scenes)
         (VideoCompositionService.QUALITY_RESOLUTIONS quality) fps)
      0 scenes [] w1 = (Ok clips, w2) ∧
    VideoCompositionService.report cb "Applying transitions" 70 w2 =
      (Ok tt, w3) ∧
    VideoCompositionService.apply_transitions clips = Ok final_clips ∧
    VideoCompositionService.report cb "Concatenating video" 80 w3 =
      (Ok tt, w5) ∧
    final_clips ≠ [] ∧
    final_video = match final_clips with
                  | [final_video] => final_video
                  | _ => concatenate_videoclips true final_clips
                  end ∧
    VideoCompositionService.report cb "Rendering final video" 90 w5 =
      (Ok tt, w7) ∧
    path = path_join (output_dir P)
             ("composition_" +:+ urandom_hex P (rng w7) +:+ "."
              +:+ VideoFormat.value fmt) ∧
    (if decide (fmt = VideoFormat.GIF)
     then write_gif P final_video (Nat.min fps 15) "ffmpeg"
     else write_videofile P final_video fps
            (VideoCompositionService.codec_settings fmt)) = Ok encoded ∧
    VideoCompositionService.report cb "Video composition complete" 100
      (with_files (insert path encoded) (with_rng S w7)) = (Ok tt, w11) ∧
    for_each (λ item : Clip * TransitionType.t, close item.1) clips w11 =
      (Ok tt, w12) ∧
    close final_video w12 = (Ok tt, w').
Proof.
  intros Hrun. unfold VideoCompositionService.compose_video in Hrun.
  apply try_except_reraise_inv in Hrun.
  apply bind_inv_ok in Hrun as ([] & w1 & Hrep10 & Hrun).
  apply bind_inv_ok in Hrun as (clips & w2 & Hloop & Hrun).
  apply bind_inv_ok in Hrun as ([] & w3 & Hrep70 & Hrun).
  apply bind_inv_ok in Hrun as (final_clips & w4 & Hfold & Hrun).
  injection Hfold as Hfold <-.
  apply bind_inv_ok in Hrun as ([] & w5 & Hrep80 & Hrun).
  apply bind_inv_ok in Hrun as (final_video & w6 & Hfinal & Hrun).
  apply bind_inv_ok in Hrun as ([] & w7 & Hrep90 & Hrun).
  apply bind_inv_ok in Hrun as (hex & w8 & Hhex & Hrun).
  injection Hhex as <- <-.
  apply bind_inv_ok in Hrun as (encoded & w9 & Henc & Hrun).
  injection Henc as Henc <-.
  apply bind_inv_ok in Hrun as ([] & w10 & Hwrite & Hrun).
  injection Hwrite as <-.
  apply bind_inv_ok in Hrun as ([] & w11 & Hrep100 & Hrun).
  apply bind_inv_ok in Hrun as ([] & w12 & Hclose & Hrun).
  apply bind_inv_ok in Hrun as ([] & w13 & Hclose' & Hrun).
  injection Hrun as <- <-.
  exists w1, clips, w2, w3, final_clips, w5, final_video, w7, encoded, w11, w12.
  assert (final_clips ≠ [] ∧ w6 = w5 ∧
          final_video = match final_clips with
                        | [final_video] => final_video
                        | _ => concatenate_videoclips true final_clips
                        end) as (Hne & -> & Hvideo).
  { destruct final_clips as [|c [|c' rest]]; [done| |];
      by injection Hfinal as <- <-. }
  done.
Qed.

Lemma create_clip_lengths name data res fps w clip w' :
  VideoCompositionService.create_clip_from_scene P name data res fps w =
    (Ok clip, w') →
  (clip_duration clip <= SceneData.duration data)%Q ∧
  (SceneData.media_type data = MediaType.IMAGE →
   clip_duration clip = SceneData.duration data).
Proof.
  unfold VideoCompositionService.create_clip_from_scene, bind at 1.
  destruct (VideoCompositionService.get_media_path P (SceneData.source data) w)
    as [[path|e] w0]; [|done].
  unfold try_except. intros Hrun.
  destruct (SceneData.media_type data) eqn:Hmt;
    rewrite ?load_image_run, ?load_video_run in Hrun;
    destruct (image_verify P path (files w0 !! path)) as [[]|e1];
    try match type of Hrun with
        | context [decide (?a = MediaType.IMAGE_VIDEO)] =>
            destruct (decide (a = MediaType.IMAGE_VIDEO)); [|done]
        end;
    rewrite ?load_video_run in Hrun;
    destruct (video_probe P path (files w0 !! path)) as [probe|e2];
    try discriminate Hrun;
    injection Hrun as <- <-;
    try pose proof (Q.le_min_l (SceneData.duration data) probe.1);
    (split; [|done]);
    try destruct (Qeq_bool _ _); unfold clip_duration; cbn; lra.
Qed.

(** The scene loop gives every scene its clip, in order, with the
    scene's transition. *)
Lemma scene_loop_lengths cb n res fps items :
  ∀ start acc w clips w',
    for_enumerate (VideoCompositionService.scene_step P cb n res fps)
      start items acc w = (Ok clips, w') →
    ∃ new, clips = acc ++ new ∧
      Forall2 (λ (item : Clip * TransitionType.t) (scene : string * SceneData.t),
                 item.2 = SceneData.transition scene.2 ∧
                 (clip_duration item.1 <= SceneData.duration scene.2)%Q ∧
                 (SceneData.media_type scene.2 = MediaType.IMAGE →
                  clip_duration item.1 = SceneData.duration scene.2))
        new items.
Proof.
  induction items as [|[name data] items IH]; intros start acc w clips w' Hrun.
  - injection Hrun as <- <-. exists []. by rewrite app_nil_r.
  - cbn [for_enumerate] in Hrun.
    apply bind_inv_ok in Hrun as (acc1 & w1 & Hstep & Hrest).
    unfold VideoCompositionService.scene_step in Hstep.
    apply bind_inv_ok in Hstep as ([] & w0 & _ & Hstep).
    apply bind_inv_ok in Hstep as (clip & w0' & Hclip & Hret).
    injection Hret as <- <-.
    apply create_clip_lengths in Hclip as [Hle Himage].
    destruct (IH _ _ _ _ _ Hrest) as (new & -> & Hall).
    exists ((clip, SceneData.transition data) :: new).
    rewrite <- (assoc_L (++)). split; [done|]. by constructor.
Qed.

(** X14.  A render whose progress callback writes no file and draws no
    random bytes, and that returns, has drawn random bytes once and has
    left the encoder's output under the path it returns,
    [<output_dir>/composition_<hex>.<format>].  A GIF is encoded by
    [write_gif] at the requested rate or at 15 frames per second,
    whichever is lower; every other format by [write_videofile] at the
    requested rate with the codecs of that format. *)
Theorem compose_video_writes_output (scenes : list (string * SceneData.t))
    (fmt : VideoFormat.t) (quality : VideoQuality.t) (fps : nat)
    (settings : CompositionSettings.t) (cb : option (string → Q → M unit))
    (w : World) (path : string) (w' : World) :
  (∀ callback, cb = Some callback →
     ∀ m q, preserves (λ w w', files w' = files w ∧ rng w' = rng w)
              (callback m q)) →
  VideoCompositionService.compose_video P scenes fmt quality fps settings cb w =
    (Ok path, w') →
  path = path_join (output_dir P)
           ("composition_" +:+ urandom_hex P (rng w) +:+ "."
            +:+ VideoFormat.value fmt) ∧
  rng w' = S (rng w) ∧
  ∃ final_video encoded,
    files w' !! path = Some encoded ∧
    (if decide (fmt = VideoFormat.GIF)
     then write_gif P final_video (Nat.min fps 15) "ffmpeg"
     else write_videofile P final_video fps
            (VideoCompositionService.codec_settings fmt)) = Ok encoded.
Proof.
  intros Hcb Hrun.
  set (Rr := λ w w' : World, rng w' = rng w).
  set (Rf := λ w w' : World, files w' = files w ∧ rng w' = rng w) in *.
  assert (∀ msg p, preserves Rf (VideoCompositionService.report cb msg p))
    as Hrepf by (intros; apply preserves_report; first [apply _ | done]).
  assert (∀ msg p, preserves Rr (VideoCompositionService.report cb msg p))
    as Hrepr.
  { intros msg p. apply (preserves_weaken Rf); [by intros ? ? [_ ?]|done]. }
  assert (∀ c, preserves Rf (close c)) as Hclose.
  { intros c. unfold close. destruct (root_handle c); keeps_step. }
  apply compose_video_ok_inv in Hrun
    as (w1 & clips & w2 & w3 & final_clips & w5 & final_video & w7 & encoded
        & w11 & w12 & H10 & Hloop & H70 & _ & H80 & _ & _ & H90 & Hpath & Henc
        & H100 & Hcl & Hcl').
  apply (run_preserved Rr) in H10; [|done].
  apply (run_preserved Rr) in Hloop;
    [|apply preserves_scene_loop;
        first [apply _ | done | by intros ?
              | intros callback Hsome m q;
                apply (preserves_weaken Rf); [by intros ? ? [_ ?]|by apply Hcb]]].
  apply (run_preserved Rr) in H70; [|done].
  apply (run_preserved Rr) in H80; [|done].
  apply (run_preserved Rr) in H90; [|done].
  assert (rng w7 = rng w) as Hrng by (unfold Rr in *; congruence).
  apply (run_preserved Rf) in H100 as [Hf11 Hr11]; [|done].
  apply (run_preserved Rf) in Hcl as [Hf12 Hr12];
    [|apply preserves_for_each; [apply _|intros ?; apply Hclose]].
  apply (run_preserved Rf) in Hcl' as [Hf' Hr']; [|done].
  rewrite Hrng in Hpath. split; [done|].
  split; [rewrite Hr', Hr12, Hr11; cbn; by rewrite Hrng|].
  exists final_video, encoded. split; [|done].
  rewrite Hf', Hf12, Hf11. cbn. apply lookup_insert_eq.
Qed.

(** C8.  The pipeline folds the materialised scenes from the left.  A
    render that returns has made one clip per scene, in the order of the
    scenes and each with its scene's transition, and what it hands to
    the encoder is the outcome of the loop over these clips (the one
    clip that is left, or the concatenation of those that are).  The
    first clip alone starts the accumulator and its transition is never
    looked at.  Every later scene is joined onto the tail of what has
    been accumulated from the scenes before it, with that scene's own
    transition: with [none] its clip is put after the tail, otherwise
    the tail is replaced by [apply_transition tail clip transition].
    Nothing that was accumulated before the tail changes, and the loop
    never fails. *)
Theorem transitions_fold_left (scenes : list (string * SceneData.t))
    (fmt : VideoFormat.t) (quality : VideoQuality.t) (fps : nat)
    (settings : CompositionSettings.t) (cb : option (string → Q → M unit))
    (w : World) (path : string) (w' : World) :
  VideoCompositionService.compose_video P scenes fmt quality fps settings cb w =
    (Ok path, w') →
  ∃ clip0 t0 rest final_clips encoded,
    (∃ w1 w2,
       for_enumerate
         (VideoCompositionService.scene_step P cb (length scenes)
            (VideoCompositionService.QUALITY_RESOLUTIONS quality) fps)
         0 scenes [] w1 = (Ok ((clip0, t0) :: rest), w2)) ∧
    ((clip0, t0) :: rest).*2 =
      (λ scene : string * SceneData.t, SceneData.transition scene.2)
        <$> scenes ∧
    VideoCompositionService.apply_transitions ((clip0, t0) :: rest) =
      Ok final_clips ∧
    (if decide (fmt = VideoFormat.GIF)
     then write_gif P
            match final_clips with
            | [final_video] => final_video
            | _ => concatenate_videoclips true final_clips
            end (Nat.min fps 15) "ffmpeg"
     else write_videofile P
            match final_clips with
            | [final_video] => final_video
            | _ => concatenate_videoclips true final_clips
            end fps (VideoCompositionService.codec_settings fmt)) =
      Ok encoded ∧
    VideoCompositionService.apply_transitions [(clip0, t0)] = Ok [clip0] ∧
    (∀ t0', VideoCompositionService.apply_transitions ((clip0, t0') :: rest) =
            VideoCompositionService.apply_transitions ((clip0, t0) :: rest)) ∧
    ∀ before clip transition after,
      rest = before ++ (clip, transition) :: after →
      ∃ init tail,
        VideoCompositionService.apply_transitions ((clip0, t0) :: before) =
          Ok (init ++ [tail])%list ∧
        VideoCompositionService.apply_transitions
          (((clip0, t0) :: before) ++ [(clip, transition)]) =
          Ok (if decide (transition = TransitionType.NONE)
              then init ++ [tail; clip]
              else init ++ [VideoCompositionService.apply_transition tail clip
                              transition (1 # 2)])%list.
Proof.
  intros Hrun.
  apply compose_video_ok_inv in Hrun
    as (w1 & clips & w2 & w3 & final_clips & w5 & final_video & w7 & encoded
        & w11 & w12 & _ & Hloop & _ & Hfold & _ & Hne & Hvideo & _ & _ & Henc
        & _).
  destruct (scene_loop_lengths _ _ _ _ _ _ _ _ _ _ Hloop)
    as (new & Hclips & Hall).
  cbn in Hclips. subst new.
  destruct clips as [|[clip0 t0] rest].
  { injection Hfold as <-. done. }
  exists clip0, t0, rest, final_clips, encoded.
  split; [by exists w1, w2|]. split.
  { clear -Hall.
    induction Hall as [|item scene new items (Ht & _) _ IH]; [done|].
    cbn. by rewrite Ht, <- IH. }
  split; [exact Hfold|]. split; [by rewrite <- Hvideo|].
  destruct (apply_transitions_snoc clip0 t0 rest clip0 t0) as (Hfirst & Hhead & _).
  split; [exact Hfirst|]. split; [exact Hhead|].
  intros before clip transition after _.
  by destruct (apply_transitions_snoc clip0 t0 before clip transition)
    as (_ & _ & Hstep).
Qed.

End RenderResult.

(** ** Authentication and rate limiting *)

Lemma substring_all (s : string) : String.substring 0 (String.length s) s = s.
Proof. induction s; cbn; congruence. Qed.

Lemma prefix_bearer (h : string) :
  String.prefix "Bearer " h = true →
  h = "Bearer " +:+ String.substring 7 (String.length h - 7) h.
Proof.
  intros H.
  do 7 (destruct h as [|? h]; [done|]; cbn [String.prefix] in H;
        destruct (Ascii.ascii_dec _ _) as [<-|]; [|done]).
  cbn. rewrite Nat.sub_0_r. by rewrite substring_all.
Qed.

Lemma redis_count_after (now now' : Z) (key : string) (window : Z)
    (r : Redis.t) :
  (0 < window)%Z → (now' < now + window)%Z →
  Redis.get now' key (Redis.expire now key window (Redis.incr now key r)) =
    Some (default 0 (Redis.get now key r) + 1)%Z.
Proof.
  intros Hwin Hlive.
  assert (∀ v dl, (match dl with Some d => (now <? d)%Z | None => true end) = true →
            Redis.get now' key
              (Redis.expire now key window (<[key := (v, dl)]> r)) = Some v)
    as Hset.
  { intros v dl Hdl. unfold Redis.expire, Redis.get at 2, Redis.t.
    rewrite lookup_insert_eq.
    assert ((match dl with
             | Some deadline => if (now <? deadline)%Z then Some v else None
             | None => Some v
             end) = Some v) as -> by (destruct dl; [by rewrite Hdl|done]).
    rewrite (proj2 (Z.ltb_lt 0 window) Hwin).
    unfold Redis.get, Redis.t. rewrite lookup_insert_eq.
    by rewrite (proj2 (Z.ltb_lt _ _) Hlive). }
  unfold Redis.incr, Redis.get at 2.
  destruct (r !! key) as [[v [d|]]|]; [destruct (now <? d)%Z eqn:Hd| |];
    by rewrite Hset.
Qed.

Lemma redis_other_keys (now : Z) (key k : string) (window : Z) (r : Redis.t) :
  k ≠ key →
  Redis.expire now key window (Redis.incr now key r) !! k = r !! k.
Proof.
  intros Hne.
  assert (Redis.incr now key r !! k = r !! k) as Hincr.
  { unfold Redis.incr.
    destruct (r !! key) as [[v [d|]]|]; [destruct (now <? d)%Z| |];
      unfold Redis.t; by rewrite lookup_insert_ne. }
  unfold Redis.expire. destruct (Redis.get now key _); [|done].
  unfold Redis.t in *.
  destruct (0 <? window)%Z; [by rewrite lookup_insert_ne|].
  by rewrite lookup_delete_ne.
Qed.

Lemma same_window_live (now now' window : Z) :
  (0 < window)%Z → (now' / window = now / window)%Z →
  (now' < now + window)%Z.
Proof.
  intros Hwin Hsame.
  pose proof (Z.mul_div_le now window Hwin).
  pose proof (Z.mul_succ_div_gt now' window Hwin). rewrite Hsame in *. lia.
Qed.

Section Access.
Context (settings : Settings.t).

(** X16.  [get_api_key] accepts a request exactly when its
    [authorization] header is "Bearer " followed by a configured key
    that is not empty, and then returns that key: everything after the
    seventh character, as it is.  Every other request is refused with
    status 401 and the header [WWW-Authenticate: Bearer]. *)
Theorem get_api_key_accepts_bearer_keys (authorization : option string) :
  (∀ api_key,
     Auth.get_api_key settings authorization = inr api_key ↔
     authorization = Some ("Bearer " +:+ api_key) ∧ api_key ≠ "" ∧
     api_key ∈ Settings.api_keys settings) ∧
  (∀ e, Auth.get_api_key settings authorization = inl e →
        ∃ detail, e = Auth.HTTPError 401 detail [("WWW-Authenticate", "Bearer")]).
Proof.
  split.
  - intros api_key. split.
    + unfold Auth.get_api_key. destruct authorization as [h|]; [|done].
      case_decide; [done|].
      destruct (String.prefix "Bearer " h) eqn:Hprefix; [|done]. cbn [negb].
      case_decide; [done|].
      unfold Auth.validate_api_key.
      destruct (bool_decide _) eqn:Hvalid; [|done]. cbn [negb].
      intros [= <-]. apply bool_decide_eq_true in Hvalid.
      split; [|done]. f_equal. by apply prefix_bearer.
    + intros (-> & Hne & Hin). unfold Auth.get_api_key.
      rewrite decide_False by done.
      assert (String.prefix "Bearer " ("Bearer " +:+ api_key) = true) as ->.
      { simpl. by destruct api_key. }
      assert (Auth.after_bearer ("Bearer " +:+ api_key) = api_key) as ->.
      { unfold Auth.after_bearer. simpl.
        change ("" +:+ api_key) with api_key.
        rewrite Nat.sub_0_r. apply substring_all. }
      cbn [negb]. rewrite decide_False by done.
      unfold Auth.validate_api_key. by rewrite bool_decide_eq_true_2.
  - intros e. unfold Auth.get_api_key, Auth.unauthorized.
    destruct authorization as [h|]; [|intros [= <-]; eauto].
    case_decide; [intros [= <-]; eauto|].
    destruct (negb (String.prefix _ _)); [intros [= <-]; eauto|].
    case_decide; [intros [= <-]; eauto|].
    destruct (negb _); [intros [= <-]; eauto|done].
Qed.

(** What one check with Redis at hand answers and leaves. *)
Lemma service_check_run (now : Z) (api_key : string) (r : Redis.t) :
  (0 < Settings.rate_limit_window settings)%Z →
  let limit := Settings.rate_limit_requests settings in
  let window := Settings.rate_limit_window settings in
  let key := Auth.rate_limit_key api_key (now / window) in
  let count := default 0%Z (Redis.get now key r) in
  let reset := ((now / window + 1) * window)%Z in
  Auth.service_check_rate_limit settings now api_key (Some r) =
    if decide (limit ≤ count)%Z
    then inr (false, RateLimitInfo.mk 0 limit reset window, Some r)
    else inr (true, RateLimitInfo.mk (limit - count - 1) limit reset window,
              Some (Redis.expire now key window (Redis.incr now key r))).
Proof.
  intros Hwin limit window key count reset.
  unfold Auth.service_check_rate_limit.
  rewrite decide_False by (fold window; lia).
  fold limit window key count reset.
  destruct (decide (limit ≤ count)%Z) as [Hfull|Hroom]; cbn.
  - by rewrite Z.max_l by lia.
  - by rewrite Z.max_r by lia.
Qed.

(** X17.  With Redis at hand and a window of positive length, a check is
    admitted exactly when the counter of the key for the current window
    is below the limit.  An admitted check adds one to that counter,
    which then stays readable until the window ends, leaves every other
    counter alone and reports how many requests are left after this one;
    a refused check changes nothing in Redis and reports that none is
    left. *)
Theorem rate_limit_counts_allowed_requests (now : Z) (api_key : string)
    (r : Redis.t) :
  (0 < Settings.rate_limit_window settings)%Z →
  let limit := Settings.rate_limit_requests settings in
  let window := Settings.rate_limit_window settings in
  let key := Auth.rate_limit_key api_key (now / window) in
  let count := default 0%Z (Redis.get now key r) in
  ∃ is_allowed info r',
    Auth.service_check_rate_limit settings now api_key (Some r) =
      inr (is_allowed, info, Some r') ∧
    (is_allowed = true ↔ (count < limit)%Z) ∧
    RateLimitInfo.requests_limit info = limit ∧
    if is_allowed
    then RateLimitInfo.requests_remaining info = (limit - (count + 1))%Z ∧
         (∀ later, (later / window = now / window)%Z →
                   Redis.get later key r' = Some (count + 1)%Z) ∧
         (∀ k, k ≠ key → r' !! k = r !! k)
    else RateLimitInfo.requests_remaining info = 0%Z ∧ r' = r.
Proof.
  intros Hwin limit window key count.
  pose proof (service_check_run now api_key r Hwin) as Hrun.
  cbn zeta in Hrun. fold limit window key count in Hrun. rewrite Hrun.
  destruct (decide (limit ≤ count)%Z) as [Hfull|Hroom].
  - eexists false, _, r. split; [done|]. split; [split; [done|lia]|].
    by split.
  - eexists true, _, _. split; [done|]. split; [split; [lia|done]|].
    split; [done|]. split; [cbn; lia|]. split.
    + intros later Hsame. apply redis_count_after; [done|].
      by apply same_window_live.
    + intros k Hk. by apply redis_other_keys.
Qed.

Lemma all_refused (limit c : Z) (n : nat) :
  (limit ≤ c)%Z →
  ∀ start,
    (λ i : nat, bool_decide (c + Z.of_nat i < limit)%Z) <$> seq start n =
    replicate n false.
Proof.
  intros Hfull. induction n as [|n IH]; intros start; [done|].
  cbn. rewrite IH. f_equal. apply bool_decide_eq_false_2. lia.
Qed.

Lemma successive_checks_from (api_key : string) (ws : Z) (times : list Z) :
  (0 < Settings.rate_limit_window settings)%Z →
  Forall (λ t, (t / Settings.rate_limit_window settings)%Z = ws) times →
  ∀ (c : Z) (r : Redis.t),
    (∀ t, t ∈ times →
          default 0%Z (Redis.get t (Auth.rate_limit_key api_key ws) r) = c) →
    successive_checks settings times api_key r =
      (λ i : nat,
         bool_decide (c + Z.of_nat i < Settings.rate_limit_requests settings)%Z)
      <$> seq 0 (length times).
Proof.
  intros Hwin Hsame.
  induction Hsame as [|t times Ht Hsame IH]; intros c r Hcount; [done|].
  cbn [successive_checks length seq fmap list_fmap].
  pose proof (service_check_run t api_key r Hwin) as Hrun.
  cbn zeta in Hrun. rewrite Ht, (Hcount t ltac:(left)) in Hrun. rewrite Hrun.
  destruct (decide (Settings.rate_limit_requests settings ≤ c)%Z)
    as [Hfull|Hroom].
  - rewrite bool_decide_eq_false_2 by lia. f_equal.
    rewrite (IH c r) by (intros t' Ht'; apply Hcount; by right).
    by rewrite !all_refused.
  - rewrite bool_decide_eq_true_2 by lia. f_equal.
    rewrite (IH (c + 1)%Z).
    + rewrite <- fmap_S_seq, <- list_fmap_compose. apply list_fmap_ext.
      intros _ i _. cbn. apply bool_decide_ext. lia.
    + intros t' Ht'.
      rewrite redis_count_after; [cbn; by rewrite (Hcount t ltac:(left))|done|].
      apply same_window_live; [done|].
      rewrite Ht. by eapply (proj1 (Forall_forall _ _) Hsame).
Qed.

(** X18.  Within one window of positive length, starting with no counter
    for the key, of any number of checks the first [rate_limit_requests]
    are admitted and every later one is refused, at whatever times of
    the window they arrive. *)
Theorem rate_limit_allows_limit_per_window (api_key : string) (ws : Z)
    (times : list Z) (r : Redis.t) :
  (0 < Settings.rate_limit_window settings)%Z →
  Forall (λ t, (t / Settings.rate_limit_window settings)%Z = ws) times →
  r !! Auth.rate_limit_key api_key ws = None →
  successive_checks settings times api_key r =
    (λ i : nat,
       bool_decide (Z.of_nat i < Settings.rate_limit_requests settings)%Z)
    <$> seq 0 (length times).
Proof.
  intros Hwin Hsame Hfresh.
  rewrite (successive_checks_from api_key ws times Hwin Hsame 0%Z r).
  - apply list_fmap_ext. intros _ i _. apply bool_decide_ext. lia.
  - intros t _. unfold Redis.get. by rewrite Hfresh.
Qed.

(** X19.  Without Redis no request is ever refused for its rate: the
    dependency [check_rate_limit] answers with the full quota, or with
    the 401 of [get_api_key] when it has to read the key from the
    request.  A window of zero seconds is the exception: the division
    comes before the [try], so every check raises [ZeroDivisionError],
    with or without Redis. *)
Theorem rate_limit_fails_open (now : Z) (authorization : option string)
    (api_key : option string) (redis : option Redis.t) :
  (Settings.rate_limit_window settings ≠ 0%Z →
   match Auth.check_rate_limit settings now authorization api_key None with
   | inr (info, _) =>
       RateLimitInfo.requests_remaining info =
         Settings.rate_limit_requests settings
   | inl e =>
       Auth.get_api_key settings authorization = inl e ∧
       (api_key = None ∨ api_key = Some "")
   end) ∧
  (Settings.rate_limit_window settings = 0%Z →
   match Auth.check_rate_limit settings now authorization api_key redis with
   | inr _ => False
   | inl e =>
       e = Auth.ZeroDivisionError ∨
       (Auth.get_api_key settings authorization = inl e ∧
        (api_key = None ∨ api_key = Some ""))
   end).
Proof.
  split; intros Hwin; unfold Auth.check_rate_limit,
    Auth.service_check_rate_limit; cbn zeta.
  - destruct api_key as [k|]; [destruct (decide (k = "")) as [->|]|];
      try destruct (Auth.get_api_key settings authorization);
      auto; by rewrite decide_False by done.
  - destruct api_key as [k|]; [destruct (decide (k = "")) as [->|]|];
      try destruct (Auth.get_api_key settings authorization);
      auto; rewrite decide_True by done; auto.
Qed.

End Access.

(** ** The status predicates of a row *)

Section StatusPredicates.

(** X20.  [update_job_status] agrees with the predicates of the model:
    the row it leaves is stamped with [completed_at] exactly when it is
    finished ([is_finished]), and keeps the [completed_at] it had when
    it is not, also when a finished job is moved back.  The retry
    counters are never written, so the row can be retried
    ([can_retry]) exactly when the new status is [failed] and the
    retries it had are below its maximum. *)
Theorem status_update_agrees_with_predicates (w : World)
    (job_id api_key : string) (status : JobStatus.t) (job : Job.t) :
  owned_by w job_id api_key job →
  ∃ row w',
    JobService.update_job_status job_id api_key status w = (Ok true, w') ∧
    owned_by w' job_id api_key row ∧
    Job.status row = status ∧
    Job.completed_at row =
      (if Job.is_finished row then Some (clock w) else Job.completed_at job) ∧
    Job.can_retry row =
      bool_decide (status = JobStatus.FAILED ∧
                   (Job.retry_count job < Job.max_retries job)%nat) ∧
    Job.is_processing row =
      bool_decide (status = JobStatus.QUEUED ∨ status = JobStatus.PROCESSING).
Proof.
  intros Ho. exists (status_written status (clock w) job).
  eexists. split; [by apply update_job_status_owned|].
  destruct (status_written_fields status (clock w) job)
    as (Hs & _ & _ & _ & _ & Hc).
  destruct (status_written_frame status (clock w) job)
    as (_ & _ & _ & _ & _ & _ & _ & _ & Hrc & Hmr & _).
  split; [apply owned_by_after_update; by destruct Ho|].
  split; [done|].
  unfold Job.is_finished, Job.can_retry, Job.is_processing.
  rewrite Hc, Hs, Hrc, Hmr.
  destruct status; cbn -[Nat.ltb]; (split; [done|]); split;
    try (symmetry; apply bool_decide_eq_false_2; intros [? ?]; done);
    try (symmetry; apply bool_decide_eq_false_2; intros [?|?]; done);
    try (symmetry; by apply bool_decide_eq_true_2; auto).
  destruct (Nat.ltb_spec (Job.retry_count job) (Job.max_retries job)).
  - symmetry. by apply bool_decide_eq_true_2.
  - symmetry. apply bool_decide_eq_false_2. intros [_ ?]. lia.
Qed.

End StatusPredicates.

Section Refusal.
Context (settings : Settings.t).

(** X21.  For a caller whose key is given, with Redis at hand and a
    window of positive length, the dependency [check_rate_limit] raises
    exactly when the counter of the current window has reached the
    limit.  What it raises is status 429 "Rate limit exceeded" with the
    limit, zero requests remaining, the end of the window and the length
    of the window in its headers, and Redis is left as it was. *)
Theorem rate_limit_refusal_is_429 (now : Z) (authorization : option string)
    (api_key : string) (r : Redis.t) :
  (0 < Settings.rate_limit_window settings)%Z →
  api_key ≠ "" →
  let limit := Settings.rate_limit_requests settings in
  let window := Settings.rate_limit_window settings in
  let count :=
    default 0%Z
      (Redis.get now (Auth.rate_limit_key api_key (now / window)) r) in
  match Auth.check_rate_limit settings now authorization (Some api_key)
          (Some r) with
  | inl e =>
      (limit ≤ count)%Z ∧
      e = Auth.HTTPError 429 "Rate limit exceeded"
            [("X-RateLimit-Limit", pretty limit);
             ("X-RateLimit-Remaining", "0");
             ("X-RateLimit-Reset", pretty ((now / window + 1) * window)%Z);
             ("Retry-After", pretty window)]
  | inr (info, _) =>
      (count < limit)%Z ∧
      RateLimitInfo.requests_remaining info = (limit - count - 1)%Z
  end.
Proof.
  intros Hwin Hkey limit window count.
  unfold Auth.check_rate_limit. rewrite decide_False by done.
  pose proof (service_check_run settings now api_key r Hwin) as Hrun.
  cbn zeta in Hrun. fold limit window count in Hrun. rewrite Hrun.
  destruct (decide (limit ≤ count)%Z) as [Hfull|Hroom]; cbn.
  - done.
  - split; [lia|done].
Qed.

End Refusal.

(** ** Files of the resolver and reports of a failed render *)

#[local] Instance reports_below_preorder bound : PreOrder (reports_below bound).
Proof.
  split.
  - intros w. exists []. by rewrite app_nil_r.
  - intros w1 w2 w3 (l1 & H1 & Hl1) (l2 & H2 & Hl2). exists (l1 ++ l2).
    split; [by rewrite H2, H1, <- (assoc_L (++))|]. by apply Forall_app.
Qed.

#[local] Instance only_file_preorder (path : string) :
  PreOrder (λ w w' : World, ∀ q, q ≠ path → files w' !! q = files w !! q).
Proof.
  split; [done|]. intros w1 w2 w3 H1 H2 q Hq. by rewrite H2, H1.
Qed.

Lemma reports_below_same_store bound w w' :
  same_store w w' → reports_below bound w w'.
Proof. intros (_ & _ & Hlog). exists []. by rewrite app_nil_r. Qed.

Lemma reports_below_files bound f w : reports_below bound w (with_files f w).
Proof. by apply reports_below_same_store. Qed.

Lemma reports_below_rng bound f w : reports_below bound w (with_rng f w).
Proof. by apply reports_below_same_store. Qed.

Section Leftovers.
Context (P : Platform).

(** X22.  A download writes one file, its scratch file, and replaces
    whatever that file held: afterwards it holds the chunks of this
    body, and every other file is as before.  When the transfer breaks
    the download raises, but the scratch file stays, with the chunks
    that had arrived.  A request that fails, or is answered with a
    status other than 200, writes nothing. *)
Theorem download_touches_only_its_scratch_file (url : string) (w : World) :
  match http_get P url with
  | Ok response =>
      if decide (HTTPResponse.status response = 200)
      then
        ∃ r w',
          VideoCompositionService.download_media_from_url P url w = (r, w') ∧
          files w' !! scratch_file P url response = Some (body_of response) ∧
          (∀ q, q ≠ scratch_file P url response →
                files w' !! q = files w !! q) ∧
          (is_ok r = true ↔ HTTPResponse.stream_error response = None)
      else
        ∃ e, VideoCompositionService.download_media_from_url P url w =
               (Raise e, w)
  | Raise _ =>
      ∃ e, VideoCompositionService.download_media_from_url P url w =
             (Raise e, w)
  end.
Proof.
  pose proof (download_run P url w) as Hrun.
  destruct (http_get P url) as [response|e0] eqn:Hget; [|eauto].
  destruct (decide (HTTPResponse.status response = 200)) as [Hs|Hs]; [|eauto].
  destruct Hrun as (w' & _ & Hfile & Hrun).
  eexists _, w'. split; [exact Hrun|]. split; [exact Hfile|]. split.
  - set (path := scratch_file P url response) in *.
    set (R := λ w w' : World, ∀ q, q ≠ path → files w' !! q = files w !! q).
    assert (∀ f, (∀ fs q, q ≠ path → f fs !! q = fs !! q) →
                 preserves R (modify (with_files f))) as Hmodify.
    { intros f Hf. apply preserves_modify. intros w0 q Hq. by apply Hf. }
    assert (preserves R
              (VideoCompositionService.open_wb path ;;
               for_each (VideoCompositionService.write path)
                 (HTTPResponse.chunks response) ;;
               match HTTPResponse.stream_error response with
               | Some e => raise e
               | None => ret path
               end)%py) as Hkeeps.
    { apply preserves_bind; [apply _| |intros _].
      - apply Hmodify. intros fs q Hq. by apply lookup_insert_ne.
      - apply preserves_bind; [apply _| |intros _].
        + apply preserves_for_each; [apply _|]. intros chunk.
          apply Hmodify. intros fs q Hq. by apply lookup_insert_ne.
        + destruct (HTTPResponse.stream_error response);
            [apply preserves_raise|apply preserves_ret]; apply _. }
    unfold VideoCompositionService.download_media_from_url, try_except,
      bind at 1, lift in Hrun.
    rewrite Hget, decide_False in Hrun by (intros Hn; by apply Hn).
    fold (scratch_file P url response) in Hrun. fold path in Hrun.
    specialize (Hkeeps w).
    destruct ((VideoCompositionService.open_wb path ;;
               for_each (VideoCompositionService.write path)
                 (HTTPResponse.chunks response) ;;
               match HTTPResponse.stream_error response with
               | Some e => raise e
               | None => ret path
               end)%py w) as [[a|e] w1]; cbn in Hkeeps;
      by injection Hrun as _ <-.
  - destruct (HTTPResponse.stream_error response); cbn; split; done.
Qed.

End Leftovers.

#[local] Instance same_log_preorder :
  PreOrder (λ w w' : World, progress_log w' = progress_log w).
Proof. split; [done|]. intros w1 w2 w3 H1 H2. congruence. Qed.

Lemma try_except_reraise_raise_cause {A} (m : M A) (f : Exception → Exception)
    w e' w' :
  try_except m (λ e, raise (f e)) w = (Raise e', w') →
  ∃ e, m w = (Raise e, w') ∧ e' = f e.
Proof.
  unfold try_except. destruct (m w) as [[a|e] w1]; [done|].
  intros [= <- <-]. eauto.
Qed.

Section FailedReports.
Context (P : Platform) (inner : string → Q → M unit).
Hypothesis inner_keeps_log :
  ∀ m q, preserves (λ w w', progress_log w' = progress_log w) (inner m q).

#[local] Hint Resolve reports_below_files reports_below_rng : keeps.

Lemma report_below bound message progress :
  (progress < bound)%Q →
  preserves (reports_below bound)
    (VideoCompositionService.report (Some (recording inner)) message progress).
Proof.
  intros Hp w. unfold VideoCompositionService.report, recording, bind,
    record_progress, modify.
  specialize (inner_keeps_log message progress
                (with_progress_log (λ l, l ++ [(message, progress)]) w)).
  destruct (inner message progress _) as [r w1]. cbn in *.
  exists [(message, progress)]. split; [by rewrite inner_keeps_log|].
  destruct r; by constructor.
Qed.

Lemma keeps_below {A} bound (m : M A) :
  preserves same_store m → preserves (reports_below bound) m.
Proof.
  apply (preserves_weaken same_store). apply reports_below_same_store.
Qed.

(** Before the scenes are done only values up to 60 are reported. *)
Lemma scene_loop_reports n res fps items :
  ∀ start acc, (start + length items ≤ n)%nat →
    preserves (reports_below 100)
      (for_enumerate
         (VideoCompositionService.scene_step P (Some (recording inner)) n res fps)
         start items acc).
Proof.
  induction items as [|[name data] items IH]; intros start acc Hn;
    cbn [for_enumerate]; [apply preserves_ret, _|].
  cbn [length] in Hn.
  apply preserves_bind; [apply _| |intros acc'; apply IH; lia].
  unfold VideoCompositionService.scene_step.
  apply preserves_bind; [apply _| |intros _].
  - apply report_below.
    pose proof (scene_progress_below n start ltac:(lia)) as Hb.
    unfold scene_progress in Hb. lra.
  - apply preserves_bind; [apply _| |intros clip; apply preserves_ret, _].
    apply keeps_below, keeps_create_clip.
Qed.

(** X23.  A render that fails has called its progress callback with
    values below 100 only, with one exception: the call with 100 is
    inside the [try], so when that call itself raises, 100 is the last
    value reported and the render fails with the error of the
    callback.  The callback here records each call and hands it on to
    any callback that leaves the record alone ([recording inner]). *)
Theorem render_fails_after_completion_only_in_callback
    (scenes : list (string * SceneData.t)) (fmt : VideoFormat.t)
    (quality : VideoQuality.t) (fps : nat) (settings : CompositionSettings.t)
    (w : World) (e : Exception) (w' : World) :
  VideoCompositionService.compose_video P scenes fmt quality fps settings
    (Some (recording inner)) w = (Raise e, w') →
  ∃ l, progress_log w' = progress_log w ++ l ∧
       (Forall (λ entry : string * Q, (entry.2 < 100)%Q) l ∨
        ∃ l0 w0 cause,
          l = l0 ++ [("Video composition complete", 100%Q)] ∧
          Forall (λ entry : string * Q, (entry.2 < 100)%Q) l0 ∧
          inner "Video composition complete" 100 w0 = (Raise cause, w') ∧
          e = ValueError ("Video composition failed: " +:+ str cause)).
Proof.
  intros Hrun.
  cut (reports_below 100 w w' ∨
       ∃ w10 w0 cause,
         reports_below 100 w w10 ∧
         progress_log w' =
           progress_log w10 ++ [("Video composition complete", 100%Q)] ∧
         inner "Video composition complete" 100 w0 = (Raise cause, w') ∧
         e = ValueError ("Video composition failed: " +:+ str cause)).
  { intros [(l & Hlog & Hall)|(w10 & w0 & cause & (l0 & Hlog & Hall) & Hlast
                                & Hinner & He)].
    - exists l. split; [done|]. by left.
    - exists (l0 ++ [("Video composition complete", 100%Q)]).
      split; [by rewrite Hlast, Hlog, <- (assoc_L (++))|].
      right. by exists l0, w0, cause. }
  unfold VideoCompositionService.compose_video in Hrun.
  apply try_except_reraise_raise_cause in Hrun as (e0 & Hrun & He).
  apply (bind_raise_step (reports_below 100) _ _ w) in Hrun
    as [?|([] & w1 & Hacc1 & Hrun)];
    [by left| |by apply report_below|reflexivity].
  apply (bind_raise_step (reports_below 100) _ _ w) in Hrun
    as [?|(clips & w2 & Hacc2 & Hrun)];
    [by left| |apply scene_loop_reports; cbn; lia|done].
  apply (bind_raise_step (reports_below 100) _ _ w) in Hrun
    as [?|([] & w3 & Hacc3 & Hrun)]; [by left| |by apply report_below|done].
  apply (bind_raise_step (reports_below 100) _ _ w) in Hrun
    as [?|(final_clips & w4 & Hacc4 & Hrun)];
    [by left| |apply preserves_lift, _|done].
  apply (bind_raise_step (reports_below 100) _ _ w) in Hrun
    as [?|([] & w5 & Hacc5 & Hrun)]; [by left| |by apply report_below|done].
  apply (bind_raise_step (reports_below 100) _ _ w) in Hrun
    as [?|(final_video & w6 & Hacc6 & Hrun)];
    [by left|
    |destruct final_clips as [|? [|? ?]];
       first [apply preserves_ret, _ | apply preserves_raise, _]
    |done].
  apply (bind_raise_step (reports_below 100) _ _ w) in Hrun
    as [?|([] & w7 & Hacc7 & Hrun)]; [by left| |by apply report_below|done].
  apply (bind_raise_step (reports_below 100) _ _ w) in Hrun
    as [?|(hex & w8 & Hacc8 & Hrun)];
    [by left|
    |apply preserves_random_hex;
       first [apply _ | intros; apply reports_below_rng]
    |done].
  apply (bind_raise_step (reports_below 100) _ _ w) in Hrun
    as [?|(encoded & w9 & Hacc9 & Hrun)];
    [by left| |apply preserves_lift, _|done].
  apply (bind_raise_step (reports_below 100) _ _ w) in Hrun
    as [?|([] & w10 & Hacc10 & Hrun)];
    [by left|
    |apply preserves_modify; intros; apply reports_below_files
    |done].
  right. unfold bind at 1 in Hrun.
  unfold VideoCompositionService.report at 1, recording at 1, bind at 1,
    record_progress, modify in Hrun.
  set (w0 := with_progress_log
               (λ l, l ++ [("Video composition complete", 100%Q)]) w10) in *.
  pose proof (inner_keeps_log "Video composition complete" 100%Q w0) as Hkeep.
  destruct (inner "Video composition complete" 100%Q w0) as [[[]|cause] w11]
    eqn:Hinner; cbn in Hkeep.
  - exfalso. unfold bind in Hrun.
    destruct (close_all_returns clips w11) as (w12 & Hc1).
    rewrite Hc1 in Hrun.
    destruct (close_returns final_video w12) as (w13 & Hc2).
    rewrite Hc2 in Hrun. done.
  - injection Hrun as <- <-. exists w10, w0, cause.
    split; [done|]. split; [by rewrite Hkeep|]. by split.
Qed.

End FailedReports.

(** * The further properties on concrete inputs *)

(** ** The coordinator and the job table *)

Lemma process_job_ends_completed_or_failed_witness :
  ∃ r w' row,
    Endpoints.process_job Demo.broken "job-1" "key-A"
      (Demo.world1 JobStatus.PENDING) = (r, w') ∧
    owned_by w' "job-1" "key-A" row ∧
    Job.status row =
      (if is_ok r then JobStatus.COMPLETED else JobStatus.FAILED) ∧
    Job.completed_at row = Some 1000%N.
Proof.
  destruct (process_job_ends_completed_or_failed Demo.broken
              (Demo.world1 JobStatus.PENDING) "job-1" "key-A"
              (Demo.job1 JobStatus.PENDING))
    as (r & w' & row & Hrun & Ho & Hs & _ & Hc & _).
  - split; vm_compute; reflexivity.
  - reflexivity.
  - by exists r, w', row.
Defined.

Lemma process_job_at_most_once_witness :
  ∃ r w' row,
    Endpoints.process_job Demo.broken "job-1" "key-A"
      (Demo.world1 JobStatus.PENDING) = (r, w') ∧
    owned_by w' "job-1" "key-A" row ∧
    Endpoints.process_job Demo.broken "job-1" "key-A" w' =
      (Raise (HTTPException 400
                (Endpoints.not_pending_detail Demo.broken (Job.status row))),
       w').
Proof.
  destruct (process_job_at_most_once Demo.broken
              (Demo.world1 JobStatus.PENDING) "job-1" "key-A"
              (Demo.job1 JobStatus.PENDING))
    as (r & w' & row & Hrun & Ho & Hagain & _).
  - split; vm_compute; reflexivity.
  - reflexivity.
  - by exists r, w', row.
Defined.

Lemma submitted_job_is_found_by_its_owner_witness :
  ∃ reply w',
    Endpoints.submit_composition_job Demo.broken (Demo.request Demo.two_scenes)
      "key-A" Demo.world0 = (Ok reply, w') ∧
    JobResponse.id (JobSubmissionResponse.job reply) = "job-7" ∧
    JobService.get_job "job-7" "key-A" w' =
      (Ok (Some (JobSubmissionResponse.job reply)), w') ∧
    Endpoints.get_job_status "job-7" "key-B" w' =
      (Raise (HTTPException 404 "Job not found"), w').
Proof.
  destruct (Endpoints.submit_composition_job Demo.broken
              (Demo.request Demo.two_scenes) "key-A" Demo.world0)
    as [[reply|e] w'] eqn:Hrun; [|vm_compute in Hrun; discriminate Hrun].
  exists reply, w'. split; [reflexivity|].
  assert (JobResponse.id (JobSubmissionResponse.job reply) = "job-7") as Hid.
  { vm_compute in Hrun. by injection Hrun as <- _. }
  split; [exact Hid|].
  destruct (submitted_job_is_found_by_its_owner Demo.broken _ _ "key-B" _ _ _
              Hrun) as (Hget & _ & _ & Hother).
  - discriminate.
  - rewrite Hid in Hget, Hother. by split.
Defined.

Lemma no_request_makes_a_job_downloadable_witness :
  is_ok (Endpoints.process_job Demo.broken "job-7" "key-A"
           (Endpoints.world_after Demo.broken
              (Compose (Demo.request Demo.two_scenes) "key-A")
              Demo.world0)).1 = false ∧
  is_ok (Endpoints.download_job_result Demo.broken "job-7" "key-A"
           (fold_left (λ w c, Endpoints.world_after Demo.broken c w)
              [Compose (Demo.request Demo.two_scenes) "key-A";
               ProcessJob "job-7" "key-A"]
              Demo.world0)).1 = false.
Proof.
  destruct (no_request_makes_a_job_downloadable Demo.broken
              [Compose (Demo.request Demo.two_scenes) "key-A";
               ProcessJob "job-7" "key-A"]
              Demo.world0)
    as (Hprocess & _ & Hdownload).
  - intros k job Hk. vm_compute in Hk. discriminate Hk.
  - split; [apply Hprocess|apply Hdownload].
Defined.

Lemma deleted_job_is_gone_witness :
  ∃ w',
    JobService.delete_job "job-1" "key-A" (Demo.world1 JobStatus.COMPLETED) =
      (Ok true, w') ∧
    JobService.get_job "job-1" "key-A" w' = (Ok None, w') ∧
    JobService.delete_job "job-1" "key-A" w' = (Ok false, w').
Proof.
  destruct (deleted_job_is_gone (Demo.world1 JobStatus.COMPLETED) "job-1"
              "key-A" (Demo.job1 JobStatus.COMPLETED))
    as (w' & Hdel & Hget & Hagain & _).
  - split; vm_compute; reflexivity.
  - by exists w'.
Defined.

Lemma list_jobs_page_witness :
  ∃ matches others,
    (map_to_list
       (db (Demo.world [("job-1", Demo.job1 JobStatus.PENDING);
                        ("job-2", Demo.job "job-2" "key-B"
                                    JobStatus.COMPLETED)]))).*2
      ≡ₚ matches ++ others ∧
    Forall (λ job, Job.api_key job = "key-A") matches ∧
    JobService.list_jobs Demo.broken "key-A" Demo.oldest_first
      (Demo.world [("job-1", Demo.job1 JobStatus.PENDING);
                   ("job-2", Demo.job "job-2" "key-B" JobStatus.COMPLETED)]) =
      (Ok (JobService._to_job_response <$> take 50 (drop 0 matches)),
       Demo.world [("job-1", Demo.job1 JobStatus.PENDING);
                   ("job-2", Demo.job "job-2" "key-B" JobStatus.COMPLETED)]).
Proof.
  destruct (list_jobs_page Demo.broken
              (Demo.world [("job-1", Demo.job1 JobStatus.PENDING);
                           ("job-2", Demo.job "job-2" "key-B"
                                       JobStatus.COMPLETED)])
              "key-A" Demo.oldest_first
              (λ a b, N.leb (Job.created_at a) (Job.created_at b)))
    as (matches & others & rows & Hsplit & Hall & _ & _ & Hrows & Hrun & _).
  - reflexivity.
  - exists matches, others. split; [exact Hsplit|]. split.
    + eapply Forall_impl; [exact Hall|]. by intros job (Hkey & _).
    + rewrite Hrun, Hrows. reflexivity.
Defined.

Lemma submitted_job_is_kept_seven_days_witness :
  ∃ reply w1,
    Endpoints.submit_composition_job Demo.broken (Demo.request Demo.two_scenes)
      "key-A" Demo.world0 = (Ok reply, w1) ∧
    JobResponse.expires_at (JobSubmissionResponse.job reply) =
      Some 605800%N ∧
    db (JobService.cleanup_expired_jobs w1).2
      !! JobResponse.id (JobSubmissionResponse.job reply) =
    db w1 !! JobResponse.id (JobSubmissionResponse.job reply).
Proof.
  destruct (Endpoints.submit_composition_job Demo.broken
              (Demo.request Demo.two_scenes) "key-A" Demo.world0)
    as [[reply|e] w1] eqn:Hrun; [|vm_compute in Hrun; discriminate Hrun].
  exists reply, w1. split; [reflexivity|].
  destruct (submitted_job_is_kept_seven_days Demo.broken _ _ _ _ _ w1 Hrun)
    as (Hexp & Hkept & _).
  - vm_compute in Hrun. injection Hrun as <- <-.
    eexists. split; vm_compute; reflexivity.
  - split; [exact Hexp|]. apply Hkept.
    vm_compute in Hrun. injection Hrun as _ <-. vm_compute. discriminate.
Defined.

Lemma status_update_agrees_with_predicates_witness :
  ∃ row w',
    JobService.update_job_status "job-1" "key-A" JobStatus.FAILED
      (Demo.world1 JobStatus.PROCESSING) = (Ok true, w') ∧
    owned_by w' "job-1" "key-A" row ∧
    Job.completed_at row = Some 1000%N ∧
    Job.can_retry row = true.
Proof.
  destruct (status_update_agrees_with_predicates
              (Demo.world1 JobStatus.PROCESSING) "job-1" "key-A"
              JobStatus.FAILED (Demo.job1 JobStatus.PROCESSING))
    as (row & w' & Hrun & Ho & Hs & Hc & Hretry & _).
  - split; vm_compute; reflexivity.
  - exists row, w'. split; [exact Hrun|]. split; [exact Ho|].
    unfold Job.is_finished in Hc. rewrite Hs in Hc. by split.
Defined.

(** ** The compositor and the pipeline *)

Lemma join_lengths_witness :
  (clip_duration (VideoCompositionService.apply_transition Demo.short_clip
                    Demo.long_clip TransitionType.FADE (1 # 2))
   == (1 # 2) + 3)%Q ∧
  VideoCompositionService.apply_transition Demo.short_clip Demo.long_clip
    TransitionType.ZOOM_IN (1 # 2) =
  concatenate_videoclips false [Demo.short_clip; Demo.long_clip].
Proof.
  destruct (join_lengths Demo.short_clip Demo.long_clip TransitionType.FADE
              (1 # 2)) as (Hsum & _ & _).
  destruct (join_lengths Demo.short_clip Demo.long_clip TransitionType.ZOOM_IN
              (1 # 2)) as (_ & Hsame & _).
  split.
  - apply Hsum; discriminate.
  - apply Hsame. vm_compute. intros Hin.
    repeat (inversion Hin as [|? ? ? Hin']; subst; clear Hin; rename Hin' into Hin).
Defined.

Lemma transitions_keep_running_time_witness :
  ∃ finals,
    VideoCompositionService.apply_transitions
      [(Demo.short_clip, TransitionType.NONE);
       (Demo.long_clip, TransitionType.FADE)] = Ok finals ∧
    length finals = 1 ∧
    (sum_of (List.map clip_duration finals) == (1 # 2) + 3)%Q.
Proof.
  destruct (transitions_keep_running_time Demo.short_clip TransitionType.NONE
              [(Demo.long_clip, TransitionType.FADE)])
    as (finals & Hfold & Hlen & Hsum).
  exists finals. split; [exact Hfold|]. split; [exact Hlen|].
  rewrite Hsum; [vm_compute; reflexivity|].
  intros item Hin. apply list_elem_of_singleton in Hin as ->.
  split; discriminate.
Defined.

Lemma scene_clip_fits_scene_witness :
  ∃ clip w',
    VideoCompositionService.create_clip_from_scene Demo.broken "Scene 1"
      (Demo.scene "https://example.com/a.jpg" 3 TransitionType.FADE)
      (1920, 1080) 30 Demo.world0 = (Ok clip, w') ∧
    clip_start clip = 0%Q ∧
    (clip_duration clip <= 3)%Q.
Proof.
  destruct (VideoCompositionService.create_clip_from_scene Demo.broken "Scene 1"
              (Demo.scene "https://example.com/a.jpg" 3 TransitionType.FADE)
              (1920, 1080) 30 Demo.world0)
    as [[clip|e] w'] eqn:Hrun; [|vm_compute in Hrun; discriminate Hrun].
  exists clip, w'. split; [reflexivity|].
  destruct (scene_clip_fits_scene Demo.broken _ _ _ _ _ _ _ Hrun)
    as (Hstart & Hle & _).
  by split.
Defined.

Lemma scene_failure_report_witness :
  ∃ e w',
    VideoCompositionService.create_clip_from_scene Demo.broken "Scene 2"
      (Demo.scene "https://example.com/gone.jpg" 5 TransitionType.SLIDE_LEFT)
      (1920, 1080) 30 Demo.world0 = (Raise e, w') ∧
    VideoCompositionService.get_media_path Demo.broken
      "https://example.com/gone.jpg" Demo.world0 = (Raise e, w').
Proof.
  destruct (VideoCompositionService.create_clip_from_scene Demo.broken "Scene 2"
              (Demo.scene "https://example.com/gone.jpg" 5
                 TransitionType.SLIDE_LEFT)
              (1920, 1080) 30 Demo.world0)
    as [[clip|e] w'] eqn:Hrun; [vm_compute in Hrun; discriminate Hrun|].
  exists e, w'. split; [reflexivity|].
  destruct (scene_failure_report Demo.broken _ _ _ _ _ _ _ Hrun)
    as [Hpath|(path & cause & Hpath & _)]; [exact Hpath|].
  exfalso. vm_compute in Hpath. discriminate Hpath.
Defined.

Lemma compose_video_writes_output_witness :
  ∃ w' encoded,
    VideoCompositionService.compose_video Demo.broken Demo.two_scenes
      VideoFormat.GIF VideoQuality.FHD 30 Demo.settings None Demo.world0 =
      (Ok "/srv/output/composition_0a1b2c3d4e5f.gif", w') ∧
    rng w' = 8 ∧
    files w' !! "/srv/output/composition_0a1b2c3d4e5f.gif" = Some encoded.
Proof.
  destruct (VideoCompositionService.compose_video Demo.broken Demo.two_scenes
              VideoFormat.GIF VideoQuality.FHD 30 Demo.settings None Demo.world0)
    as [[path|e] w'] eqn:Hrun; [|vm_compute in Hrun; discriminate Hrun].
  destruct (compose_video_writes_output Demo.broken _ _ _ _ _ None _ _ _
              ltac:(done) Hrun)
    as (Hpath & Hrng & video & encoded & Hfile & _).
  vm_compute in Hpath. subst path.
  exists w', encoded. split; [reflexivity|]. by split.
Defined.

Lemma render_fails_after_completion_only_in_callback_witness :
  ∃ e w' l,
    VideoCompositionService.compose_video Demo.broken Demo.two_scenes
      VideoFormat.MP4 VideoQuality.FHD 30 Demo.settings
      (Some (recording Demo.fails_at_completion))
      Demo.world0 = (Raise e, w') ∧
    progress_log w' = l ∧
    last l = Some ("Video composition complete", 100%Q) ∧
    e = ValueError "Video composition failed: callback failed".
Proof.
  destruct (VideoCompositionService.compose_video Demo.broken Demo.two_scenes
              VideoFormat.MP4 VideoQuality.FHD 30 Demo.settings
              (Some (recording Demo.fails_at_completion))
              Demo.world0)
    as [[path|e] w'] eqn:Hrun; [vm_compute in Hrun; discriminate Hrun|].
  assert (∀ m q, preserves (λ w w' : World, progress_log w' = progress_log w)
                   (Demo.fails_at_completion m q)) as Hkeeps.
  { intros m q w. unfold Demo.fails_at_completion.
    by destruct (Qeq_bool q 100). }
  destruct (render_fails_after_completion_only_in_callback Demo.broken
              Demo.fails_at_completion Hkeeps _ _ _ _ _ _ _ _ Hrun)
    as (l & Hlog & [Hall|(l0 & w0 & cause & -> & _ & Hinner & ->)]).
  - exfalso. vm_compute in Hrun. injection Hrun as _ <-.
    vm_compute in Hlog. subst l.
    assert (("Video composition complete", 100%Q) ∈
              [("Creating clips from scenes", 10%Q);
               ("Processing scene: Scene 1", 20 # 2);
               ("Processing scene: Scene 2", 70 # 2);
               ("Applying transitions", 70%Q); ("Concatenating video", 80%Q);
               ("Rendering final video", 90%Q);
               ("Video composition complete", 100%Q)]) as Hin
      by (repeat constructor).
    apply (proj1 (Forall_forall _ _) Hall) in Hin.
    vm_compute in Hin. discriminate Hin.
  - exists (ValueError ("Video composition failed: " +:+ str cause)), w',
      (progress_log w').
    split; [reflexivity|]. split; [reflexivity|]. split.
    + rewrite Hlog. change (progress_log Demo.world0) with (@nil (string * Q)).
      cbn [app]. apply last_snoc.
    + unfold Demo.fails_at_completion in Hinner.
      change (Qeq_bool 100 100) with true in Hinner.
      by injection Hinner as <- _.
Defined.

(** ** Authentication and rate limiting *)

Lemma get_api_key_accepts_bearer_keys_witness :
  Auth.get_api_key Demo.limits (Some "Bearer key-B") = inr "key-B" ∧
  ∃ detail,
    Auth.get_api_key Demo.limits (Some "bearer key-B") =
      inl (Auth.HTTPError 401 detail [("WWW-Authenticate", "Bearer")]).
Proof.
  split.
  - apply (proj1 (get_api_key_accepts_bearer_keys Demo.limits
                    (Some "Bearer key-B"))).
    split; [reflexivity|]. split; [discriminate|]. vm_compute.
    right. left.
  - destruct (proj2 (get_api_key_accepts_bearer_keys Demo.limits
                       (Some "bearer key-B"))
                (Auth.HTTPError 401 "Invalid authorization header format"
                   [("WWW-Authenticate", "Bearer")]) eq_refl)
      as (detail & Hdetail).
    exists detail. by rewrite <- Hdetail.
Defined.

Lemma rate_limit_counts_allowed_requests_witness :
  ∃ info r',
    Auth.service_check_rate_limit Demo.limits 125 "key-A" (Some ∅) =
      inr (true, info, Some r') ∧
    RateLimitInfo.requests_remaining info = 1%Z ∧
    Redis.get 179 (Auth.rate_limit_key "key-A" 2) r' = Some 1%Z.
Proof.
  destruct (rate_limit_counts_allowed_requests Demo.limits 125 "key-A" ∅)
    as (is_allowed & info & r' & Hrun & Hiff & _ & Hrest); [reflexivity|].
  assert (is_allowed = true) as -> by (apply Hiff; reflexivity).
  destruct Hrest as (Hleft & Hlater & _).
  exists info, r'. split; [exact Hrun|]. split; [exact Hleft|].
  apply (Hlater 179%Z). reflexivity.
Defined.

Lemma rate_limit_allows_limit_per_window_witness :
  successive_checks Demo.limits [120; 125; 130; 179]%Z "key-A" ∅ =
    [true; true; false; false].
Proof.
  apply (rate_limit_allows_limit_per_window Demo.limits "key-A" 2
           [120; 125; 130; 179]%Z ∅).
  - reflexivity.
  - repeat constructor.
  - reflexivity.
Defined.

Lemma rate_limit_fails_open_witness :
  match Auth.check_rate_limit Demo.limits 125 None (Some "key-A") None with
  | inr (info, _) => RateLimitInfo.requests_remaining info = 2%Z
  | inl e => Auth.get_api_key Demo.limits None = inl e ∧
             (Some "key-A" = None ∨ Some "key-A" = Some "")
  end.
Proof.
  apply (proj1 (rate_limit_fails_open Demo.limits 125 None (Some "key-A")
                  None)).
  discriminate.
Defined.

Lemma rate_limit_refusal_is_429_witness :
  match Auth.check_rate_limit Demo.limits 125 None (Some "key-A") (Some ∅) with
  | inl e => False
  | inr (info, _) => RateLimitInfo.requests_remaining info = 1%Z
  end.
Proof.
  pose proof (rate_limit_refusal_is_429 Demo.limits 125 None "key-A" ∅
                ltac:(reflexivity) ltac:(discriminate)) as Hrun.
  cbn zeta in Hrun.
  destruct (Auth.check_rate_limit Demo.limits 125 None (Some "key-A") (Some ∅))
    as [e|[info r']].
  - destruct Hrun as [Hfull _]. vm_compute in Hfull. by apply Hfull.
  - by destruct Hrun.
Defined.

(** ** The fold of the pipeline *)

Lemma transitions_fold_left_witness :
  ∃ path w' clip0 t0 rest final_clips,
    VideoCompositionService.compose_video Demo.broken Demo.two_scenes
      VideoFormat.MP4 VideoQuality.FHD 30 Demo.settings None Demo.world0 =
      (Ok path, w') ∧
    ((clip0, t0) :: rest).*2 =
      [TransitionType.FADE; TransitionType.SLIDE_LEFT] ∧
    VideoCompositionService.apply_transitions ((clip0, t0) :: rest) =
      Ok final_clips ∧
    write_videofile Demo.broken
      match final_clips with
      | [final_video] => final_video
      | _ => concatenate_videoclips true final_clips
      end 30 (VideoCompositionService.codec_settings VideoFormat.MP4) =
      Ok "mp4-bytes".
Proof.
  destruct (VideoCompositionService.compose_video Demo.broken Demo.two_scenes
              VideoFormat.MP4 VideoQuality.FHD 30 Demo.settings None Demo.world0)
    as [[path|e] w'] eqn:Hrun; [|vm_compute in Hrun; discriminate Hrun].
  destruct (transitions_fold_left Demo.broken _ _ _ _ _ _ _ _ _ Hrun)
    as (clip0 & t0 & rest & final_clips & encoded & _ & Hts & Hfold & _).
  exists path, w', clip0, t0, rest, final_clips.
  split; [reflexivity|]. split; [exact Hts|]. split; [exact Hfold|].
  reflexivity.
Defined.
